(** * LEHTORE admin console and photo processor: the staged-edit store,
      the publish protocol and the batch processor's manifest update.

    Sources embedded here:
    - [src/js/admin.js]: [state], [getPhoto], [applyDraft], [markForDelete],
      the revert handler of [renderEditPanel], [selectPhoto], [startAdmin],
      [ghGetFile], [ghPutFile], [ghDeleteFile], [publishToGitHub], [addTag],
      [removeTag], [esc], [updatePublishBtn], [saveSettings], the chunk loop
      of [ghUploadBinary];
    - [src/scripts/process-photos.js]: [slugify], [padded], [formatDate],
      the loading of [photos.json], the known-id set, the main loop and the
      write;
    - the gallery script: [navigate], [handleHashOpen].

    The DOM (grid, edit panel, toast element, buttons) is not modelled; the
    text handed to [showToast] by [publishToGitHub] is its result here.  An
    [async] function runs from start to end: no other handler is scheduled
    at its [await]s. *)

From Stdlib Require Import Ascii String.
From stdpp Require Import gmap strings list fin_maps pretty.

Open Scope string_scope.
Open Scope list_scope.

(** ** JavaScript values found in the manifest *)

(** A field of a photo object.  A missing field ([undefined]) is the absence
    of the key.  Numbers are the integers the manifest holds ([width],
    [height]); arrays are the [tags] arrays of strings. *)
Inductive jsval :=
| JNull
| JBool (b : bool)
| JNum (n : Z)
| JStr (s : string)
| JArr (l : list string).

#[global] Instance jsval_eq_dec : EqDecision jsval.
Proof. solve_decision. Defined.

(** A photo object: a plain JS object (made by [JSON.parse], by an object
    literal or by a spread, so its prototype is [Object.prototype]), given by
    its own properties, keyed by name. *)
Abbreviation photo := (gmap string jsval).

(** ** What a lookup in [state.dirty] can give *)

(** [state.dirty] is a plain object used as a map from ids to photo objects.
    [state.dirty[id]] that finds no own property goes on to the prototype of
    [state.dirty]: [Object.prototype], whose properties are functions, plus
    the accessor [__proto__].  These are the names of the functions. *)
Definition prototype_methods : list string :=
  ["constructor"; "hasOwnProperty"; "isPrototypeOf"; "propertyIsEnumerable";
   "toLocaleString"; "toString"; "valueOf";
   "__defineGetter__"; "__defineSetter__"; "__lookupGetter__"; "__lookupSetter__"].

(** Every name [Object.prototype] answers to. *)
Definition prototype_keys : list string := "__proto__" :: prototype_methods.

(** The values that [state.dirty[id]], [getPhoto(id)] and the elements of
    [state.photos] and [state.pendingDeletes] can be, other than [null] and
    [undefined]: a photo object; a function of [Object.prototype];
    [Object.prototype] itself (what [state.dirty.__proto__] returns at
    first); and, once [state.dirty.__proto__] has been assigned a photo
    object, a field of that object. *)
Inductive value :=
| VRec (r : photo)
| VFun (name : string)
| VObjectPrototype
| VBool (b : bool)
| VNum (n : Z)
| VStr (s : string)
| VArr (l : list string).

#[global] Instance value_eq_dec : EqDecision value.
Proof. solve_decision. Defined.

(** A field value as a value; [null] is [None]. *)
Definition of_jsval (v : jsval) : option value :=
  match v with
  | JNull => None
  | JBool b => Some (VBool b)
  | JNum n => Some (VNum n)
  | JStr s => Some (VStr s)
  | JArr l => Some (VArr l)
  end.

(** Whether a value passes [v || ...]. *)
Definition truthy (v : value) : bool :=
  match v with
  | VRec _ | VFun _ | VObjectPrototype | VArr _ => true
  | VBool b => b
  | VNum n => negb (bool_decide (n = 0%Z))
  | VStr s => negb (bool_decide (s = ""))
  end.

(** The own enumerable properties of a value, which is what [{ ...v }]
    copies: the fields of a photo object, the indexed characters of a string,
    the indexed elements of an array, and nothing for a function, for
    [Object.prototype], a number or a boolean. *)
Definition props (v : value) : photo :=
  match v with
  | VRec r => r
  | VStr s =>
      list_to_map (imap (λ i c, (pretty i, JStr (String c ""))) (list_ascii_of_string s))
  | VArr l => list_to_map (imap (λ i x, (pretty i, JStr x)) l)
  | VFun _ | VObjectPrototype | VBool _ | VNum _ => ∅
  end.

(** Decimal numerals start with a digit. *)
Definition starts_with_digit (s : string) : Prop :=
  match s with
  | String c _ => (48 ≤ nat_of_ascii c ≤ 57)%nat
  | EmptyString => True
  end.

(** [v.k] for the names the code reads on these values: [id], [src],
    [thumb], [tags].  No prototype of any of them has a property of these
    names, so the read gives the own field of a photo object and
    [undefined] on every other value. *)
#[global] Instance value_lookup : Lookup string jsval value :=
  λ k v, match v with VRec r => r !! k | _ => None end.

(** What [JSON.stringify] prints for an element of the [photos] array: a
    function is printed as [null], [Object.prototype] as the empty object. *)
Inductive json :=
| JObject (r : photo)
| JPrim (v : jsval).

#[global] Instance json_eq_dec : EqDecision json.
Proof. solve_decision. Defined.

Definition to_json (v : value) : json :=
  match v with
  | VRec r => JObject r
  | VFun _ => JPrim JNull
  | VObjectPrototype => JObject ∅
  | VBool b => JPrim (JBool b)
  | VNum n => JPrim (JNum n)
  | VStr s => JPrim (JStr s)
  | VArr l => JPrim (JArr l)
  end.

(** The [photos] array of [JSON.stringify({ photos: merged }, null, 2)]. *)
Definition json_of (l : list value) : list json := map to_json l.

(** [join(',')] on an array of strings. *)
Fixpoint join_comma (l : list string) : string :=
  match l with
  | [] => ""
  | [x] => x
  | x :: r => x +:+ "," +:+ join_comma r
  end.

(** String coercion of a field value, as performed by a computed property
    access [obj[v]] and by a template literal. *)
Definition to_key (v : option jsval) : string :=
  match v with
  | None => "undefined"
  | Some JNull => "null"
  | Some (JBool true) => "true"
  | Some (JBool false) => "false"
  | Some (JNum n) => pretty n
  | Some (JStr s) => s
  | Some (JArr l) => join_comma l
  end.

(** Reading [id] fields, on photo objects and on values alike. *)
Section Ids.
Context {T : Type} `{Lookup string jsval T}.

(** [p.id]. *)
Definition photo_id (p : T) : option jsval := p !! "id".

(** [p.id === id] for [id] a string or [null] ([None]). *)
Definition id_is (id : option string) (p : T) : bool :=
  match id, photo_id p with
  | Some s, Some (JStr s') => bool_decide (s' = s)
  | None, Some JNull => true
  | _, _ => false
  end.

(** The ids of a list of photos that are strings. *)
Definition string_ids (l : list T) : list string :=
  omap (λ p, match photo_id p with Some (JStr s) => Some s | _ => None end) l.

(** Every photo of [l] has a string id, and these are [ids], in order. *)
Definition has_ids (l : list T) (ids : list string) : Prop :=
  map photo_id l = map (λ i, Some (JStr i)) ids.

End Ids.

(** The key under which [state.dirty[id]] is looked up, [id] being
    [state.selected]: a string, or [null]. *)
Definition sel_key (id : option string) : string :=
  match id with Some s => s | None => "null" end.

(** [{ ...base, ...partial }]: the fields of [partial] win. *)
Definition spread (base partial : photo) : photo := partial ∪ base.

(** ** The session state ([const state] of admin.js) *)

(** [state.dirty] is given by its own properties ([dirty]) and, when it is
    no longer [Object.prototype], by its prototype ([dirtyProto]). *)
Record State := mkState {
  photos : list value;              (* current photos array *)
  dirty : gmap string photo;        (* { [id]: modified photo object } *)
  dirtyProto : option photo;        (* the prototype of state.dirty *)
  pendingDeletes : list value;      (* photo objects to remove on publish *)
  sha : option string;              (* photos.json SHA, null at start *)
  selected : option string;         (* currently selected photo id *)
}.

Definition set_photos (l : list value) (st : State) : State :=
  mkState l (dirty st) (dirtyProto st) (pendingDeletes st) (sha st) (selected st).
Definition set_dirty (d : gmap string photo) (st : State) : State :=
  mkState (photos st) d (dirtyProto st) (pendingDeletes st) (sha st) (selected st).
Definition set_dirtyProto (p : option photo) (st : State) : State :=
  mkState (photos st) (dirty st) p (pendingDeletes st) (sha st) (selected st).
Definition set_pendingDeletes (l : list value) (st : State) : State :=
  mkState (photos st) (dirty st) (dirtyProto st) l (sha st) (selected st).
Definition set_sha (s : option string) (st : State) : State :=
  mkState (photos st) (dirty st) (dirtyProto st) (pendingDeletes st) s (selected st).
Definition set_selected (s : option string) (st : State) : State :=
  mkState (photos st) (dirty st) (dirtyProto st) (pendingDeletes st) (sha st) s.

(** [state.dirty = {}]: a fresh object, whose prototype is
    [Object.prototype]. *)
Definition reset_dirty (st : State) : State :=
  set_dirtyProto None (set_dirty ∅ st).

Definition initial_state : State := mkState [] ∅ None [] None None.

(** The assignments of [startAdmin] once [ghGetFile('photos.json')] has
    returned the document's [photos] array, an array of photo objects, and
    its SHA. *)
Definition load (manifest : list photo) (s : string) (st : State) : State :=
  set_pendingDeletes []
    (reset_dirty (set_photos (VRec <$> manifest) (set_sha (Some s) st))).

(** ** Property access on [state.dirty] *)

(** [Object.prototype[k]] read through [state.dirty]: the getter of
    [__proto__] returns the prototype of [state.dirty]. *)
Definition inherited (k : string) (proto : option photo) : option value :=
  if bool_decide (k = "__proto__") then
    Some (match proto with Some p => VRec p | None => VObjectPrototype end)
  else if bool_decide (k ∈ prototype_methods) then Some (VFun k)
  else None.

(** [state.dirty[k]]: the own property, else the property of the prototype
    chain; [None] stands for [undefined] and for [null]. *)
Definition dirty_get (k : string) (st : State) : option value :=
  match dirty st !! k with
  | Some e => Some (VRec e)
  | None =>
      match dirtyProto st with
      | Some p =>
          match p !! k with
          | Some v => of_jsval v
          | None => inherited k (Some p)
          end
      | None => inherited k None
      end
  end.

(** Whether [state.dirty[k] = e] ends in the setter of
    [Object.prototype.__proto__]: [k] is [__proto__] and neither
    [state.dirty] nor its prototype has an own property of that name. *)
Definition reaches_setter (k : string) (st : State) : bool :=
  bool_decide (k = "__proto__")
  && bool_decide (dirty st !! k = None)
  && bool_decide (dirtyProto st ≫= (λ p, p !! k) = None).

(** [state.dirty[k] = e] for a photo object [e]: the setter makes [e] the
    prototype of [state.dirty]; in every other case [e] becomes the own
    property [k]. *)
Definition dirty_set (k : string) (e : photo) (st : State) : State :=
  if reaches_setter k st then set_dirtyProto (Some e) st
  else set_dirty (<[k := e]> (dirty st)) st.

(** ** Store operations *)

(** [state.photos.find(p => p.id === id)]. *)
Definition find_photo (id : option string) (st : State) : option value :=
  List.find (id_is id) (photos st).

(** [getPhoto(id)]: [state.dirty[id] || state.photos.find(...) || null]. *)
Definition getPhoto (id : option string) (st : State) : option value :=
  match dirty_get (sel_key id) st with
  | Some v => if truthy v then Some v else find_photo id st
  | None => find_photo id st
  end.

(** The own enumerable properties of the base of the spread in
    [applyDraft]: the value of the same expression as in [getPhoto], with
    [{}] in place of [null]. *)
Definition draft_base (st : State) : photo :=
  default ∅ (props <$> getPhoto (selected st) st).

(** [applyDraft(partial)]. *)
Definition applyDraft (partial : photo) (st : State) : State :=
  dirty_set (sel_key (selected st)) (spread (draft_base st) partial) st.

(** [selectPhoto(id)], the state part: [state.selected = id]. *)
Definition selectPhoto (id : string) (st : State) : State :=
  set_selected (Some id) st.

(** Staging an edit on photo [id]: its edit panel is open ([selectPhoto])
    and one of the panel's handlers calls [applyDraft]. *)
Definition stageEdit (id : string) (partial : photo) (st : State) : State :=
  applyDraft partial (selectPhoto id st).

(** The click handler of the Revert button of the panel rendered for [id]:
    [delete state.dirty[id]], which removes an own property only. *)
Definition revert (id : string) (st : State) : State :=
  set_dirty (delete id (dirty st)) st.

(** [markForDelete(id)]; [confirmed] is the answer given to [confirm(...)]. *)
Definition markForDelete (id : string) (confirmed : bool) (st : State) : State :=
  match find_photo (Some id) st with
  | None => st
  | Some photo =>
      if negb confirmed then st
      else
        let st1 := set_pendingDeletes (pendingDeletes st ++ [photo]) st in
        let st2 := set_photos (filter (λ p, id_is (Some id) p = false) (photos st1)) st1 in
        let st3 := set_dirty (delete id (dirty st2)) st2 in
        set_selected None st3
  end.

(** [state.photos.map(p => state.dirty[p.id] ?? p)]: the list the user sees
    and the list [publishToGitHub] writes. *)
Definition merged (st : State) : list value :=
  map (λ p, default p (dirty_get (to_key (photo_id p)) st)) (photos st).

Definition effectiveList (st : State) : list value := merged st.

(** The count of [updatePublishBtn]: [Object.keys] lists own properties. *)
Definition pendingChangeCount (st : State) : nat :=
  size (dirty st) + length (pendingDeletes st).

(** ** The GitHub Contents API boundary *)

(** What [fetch] is asked.  The repository, branch and token of
    [state.config] are fixed for a session and left out; a request is
    identified by its method, the path under [/contents/], and the JSON body
    fields the helpers set; the content of a PUT is the [photos] array of the
    JSON text. *)
Inductive request :=
| ReqGet (path : string)
| ReqPut (path : string) (content : list json) (body_sha : option string)
         (message : string)
| ReqDelete (path : string) (body_sha : string) (message : string).

(** What [fetch] answers.
    - [FetchReject msg]: the promise rejects (no HTTP response);
    - [NotOk msg]: a response with [res.ok] false, [msg] being the text the
      helpers extract from it ([d.message], else [res.statusText]);
    - [OkBad msg]: [res.ok] holds but reading the body throws [msg];
    - [OkJson doc s]: [res.ok] holds; for a GET, [doc] is the [photos] array
      of the decoded content and [s] is [data.sha]; for a PUT, [s] is
      [result.content.sha]. *)
Inductive response :=
| FetchReject (msg : string)
| NotOk (msg : string)
| OkBad (msg : string)
| OkJson (doc : list photo) (s : string).

(** The timeline of a session: calls of the three helpers and the requests
    they send, oldest first. *)
Inductive event :=
| CallGetFile (path : string)
| CallPutFile (path : string) (content : list json) (s : string)
| CallDeleteFile (path : string)
| Fetch (r : request).

(** The remote side: its answer to a request, given everything that
    happened before. *)
Definition remote := list event → request → response.

(** ** A state-and-exception monad for the [async] functions *)

Record world := mkWorld {
  store : State;
  timeline : list event;
}.

Inductive outcome (A : Type) :=
| Ret (a : A)
| Throw (msg : string).
Arguments Ret {A} a.
Arguments Throw {A} msg.

Definition M (A : Type) : Type := world → outcome A * world.

Definition ret {A} (a : A) : M A := λ w, (Ret a, w).
Definition throw {A} (msg : string) : M A := λ w, (Throw msg, w).
Definition bind {A B} (m : M A) (k : A → M B) : M B :=
  λ w, match m w with
       | (Ret a, w') => k a w'
       | (Throw msg, w') => (Throw msg, w')
       end.
(** [try { m } catch (err) { h(err.message) }]: the handler runs in the
    world the body left behind. *)
Definition try_catch {A} (m : M A) (h : string → M A) : M A :=
  λ w, match m w with
       | (Ret a, w') => (Ret a, w')
       | (Throw msg, w') => h msg w'
       end.

#[global] Instance M_ret : MRet M := @ret.
#[global] Instance M_bind : MBind M := λ A B k m, bind m k.

Definition get_state : M State := λ w, (Ret (store w), w).
Definition modify (f : State → State) : M unit :=
  λ w, (Ret tt, mkWorld (f (store w)) (timeline w)).
Definition log (e : event) : M unit :=
  λ w, (Ret tt, mkWorld (store w) (timeline w ++ [e])).
(** Lifting a synchronous expression that may throw. *)
Definition lift {A} (o : outcome A) : M A := λ w, (o, w).

(** [if (b) m]. *)
Definition when_ (b : bool) (m : M unit) : M unit :=
  if b then m else ret tt.

(** [for (const x of l) { body(x) }]. *)
Fixpoint for_each {A} (l : list A) (body : A → M unit) : M unit :=
  match l with
  | [] => ret tt
  | x :: r => body x ;; for_each r body
  end.

Section Publish.

Variable server : remote.

(** [await fetch(...)]: sends the request; a rejected promise throws. *)
Definition fetch (r : request) : M response :=
  λ w, let w' := mkWorld (store w) (timeline w ++ [Fetch r]) in
       match server (timeline w) r with
       | FetchReject msg => (Throw msg, w')
       | resp => (Ret resp, w')
       end.

(** [ghGetFile(path)]: returns [{ content, sha }]. *)
Definition ghGetFile (path : string) : M (list photo * string) :=
  log (CallGetFile path) ;;
  res ← fetch (ReqGet path);
  match res with
  | OkJson doc s => ret (doc, s)
  | NotOk msg => throw ("GitHub: " +:+ msg)
  | OkBad msg | FetchReject msg => throw msg
  end.

(** [if (sha) body.sha = sha]: an empty SHA is left out of the body. *)
Definition put_sha (s : string) : option string :=
  if bool_decide (s = "") then None else Some s.

(** [ghPutFile(path, content, sha, message)]: returns [result.content.sha]. *)
Definition ghPutFile (path : string) (content : list json) (s : string)
    (message : string) : M string :=
  log (CallPutFile path content s) ;;
  res ← fetch (ReqPut path content (put_sha s) message);
  match res with
  | OkJson _ s' => ret s'
  | NotOk msg => throw ("GitHub: " +:+ msg)
  | OkBad msg | FetchReject msg => throw msg
  end.

(** [ghDeleteFile(path, message)]: the SHA lookup sits in a [try] whose
    [catch] returns; the DELETE request is awaited outside of it and its
    response is not inspected. *)
Definition ghDeleteFile (path : string) (message : string) : M unit :=
  log (CallDeleteFile path) ;;
  s ← try_catch
        (res ← fetch (ReqGet path);
         match res with
         | OkJson _ s => ret (Some s)
         | NotOk _ => ret None
         | OkBad msg | FetchReject msg => throw msg
         end)
        (λ _, ret None);
  match s with
  | None => ret tt
  | Some s => fetch (ReqDelete path s message) ;; ret tt
  end.

(** [const isLocal = p => p && !p.startsWith('http')], as the condition of
    an [if]: a falsy [p] is not local, a non-empty string is local unless it
    starts with [http], any other value has no [startsWith] method. *)
Definition isLocal (p : option jsval) : outcome bool :=
  match p with
  | None | Some JNull | Some (JBool false) | Some (JNum 0) | Some (JStr "") =>
      Ret false
  | Some (JStr s) => Ret (negb (String.prefix "http" s))
  | Some _ => Throw "p.startsWith is not a function"
  end.

(** The body of the deletion loop for one pending photo. *)
Definition delete_files (ph : value) : M unit :=
  l ← lift (isLocal (ph !! "src"));
  when_ l (ghDeleteFile (to_key (ph !! "src"))
             ("Remove " +:+ to_key (photo_id ph) +:+ " upload")) ;;
  l' ← lift (isLocal (ph !! "thumb"));
  when_ l' (ghDeleteFile (to_key (ph !! "thumb"))
              ("Remove " +:+ to_key (photo_id ph) +:+ " thumbnail")).

(** The second block of the [try]: merge, re-fetch the SHA, write, commit. *)
Definition write_manifest : M unit :=
  st ← get_state;
  let m := merged st in
  let json := json_of m in
  r ← ghGetFile "photos.json";
  s' ← ghPutFile "photos.json" json r.2 "Update photo metadata via admin panel";
  modify (set_sha (Some s')) ;;
  modify (set_photos m) ;;
  modify reset_dirty ;;
  modify (set_pendingDeletes []).

(** The text and kind handed to [showToast]. *)
Inductive toast :=
| Toast (msg : string) (kind : string).

(** [publishToGitHub()]. *)
Definition publishToGitHub : M toast :=
  st ← get_state;
  let hasEdits := bool_decide (0 < size (dirty st)) in
  let hasDeletes := bool_decide (0 < length (pendingDeletes st)) in
  if negb hasEdits && negb hasDeletes then ret (Toast "No changes to publish." "")
  else
    try_catch
      (for_each (pendingDeletes st) delete_files ;;
       when_ (hasEdits || hasDeletes) write_manifest ;;
       ret (Toast "Published! Site updates in ~1 minute." "success"))
      (λ msg, ret (Toast ("Publish failed: " +:+ msg) "error")).

(** Running a publish attempt from a store state and an empty timeline. *)
Definition publish (st : State) : outcome toast * world :=
  publishToGitHub (mkWorld st []).

End Publish.

(** ** Observing a run *)

(** [runs m tl o evs]: started when the timeline is [tl], [m] ends with [o]
    and appends [evs], whatever the store is, and leaves the store alone. *)
Definition runs {A} (m : M A) (tl : list event) (o : outcome A)
    (evs : list event) : Prop :=
  ∀ st, m (mkWorld st tl) = (o, mkWorld st (tl ++ evs)).

(** Events of the deletion phase: a [ghDeleteFile] call, its SHA lookup, its
    DELETE request. *)
Definition quiet (e : event) : Prop :=
  match e with
  | Fetch (ReqGet _) | Fetch (ReqDelete _ _ _) => True
  | _ => False
  end.

Definition deletion_event (e : event) : Prop :=
  match e with
  | CallDeleteFile _ => True
  | _ => quiet e
  end.

(** The paths [ghDeleteFile] was called with, in order. *)
Definition calls_deleted (tl : list event) : list string :=
  omap (λ e, match e with CallDeleteFile p => Some p | _ => None end) tl.

Definition is_local (v : option jsval) : bool :=
  match isLocal v with Ret true => true | _ => false end.

(** The local files of a photo, [src] first. *)
Definition local_paths (ph : value) : list string :=
  (if is_local (ph !! "src") then [to_key (ph !! "src")] else []) ++
  (if is_local (ph !! "thumb") then [to_key (ph !! "thumb")] else []).

(** A DELETE request whose promise rejects. *)
Definition delete_rejected (server : remote) (msg : string) : Prop :=
  ∃ tl path s message, server tl (ReqDelete path s message) = FetchReject msg.

(** ** The write phase, response by response *)

Definition update_message : string := "Update photo metadata via admin panel".

(** The events of [ghGetFile('photos.json')]. *)
Definition reread_events : list event :=
  [CallGetFile "photos.json"; Fetch (ReqGet "photos.json")].

(** The events of [ghPutFile('photos.json', json, sha, ...)]. *)
Definition write_events (m : list json) (s : string) : list event :=
  [CallPutFile "photos.json" m s;
   Fetch (ReqPut "photos.json" m (put_sha s) update_message)].

(** The server's answer to the re-read issued when the timeline is [tl]. *)
Definition reread_response (server : remote) (tl : list event) : response :=
  server (tl ++ [CallGetFile "photos.json"]) (ReqGet "photos.json").

(** The server's answer to the write of [m] under SHA [s] that follows. *)
Definition write_response (server : remote) (tl : list event)
    (m : list json) (s : string) : response :=
  server (tl ++ reread_events ++ [CallPutFile "photos.json" m s])
         (ReqPut "photos.json" m (put_sha s) update_message).

Definition failed (r : response) : Prop :=
  match r with OkJson _ _ => False | _ => True end.

(** The message of the [Error] the helpers throw on a failed response. *)
Definition error_message (r : response) : string :=
  match r with
  | NotOk msg => "GitHub: " +:+ msg
  | FetchReject msg | OkBad msg => msg
  | OkJson _ _ => ""
  end.

(** The four assignments that end a successful publish. *)
Definition committed (m : list value) (s' : string) (st : State) : State :=
  set_pendingDeletes [] (reset_dirty (set_photos m (set_sha (Some s') st))).

Definition published : toast := Toast "Published! Site updates in ~1 minute." "success".
Definition publish_failed (msg : string) : toast :=
  Toast ("Publish failed: " +:+ msg) "error".
Definition nothing_to_publish : toast := Toast "No changes to publish." "".

(** ** Sequences of store operations *)

(** One user action on the store. *)
Inductive op :=
| OpEdit (id : string) (partial : photo)
| OpRevert (id : string)
| OpDelete (id : string) (confirmed : bool).

Definition step (o : op) (st : State) : State :=
  match o with
  | OpEdit id partial => stageEdit id partial st
  | OpRevert id => revert id st
  | OpDelete id confirmed => markForDelete id confirmed st
  end.

Fixpoint run (ops : list op) (st : State) : State :=
  match ops with
  | [] => st
  | o :: r => run r (step o st)
  end.

(** The partial change of an edit has no [id] field, as is the case of every
    object the panel's handlers pass to [applyDraft]. *)
Definition keeps_id (o : op) : Prop :=
  match o with
  | OpEdit _ partial => partial !! "id" = None
  | _ => True
  end.

(** The precondition of an operation in a given state: an edit names an id
    that [getPhoto] resolves to a photo object, and does not touch its
    [id]. *)
Definition op_pre (o : op) (st : State) : Prop :=
  match o with
  | OpEdit id partial =>
      (∃ r, getPhoto (Some id) st = Some (VRec r)) ∧ partial !! "id" = None
  | _ => True
  end.

Fixpoint ops_pre (ops : list op) (st : State) : Prop :=
  match ops with
  | [] => True
  | o :: r => op_pre o st ∧ ops_pre r (step o st)
  end.

(** The id of an overlay entry, and of the prototype assigned through
    [__proto__], is the key it was stored under, or is missing. *)
Definition overlay_ids (st : State) : Prop :=
  (∀ k e, dirty st !! k = Some e →
     photo_id e = Some (JStr k) ∨ photo_id e = None)
  ∧ (∀ p, dirtyProto st = Some p →
       photo_id p = Some (JStr "__proto__") ∨ photo_id p = None).

(** Every element of [state.photos] is a photo object with a string id. *)
Definition string_photos (st : State) : Prop :=
  ∀ p, p ∈ photos st → ∃ r s, p = VRec r ∧ photo_id r = Some (JStr s).

Definition well_formed (st : State) : Prop :=
  string_photos st ∧ overlay_ids st.

(** Every overlay entry carries the key it is stored under as its id. *)
Definition keyed_by_id (st : State) : Prop :=
  ∀ k e, dirty st !! k = Some e → photo_id e = Some (JStr k).

(** [tracks ids0 del st]: of the loaded ids [ids0], those in [del] have
    moved to the pending deletions and the others are the photos, in the
    loaded order; the overlay is keyed by ids of photos. *)
Definition tracks (ids0 del : list string) (st : State) : Prop :=
  has_ids (photos st) (filter (λ i, i ∉ del) ids0)
  ∧ has_ids (pendingDeletes st) del
  ∧ dom (dirty st) ⊆ list_to_set (filter (λ i, i ∉ del) ids0).

(** [settled ids0 del st]: a store in which every edit was staged on an id
    that resolved to a photo object, none of the loaded ids [ids0] being a
    name of [Object.prototype]: the prototype of [state.dirty] is still
    [Object.prototype]. *)
Definition settled (ids0 del : list string) (st : State) : Prop :=
  dirtyProto st = None ∧ tracks ids0 del st ∧ keyed_by_id st
  ∧ ∀ p, p ∈ photos st → ∃ r, p = VRec r.

(** ** process-photos.js *)

Module Processor.

(** [slugify] works on the characters of the name; they are bytes here, and
    [toLowerCase] acts on the ASCII letters. *)
Definition lower (c : ascii) : ascii :=
  let n := nat_of_ascii c in
  if (65 <=? n)%nat && (n <=? 90)%nat then ascii_of_nat (n + 32) else c.

Definition is_alnum (c : ascii) : bool :=
  let n := nat_of_ascii c in
  ((97 <=? n)%nat && (n <=? 122)%nat) || ((48 <=? n)%nat && (n <=? 57)%nat).

Definition is_dot (c : ascii) : bool := bool_decide (c = "."%char).
Definition is_hyphen (c : ascii) : bool := bool_decide (c = "-"%char).

(** [.replace(/\.[^.]+$/, '')]: the match starts at the first dot that is
    followed, up to the end, by one or more characters other than a dot. *)
Fixpoint strip_ext (l : list ascii) : list ascii :=
  match l with
  | [] => []
  | c :: r =>
      if is_dot c && negb (bool_decide (r = [])) && forallb (λ d, negb (is_dot d)) r
      then []
      else c :: strip_ext r
  end.

(** [.replace(/[^a-z0-9]+/g, '-')]; [in_run] tells that the previous
    character already belongs to the run being replaced. *)
Fixpoint hyphenate (in_run : bool) (l : list ascii) : list ascii :=
  match l with
  | [] => []
  | c :: r =>
      if is_alnum c then c :: hyphenate false r
      else if in_run then hyphenate true r
      else "-"%char :: hyphenate true r
  end.

Fixpoint drop_hyphens (l : list ascii) : list ascii :=
  match l with
  | c :: r => if is_hyphen c then drop_hyphens r else l
  | [] => []
  end.

(** [.replace(/^-+|-+$/g, '')]. *)
Definition trim_hyphens (l : list ascii) : list ascii :=
  rev (drop_hyphens (rev (drop_hyphens l))).

Definition slugify (name : string) : string :=
  string_of_list_ascii
    (trim_hyphens (hyphenate false (strip_ext (map lower (list_ascii_of_string name))))).

(** [String(n).padStart(2, '0')]. *)
Definition padded (n : Z) : string :=
  let s := pretty n in
  if (String.length s <? 2)%nat then "0" +:+ s else s.

(** [formatDate(d)]: [d] is absent, or a [Date] given by its
    [getFullYear()], [getMonth()] and [getDate()]. *)
Definition formatDate (d : option (Z * Z * Z)) : string :=
  match d with
  | None => ""
  | Some (y, m, day) => pretty y +:+ "-" +:+ padded (m + 1) +:+ "-" +:+ padded day
  end.

Definition IMAGE_EXTS : list string :=
  [".jpg"; ".jpeg"; ".png"; ".tif"; ".tiff"; ".heic"; ".heif"; ".webp"].

(** The part of a name from its last dot on, if it has a dot. *)
Fixpoint last_ext (l : list ascii) : option (list ascii) :=
  match l with
  | [] => None
  | c :: r =>
      match last_ext r with
      | Some e => Some e
      | None => if is_dot c then Some l else None
      end
  end.

(** The filter of the directory scan:
    [IMAGE_EXTS.has(extname(f).toLowerCase()) && !f.startsWith('.')].
    For a name that does not start with a dot, [extname] is the part from
    the last dot on. *)
Definition is_image (f : string) : bool :=
  if String.prefix "." f then false
  else
    match last_ext (list_ascii_of_string f) with
    | Some e => bool_decide (string_of_list_ascii (map lower e) ∈ IMAGE_EXTS)
    | None => false
    end.

(** What sharp and exifr report on one original: the decoded size
    ([meta.width], [meta.height], possibly missing) and the EXIF fields the
    entry uses, empty when EXIF could not be read. *)
Record probe := mkProbe {
  meta_width : option Z;
  meta_height : option Z;
  exif_make : string;
  exif_model : string;
  exif_taken : option (Z * Z * Z);
}.

(** The imaging libraries and the file system: for a file name, the probe of
    the original, or [None] when thumbnail generation throws. *)
Definition imaging := string → option probe.

(** [[make, model].filter(Boolean).join(' ') || 'Hasselblad X2D II']. *)
Definition camera_of (make model : string) : string :=
  match make, model with
  | "", "" => "Hasselblad X2D II"
  | "", m => m
  | mk, "" => mk
  | mk, m => mk +:+ " " +:+ m
  end.

(** [x || 0] on a size. *)
Definition or_zero (x : option Z) : Z := default 0%Z x.

(** The stub entry built for a new file. *)
Definition entry (filename id : string) (pr : probe) : photo :=
  list_to_map
    [("id", JStr id);
     ("src", JStr ("photos/uploads/" +:+ filename));
     ("thumb", JStr ("photos/thumbs/" +:+ id +:+ ".jpg"));
     ("title", JStr "");
     ("description", JStr "");
     ("location", JStr "");
     ("date", JStr (formatDate (exif_taken pr)));
     ("category", JStr "Uncategorized");
     ("tags", JArr []);
     ("camera", JStr (camera_of (exif_make pr) (exif_model pr)));
     ("width", JNum (or_zero (meta_width pr)));
     ("height", JNum (or_zero (meta_height pr)));
     ("featured", JBool false)].

(** The variables the main loop updates.  [knownIds] is queried with slugs
    only, which are strings, so the set holds the string ids. *)
Record loop_state := mkLoop {
  knownIds : gset string;
  newEntries : list photo;
  processed : nat;
  skipped : nat;
}.

(** One iteration of [for (const filename of files)]. *)
Definition process_file (img : imaging) (filename : string) (ls : loop_state)
    : loop_state :=
  let id := slugify filename in
  if bool_decide (id ∈ knownIds ls) then
    mkLoop (knownIds ls) (newEntries ls) (processed ls) (S (skipped ls))
  else
    match img filename with
    | None => ls
    | Some pr =>
        mkLoop ({[id]} ∪ knownIds ls) (newEntries ls ++ [entry filename id pr])
          (S (processed ls)) (skipped ls)
    end.

Definition process_files (img : imaging) (files : list string) (ls : loop_state)
    : loop_state :=
  foldl (λ ls f, process_file img f ls) ls files.

(** [photos.json] as the script finds it, as far as the script tells cases
    apart:
    - [Document (Some l)]: the text parses to an object whose [photos] is
      the array [l], an array of photo objects;
    - [Document None]: there is no file, or the [try] block throws (the text
      does not parse; or it parses to [null], whose [photos] cannot be read;
      or to a number, a string or a boolean, on which the assignment of
      [photos] throws in a module), or the text parses to an object whose
      [photos] is not an array;
    - [TopArray items]: the text parses to an array, whose elements the
      script never reads. *)
Inductive manifest_file :=
| Document (photos : option (list photo))
| TopArray (items : list photo).

(** [photosData.photos] after the loading block: on a top-level array,
    [photosData.photos = []] sets a property of that array. *)
Definition loaded_photos (file : manifest_file) : list photo :=
  match file with
  | Document (Some l) => l
  | Document None | TopArray _ => []
  end.

(** A whole run on the listing of [photos/uploads]: the entries appended to
    [newEntries]. *)
Definition run_entries (img : imaging) (listing : list string)
    (file : manifest_file) : list photo :=
  let known := list_to_set (string_ids (loaded_photos file)) in
  newEntries (process_files img (filter is_image listing) (mkLoop known [] 0 0)).

(** What [writeFileSync] is given, as parsed back, if the file is written:
    [JSON.stringify(photosData)] prints an object with its [photos]; of an
    array it prints the elements, and not the [photos] property set on
    it. *)
Definition written (img : imaging) (listing : list string)
    (file : manifest_file) : option manifest_file :=
  match run_entries img listing file with
  | [] => None
  | new =>
      Some (match file with
            | Document _ => Document (Some (loaded_photos file ++ new))
            | TopArray items => TopArray items
            end)
  end.

(** [photos.json] after the run. *)
Definition disk_after (img : imaging) (listing : list string)
    (file : manifest_file) : manifest_file :=
  match written img listing file with
  | Some f => f
  | None => file
  end.

End Processor.


(** ** The outcomes of a publish attempt *)

(** [publish_run server w t w']: started in world [w], [publishToGitHub]
    shows toast [t] and leaves world [w']; one rule per way through the
    function. *)
Inductive publish_run (server : remote) (w : world) : toast → world → Prop :=
| PR_nothing :
    pendingChangeCount (store w) = 0 →
    publish_run server w nothing_to_publish w
| PR_deletion_aborts msg evs :
    0 < pendingChangeCount (store w) →
    runs (for_each (pendingDeletes (store w)) (delete_files server))
      (timeline w) (Throw msg) evs →
    publish_run server w (publish_failed msg)
      (mkWorld (store w) (timeline w ++ evs))
| PR_reread_fails evs :
    0 < pendingChangeCount (store w) →
    runs (for_each (pendingDeletes (store w)) (delete_files server))
      (timeline w) (Ret tt) evs →
    failed (reread_response server (timeline w ++ evs)) →
    publish_run server w
      (publish_failed (error_message (reread_response server (timeline w ++ evs))))
      (mkWorld (store w) (timeline w ++ evs ++ reread_events))
| PR_write_fails evs doc s :
    0 < pendingChangeCount (store w) →
    runs (for_each (pendingDeletes (store w)) (delete_files server))
      (timeline w) (Ret tt) evs →
    reread_response server (timeline w ++ evs) = OkJson doc s →
    failed (write_response server (timeline w ++ evs) (json_of (merged (store w))) s) →
    publish_run server w
      (publish_failed
         (error_message
            (write_response server (timeline w ++ evs) (json_of (merged (store w))) s)))
      (mkWorld (store w)
         (timeline w ++ evs ++ reread_events
            ++ write_events (json_of (merged (store w))) s))
| PR_published evs doc s doc' s' :
    0 < pendingChangeCount (store w) →
    runs (for_each (pendingDeletes (store w)) (delete_files server))
      (timeline w) (Ret tt) evs →
    reread_response server (timeline w ++ evs) = OkJson doc s →
    write_response server (timeline w ++ evs) (json_of (merged (store w))) s
      = OkJson doc' s' →
    publish_run server w published
      (mkWorld (committed (merged (store w)) s' (store w))
         (timeline w ++ evs ++ reread_events
            ++ write_events (json_of (merged (store w))) s)).

(** ** Sample sessions *)

Module Scenario.

Definition a_old : photo :=
  {[ "id" := JStr "a"; "title" := JStr "Old";
     "src" := JStr "photos/uploads/a.jpg";
     "thumb" := JStr "https://cdn.example.org/a.jpg" ]}.

Definition b : photo :=
  {[ "id" := JStr "b"; "title" := JStr "B";
     "src" := JStr "photos/uploads/b.jpg";
     "thumb" := JStr "photos/thumbs/b.jpg" ]}.

(** A photo whose file name, [constructor.jpg], gives the slug
    [constructor]. *)
Definition ctor : photo :=
  {[ "id" := JStr "constructor"; "title" := JStr "Gate";
     "src" := JStr "photos/uploads/constructor.jpg";
     "thumb" := JStr "photos/thumbs/constructor.jpg" ]}.

Definition retitle : photo := {[ "title" := JStr "New" ]}.
Definition a_new : photo := spread a_old retitle.

Definition loaded : State := load [a_old; b] "v1" initial_state.
Definition edited : State := stageEdit "a" retitle loaded.
Definition deleted : State := markForDelete "a" true loaded.
Definition edited_then_deleted : State := markForDelete "a" true edited.
Definition both_deleted : State := markForDelete "b" true deleted.


(** A manifest with [constructor] and [b]; [b] is retitled. *)
Definition loaded_ctor : State := load [ctor; b] "v1" initial_state.
Definition ctor_b_edited : State := stageEdit "b" retitle loaded_ctor.
Definition ctor_edited : State := stageEdit "constructor" retitle loaded_ctor.

(** A store that accepts a write made under SHA [v1]. *)
Definition steady : remote := λ _ r,
  match r with
  | ReqGet "photos.json" => OkJson [a_old; b] "v1"
  | ReqGet _ => OkJson [] "f1"
  | ReqPut _ _ (Some "v1") _ => OkJson [] "v2"
  | ReqPut _ _ _ _ => NotOk "photos.json does not match"
  | ReqDelete _ _ _ => OkJson [] ""
  end.

(** A store on which somebody else writes between the re-read and the
    write. *)
Definition contended : remote := λ _ r,
  match r with
  | ReqGet "photos.json" => OkJson [a_old; b] "v2"
  | ReqGet _ => OkJson [] "f1"
  | ReqPut _ _ _ _ => NotOk "photos.json does not match"
  | ReqDelete _ _ _ => OkJson [] ""
  end.

(** A network that drops DELETE requests. *)
Definition drops_delete : remote := λ _ r,
  match r with
  | ReqDelete _ _ _ => FetchReject "Failed to fetch"
  | other => steady [] other
  end.

End Scenario.

(** ** The edit panel's handlers (admin.js) *)

(** Text is handled as the bytes of a [string].  The whitespace that
    [trim()] and [\s] recognise is, on bytes, the ASCII whitespace: tab, line
    feed, vertical tab, form feed, carriage return and space. *)
Definition is_space (c : ascii) : bool :=
  let n := nat_of_ascii c in
  ((9 <=? n)%nat && (n <=? 13)%nat) || (n =? 32)%nat.

Fixpoint drop_spaces (l : list ascii) : list ascii :=
  match l with
  | c :: r => if is_space c then drop_spaces r else l
  | [] => []
  end.

(** [.trim()]. *)
Definition trim_chars (l : list ascii) : list ascii :=
  rev (drop_spaces (rev (drop_spaces l))).

Definition trim (s : string) : string :=
  string_of_list_ascii (trim_chars (list_ascii_of_string s)).

(** [.replace(/\s+/g, '-')]; [in_run] tells that the previous character
    already belongs to the run being replaced. *)
Fixpoint collapse_spaces (in_run : bool) (l : list ascii) : list ascii :=
  match l with
  | [] => []
  | c :: r =>
      if is_space c then
        if in_run then collapse_spaces true r
        else "-"%char :: collapse_spaces true r
      else c :: collapse_spaces false r
  end.

(** [raw.trim().toLowerCase().replace(/\s+/g, '-')]. *)
Definition normalize_chars (l : list ascii) : list ascii :=
  collapse_spaces false (map Processor.lower (trim_chars l)).

Definition normalize_tag (raw : string) : string :=
  string_of_list_ascii (normalize_chars (list_ascii_of_string raw)).

(** [[...new Set(l)]]: the elements of [l] in order of first occurrence;
    [seen] holds the elements already in the set. *)
Fixpoint set_order (seen l : list string) : list string :=
  match l with
  | [] => []
  | x :: r =>
      if bool_decide (x ∈ seen) then set_order seen r
      else x :: set_order (x :: seen) r
  end.

(** Whether a field value is falsy. *)
Definition falsy (v : option jsval) : bool :=
  match v with
  | None | Some JNull | Some (JBool false) | Some (JNum 0) | Some (JStr "") => true
  | Some _ => false
  end.

(** [[...(photo.tags || [])]]: an array gives its elements, a falsy value
    nothing, a string its characters; any other value is not iterable. *)
Definition spread_tags (v : option jsval) : outcome (list string) :=
  if falsy v then Ret []
  else
    match v with
    | Some (JArr l) => Ret l
    | Some (JStr s) => Ret (map (λ c, String c "") (list_ascii_of_string s))
    | _ => Throw "photo.tags is not iterable"
    end.

(** The receiver of [(photo.tags || []).filter]: an array, or the empty
    array for a falsy value; any other value has no [filter] method. *)
Definition tags_array (v : option jsval) : outcome (list string) :=
  if falsy v then Ret []
  else
    match v with
    | Some (JArr l) => Ret l
    | _ => Throw "(photo.tags || []).filter is not a function"
    end.

(** [getPhoto(state.selected)] followed by a property read: reading a
    property of [null] throws; [tags] read on a value that is no photo
    object is [undefined]. *)
Definition selected_photo (st : State) : outcome value :=
  match getPhoto (selected st) st with
  | Some p => Ret p
  | None => Throw "Cannot read properties of null (reading 'tags')"
  end.

(** [addTag(raw)], the state part. *)
Definition addTag (raw : string) (st : State) : outcome State :=
  let tag := normalize_tag raw in
  if bool_decide (tag = "") then Ret st
  else
    match selected_photo st with
    | Throw msg => Throw msg
    | Ret ph =>
        match spread_tags (ph !! "tags") with
        | Throw msg => Throw msg
        | Ret old =>
            let tags := set_order [] (old ++ [tag]) in
            Ret (applyDraft {[ "tags" := JArr tags ]} st)
        end
    end.

(** [removeTag(tag)], the state part. *)
Definition removeTag (tag : string) (st : State) : outcome State :=
  match selected_photo st with
  | Throw msg => Throw msg
  | Ret ph =>
      match tags_array (ph !! "tags") with
      | Throw msg => Throw msg
      | Ret old =>
          let tags := filter (λ t, t ≠ tag) old in
          Ret (applyDraft {[ "tags" := JArr tags ]} st)
      end
  end.

(** The tags of a photo as the panel lists them: [(photo.tags || [])] when
    it is an array. *)
Definition tags_of (p : photo) : list string :=
  match p !! "tags" with
  | Some (JArr l) => l
  | _ => []
  end.

(** ** [esc] *)

(** [.replace(/c/g, by)] for a one-character pattern. *)
Fixpoint replace_char (c : ascii) (by_ : string) (s : string) : string :=
  match s with
  | EmptyString => EmptyString
  | String a t =>
      if bool_decide (a = c) then by_ +:+ replace_char c by_ t
      else String a (replace_char c by_ t)
  end.

(** The double quote character, code 34. *)
Definition dquote : ascii := Ascii false true false false false true false false.

(** [esc(str)] on a string. *)
Definition esc (s : string) : string :=
  replace_char dquote "&quot;"
    (replace_char ">"%char "&gt;"
       (replace_char "<"%char "&lt;"
          (replace_char "&"%char "&amp;" s))).

(** ** [updatePublishBtn] *)

(** What [updatePublishBtn] sets on the badge and on the button. *)
Record publish_controls := mkControls {
  badge_text : string;
  badge_display : string;
  btn_disabled : bool;
}.

Definition updatePublishBtn (st : State) : publish_controls :=
  let count := size (dirty st) + length (pendingDeletes st) in
  mkControls
    (if bool_decide (0 < count) then pretty count +:+ " unsaved" else "")
    (if bool_decide (0 < count) then "" else "none")
    (bool_decide (count = 0)).

(** What [esc] makes of one character, and of a string read once from left
    to right; [esc] is shown to equal the latter. *)
Definition esc_char (c : ascii) : string :=
  if bool_decide (c = "&"%char) then "&amp;"
  else if bool_decide (c = "<"%char) then "&lt;"
  else if bool_decide (c = ">"%char) then "&gt;"
  else if bool_decide (c = dquote) then "&quot;"
  else String c "".

Fixpoint esc_chars (s : string) : string :=
  match s with
  | EmptyString => EmptyString
  | String a t => esc_char a +:+ esc_chars t
  end.

(** ** More sample sessions *)

Module Samples.

(** A store on which the files of the photos are already gone and DELETE
    requests are refused. *)
Definition files_gone : remote := λ _ r,
  match r with
  | ReqGet "photos.json" => OkJson [Scenario.a_old; Scenario.b] "v1"
  | ReqGet _ => NotOk "Not Found"
  | ReqPut _ _ _ _ => OkJson [] "v2"
  | ReqDelete _ _ _ => NotOk "Conflict"
  end.

(** [b] is deleted and the write of the first attempt is refused. *)
Definition b_deleted : State := markForDelete "b" true Scenario.loaded.

(** An entry as the batch processor writes it, then deleted in the admin
    console. *)
Definition shot : photo :=
  Processor.entry "Sea View.JPG" "sea-view"
    (Processor.mkProbe (Some 6000%Z) (Some 4000%Z) "" "" None).

Definition shot_deleted : State :=
  markForDelete "sea-view" true (load [shot] "v1" initial_state).

End Samples.

(** ** The settings form (admin.js, [showSettingsPanel] and [saveSettings]) *)

Definition newline : ascii := "010"%char.

(** [.split('\n')] on the characters of a string: the pieces between the
    line feeds, at least one. *)
Fixpoint split_lines (l : list ascii) : list (list ascii) :=
  match l with
  | [] => [[]]
  | c :: r =>
      if bool_decide (c = newline) then [] :: split_lines r
      else
        match split_lines r with
        | h :: t => (c :: h) :: t
        | [] => [[c]]
        end
  end.

(** [.join('\n')]. *)
Fixpoint join_lines (l : list (list ascii)) : list ascii :=
  match l with
  | [] => []
  | [x] => x
  | x :: r => x ++ newline :: join_lines r
  end.

(** [taglineRaw.split('\n').map(s => s.trim()).filter(Boolean)]. *)
Definition tagline_chars (raw : list ascii) : list (list ascii) :=
  filter (λ s, s ≠ []) (map trim_chars (split_lines raw)).

Definition heroTagline_of (raw : string) : list string :=
  map string_of_list_ascii (tagline_chars (list_ascii_of_string raw)).

(** The text [showSettingsPanel] puts in the tagline box:
    [(cfg.heroTagline || []).join('\n')]. *)
Definition tagline_text (lines : list string) : string :=
  string_of_list_ascii (join_lines (map list_ascii_of_string lines)).

(** [x.trim() || fallback]. *)
Definition trimmed_or (fallback : string) (x : string) : string :=
  if bool_decide (trim x = "") then fallback else trim x.

(** The values [saveSettings] reads from the settings form. *)
Record settings_form := mkSettingsForm {
  cfg_sitename : string;
  cfg_eyebrow : string;
  cfg_tagline : string;
  cfg_show_tagline : bool;
  cfg_show_scroll : bool;
}.

Record site_config := mkSiteConfig {
  siteName : string;
  heroEyebrow : string;
  heroTagline : list string;
  showHeroTagline : bool;
  showScrollIndicator : bool;
}.

(** The object [newConfig] of [saveSettings]. *)
Definition newConfig (f : settings_form) : site_config :=
  mkSiteConfig
    (trimmed_or "LEHTORE" (cfg_sitename f))
    (trimmed_or "Photography" (cfg_eyebrow f))
    (heroTagline_of (cfg_tagline f))
    (cfg_show_tagline f)
    (cfg_show_scroll f).

(** ** The binary string of an upload (admin.js, [ghUploadBinary]) *)

Definition chunk : nat := N.to_nat 8192.

(** The loop [for (let i = 0; i < bytes.length; i += chunk)] that appends
    [String.fromCharCode(...bytes.subarray(i, i + chunk))] to [binary].  A
    byte and the character of that code are the same [ascii] here.  [fuel]
    bounds the number of turns; [bytes.length] turns are enough, as [i]
    grows by [chunk] at each. *)
Fixpoint binary_loop (fuel i : nat) (bytes binary : list ascii) : list ascii :=
  match fuel with
  | 0 => binary
  | S fuel' =>
      if (i <? length bytes)%nat then
        binary_loop fuel' (i + chunk) bytes (binary ++ take chunk (drop i bytes))
      else binary
  end.

Definition binary_of (bytes : list ascii) : list ascii :=
  binary_loop (length bytes) 0 bytes [].

(** ** The lightbox of the gallery page *)

Module Gallery.

(** [state.lb] and [state.filtered] of the gallery script. *)
Record lightbox := mkLightbox {
  lb_open : bool;
  lb_index : Z;
}.

(** [navigate(dir)], the state part. *)
Definition navigate (dir : Z) (filtered : list photo) (lb : lightbox) : lightbox :=
  let next := (lb_index lb + dir)%Z in
  if ((next <? 0) || (Z.of_nat (length filtered) <=? next))%Z then lb
  else mkLightbox (lb_open lb) next.

(** [state.filtered.findIndex(p => p.id === hash)]: [None] stands for -1. *)
Fixpoint findIndex (hash : string) (l : list photo) : option nat :=
  match l with
  | [] => None
  | p :: r => if id_is (Some hash) p then Some 0 else S <$> findIndex hash r
  end.

(** [handleHashOpen()], the state part; [location_hash] is [location.hash],
    with its leading ["#"] when it is not empty. *)
Definition handleHashOpen (location_hash : string) (filtered : list photo)
    (lb : lightbox) : lightbox :=
  let hash := match location_hash with String _ t => t | EmptyString => "" end in
  if bool_decide (hash = "") then lb
  else
    match findIndex hash filtered with
    | Some idx => mkLightbox true (Z.of_nat idx)
    | None => lb
    end.

End Gallery.

(** * Sample evaluations *)

Example to_key_undefined : to_key None = "undefined".
Proof. reflexivity. Qed.

Example to_key_number : to_key (Some (JNum 42)) = "42".
Proof. reflexivity. Qed.

Example to_key_tags : to_key (Some (JArr ["sea"; "long-exposure"])) = "sea,long-exposure".
Proof. reflexivity. Qed.

Example isLocal_upload : isLocal (Some (JStr "photos/uploads/a.jpg")) = Ret true.
Proof. reflexivity. Qed.

Example isLocal_url : isLocal (Some (JStr "https://cdn.example.org/a.jpg")) = Ret false.
Proof. reflexivity. Qed.

Example isLocal_empty : isLocal (Some (JStr "")) = Ret false.
Proof. reflexivity. Qed.

Example isLocal_missing : isLocal None = Ret false.
Proof. reflexivity. Qed.

Example isLocal_number :
  isLocal (Some (JNum 7)) = Throw "p.startsWith is not a function".
Proof. reflexivity. Qed.

Example getPhoto_prefers_overlay :
  getPhoto (Some "a") Scenario.edited = Some (VRec Scenario.a_new)
  ∧ find_photo (Some "a") Scenario.edited = Some (VRec Scenario.a_old).
Proof. split; reflexivity. Qed.

Example revert_restores_baseline :
  getPhoto (Some "a") (revert "a" Scenario.edited) = Some (VRec Scenario.a_old).
Proof. reflexivity. Qed.

(** Lookups in [state.dirty] that end in its prototype. *)
Example dirty_get_constructor :
  dirty_get "constructor" Scenario.loaded = Some (VFun "constructor")
  ∧ dirty_get "__proto__" Scenario.loaded = Some VObjectPrototype
  ∧ dirty_get "a" Scenario.loaded = None.
Proof. split_and!; reflexivity. Qed.

(** An edit staged while [__proto__] is selected replaces the prototype of
    [state.dirty]: no own property appears, and the fields of the staged
    object are found under their names. *)
Example dirty_set_proto :
  let st := stageEdit "__proto__" Scenario.retitle Scenario.loaded in
  dirty st = ∅
  ∧ dirtyProto st = Some Scenario.retitle
  ∧ dirty_get "title" st = Some (VStr "New")
  ∧ dirty_get "__proto__" st = Some (VRec Scenario.retitle)
  ∧ pendingChangeCount st = 0.
Proof. split_and!; reflexivity. Qed.

Example props_string :
  props (VStr "ab") = {[ "0" := JStr "a"; "1" := JStr "b" ]}.
Proof. reflexivity. Qed.

Example slugify_spaces : Processor.slugify "IMG 0001 (Final).JPG" = "img-0001-final".
Proof. reflexivity. Qed.

Example slugify_dots : Processor.slugify "a.b.c.jpeg" = "a-b-c".
Proof. reflexivity. Qed.

Example slugify_trailing_dot : Processor.slugify "a." = "a".
Proof. reflexivity. Qed.

Example slugify_hyphens : Processor.slugify "--x__y--.png" = "x-y".
Proof. reflexivity. Qed.

Example is_image_upper : Processor.is_image "Sea View.JPG" = true.
Proof. reflexivity. Qed.

Example is_image_hidden : Processor.is_image ".hidden.jpg" = false.
Proof. reflexivity. Qed.

Example is_image_text : Processor.is_image "notes.txt" = false.
Proof. reflexivity. Qed.

Example formatDate_pads :
  Processor.formatDate (Some (2024, 0, 5)%Z) = "2024-01-05".
Proof. reflexivity. Qed.

Example camera_default : Processor.camera_of "" "" = "Hasselblad X2D II".
Proof. reflexivity. Qed.

(** The publish of the retitled [a] when nobody else wrote: the scenario of
    the specification. *)
Example publish_retitled_a :
  publish Scenario.steady Scenario.edited =
    (Ret published,
     mkWorld (mkState [VRec Scenario.a_new; VRec Scenario.b] ∅ None []
                (Some "v2") (Some "a"))
       [CallGetFile "photos.json"; Fetch (ReqGet "photos.json");
        CallPutFile "photos.json" [JObject Scenario.a_new; JObject Scenario.b] "v1";
        Fetch (ReqPut "photos.json" [JObject Scenario.a_new; JObject Scenario.b]
                 (Some "v1") "Update photo metadata via admin panel")]).
Proof. reflexivity. Qed.

(** The same publish when the write is refused: the overlay keeps the new
    title. *)
Example publish_conflict_keeps_overlay :
  (publish Scenario.contended Scenario.edited).1
    = Ret (publish_failed "GitHub: photos.json does not match")
  ∧ dirty (store (publish Scenario.contended Scenario.edited).2) !! "a"
    = Some Scenario.a_new.
Proof. split; reflexivity. Qed.

(** A pending deletion with a local [src] and an external [thumb], on a
    network that answers: one call of [ghDeleteFile], for [src], before the
    re-read and the write. *)
Example publish_deletes_local_src_only :
  publish Scenario.steady Scenario.deleted =
    (Ret published,
     mkWorld (mkState [VRec Scenario.b] ∅ None [] (Some "v2") None)
       ([CallDeleteFile "photos/uploads/a.jpg";
         Fetch (ReqGet "photos/uploads/a.jpg");
         Fetch (ReqDelete "photos/uploads/a.jpg" "f1" "Remove a upload")]
        ++ reread_events ++ write_events [JObject Scenario.b] "v1"))
  ∧ calls_deleted (timeline (publish Scenario.steady Scenario.deleted).2)
    = ["photos/uploads/a.jpg"].
Proof. split; reflexivity. Qed.

(** * Facts about the monad and the helpers *)

Lemma runs_ret {A} (a : A) tl : runs (mret a) tl (Ret a) [].
Proof. intros st. unfold mret, M_ret, ret. by rewrite app_nil_r. Qed.

Lemma runs_bind_ret {A B} (m : M A) (k : A → M B) tl a e1 o e2 :
  runs m tl (Ret a) e1 →
  runs (k a) (tl ++ e1) o e2 →
  runs (m ≫= k) tl o (e1 ++ e2).
Proof.
  intros H1 H2 st. unfold mbind, M_bind, bind. rewrite H1, H2.
  by rewrite app_assoc.
Qed.

Lemma runs_bind_throw {A B} (m : M A) (k : A → M B) tl msg e1 :
  runs m tl (Throw msg) e1 → runs (m ≫= k) tl (Throw msg) e1.
Proof. intros H st. unfold mbind, M_bind, bind. by rewrite H. Qed.

Lemma runs_det {A} (m : M A) tl o1 o2 e1 e2 :
  runs m tl o1 e1 → runs m tl o2 e2 → o1 = o2 ∧ e1 = e2.
Proof.
  intros H1 H2. specialize (H1 initial_state). rewrite (H2 initial_state) in H1.
  inversion H1 as [[Ho He]]. split; [done|]. by apply app_inv_head in He.
Qed.

Lemma bind_assoc_run {A B C} (m : M A) (k : A → M B) (k' : B → M C) w :
  (m ≫= (λ x, k x ≫= k')) w = ((m ≫= k) ≫= k') w.
Proof.
  unfold mbind, M_bind, bind. destruct (m w) as [[a|msg] w1]; [|done].
  by destruct (k a w1) as [[b|msg] w2].
Qed.

Lemma runs_assoc {A B C} (m : M A) (k : A → M B) (k' : B → M C) tl o evs :
  runs ((m ≫= k) ≫= k') tl o evs → runs (m ≫= (λ x, k x ≫= k')) tl o evs.
Proof. intros H st. by rewrite bind_assoc_run. Qed.

Lemma lift_runs {A} (o : outcome A) tl : runs (lift o) tl o [].
Proof. intros st. unfold lift. by rewrite app_nil_r. Qed.

Lemma calls_deleted_quiet evs : Forall quiet evs → calls_deleted evs = [].
Proof.
  induction 1 as [|e evs He _ IH]; [done|].
  by destruct e as [| | |[]].
Qed.

Lemma calls_deleted_app l1 l2 :
  calls_deleted (l1 ++ l2) = calls_deleted l1 ++ calls_deleted l2.
Proof. apply omap_app. Qed.

Section PublishFacts.
Variable server : remote.

Lemma ghDeleteFile_runs path message tl :
  ∃ o evs, runs (ghDeleteFile server path message) tl o (CallDeleteFile path :: evs)
    ∧ Forall quiet evs
    ∧ (o = Ret tt ∨ ∃ msg, o = Throw msg ∧ delete_rejected server msg).
Proof.
  unfold runs, ghDeleteFile, log, try_catch, fetch, mbind, M_bind, bind, ret, throw.
  cbn [store timeline].
  destruct (server (tl ++ [CallDeleteFile path]) (ReqGet path)) as [m|m|m|doc s] eqn:E1;
    cbn [store timeline].
  1-3: (exists (Ret tt), [Fetch (ReqGet path)];
        split_and!; [intros st; by rewrite <- ?app_assoc|by repeat constructor|by left]).
  destruct (server ((tl ++ [CallDeleteFile path]) ++ [Fetch (ReqGet path)])
              (ReqDelete path s message)) as [m| | |] eqn:E2.
  2-4: (exists (Ret tt), [Fetch (ReqGet path); Fetch (ReqDelete path s message)];
        split_and!; [intros st; by rewrite <- !app_assoc|by repeat constructor|by left]).
  exists (Throw m), [Fetch (ReqGet path); Fetch (ReqDelete path s message)].
  split_and!; [intros st; by rewrite <- !app_assoc|by repeat constructor|].
  right. exists m. split; [done|]. by eexists _, _, _, _.
Qed.

(** What one call site [if (isLocal(v)) await ghDeleteFile(v, message)] does. *)
Lemma delete_if_local_runs v message tl :
  ∃ o evs,
    runs (l ← lift (isLocal v); when_ l (ghDeleteFile server (to_key v) message)) tl o evs
    ∧ Forall deletion_event evs
    ∧ calls_deleted evs = (if is_local v then [to_key v] else [])
    ∧ (∀ msg, o = Throw msg → delete_rejected server msg ∨ isLocal v = Throw msg).
Proof.
  unfold is_local. destruct (isLocal v) as [[]|m] eqn:E.
  - destruct (ghDeleteFile_runs (to_key v) message (tl ++ []))
      as (o & evs & Hr & Hq & Ho).
    exists o, ([] ++ CallDeleteFile (to_key v) :: evs). split_and!.
    + eapply runs_bind_ret; [apply lift_runs|]. exact Hr.
    + simpl. constructor; [done|]. eapply Forall_impl; [exact Hq|].
      by intros [| | |[]].
    + simpl. unfold calls_deleted. simpl. fold (calls_deleted evs).
      by rewrite calls_deleted_quiet.
    + intros msg ->. destruct Ho as [?|(m & [= ->] & ?)]; [done|by left].
  - exists (Ret tt), ([] ++ []). split_and!; [|done|done|done].
    eapply runs_bind_ret; [apply lift_runs|]. apply runs_ret.
  - exists (Throw m), []. split_and!; [|done|done|].
    + apply runs_bind_throw, lift_runs.
    + intros msg [= ->]. by right.
Qed.

Lemma delete_files_runs ph tl :
  ∃ o evs, runs (delete_files server ph) tl o evs
    ∧ Forall deletion_event evs
    ∧ calls_deleted evs `prefix_of` local_paths ph
    ∧ (o = Ret tt → calls_deleted evs = local_paths ph)
    ∧ (∀ msg, o = Throw msg →
         delete_rejected server msg ∨ isLocal (ph !! "src") = Throw msg
         ∨ isLocal (ph !! "thumb") = Throw msg).
Proof.
  unfold delete_files, local_paths.
  destruct (delete_if_local_runs (ph !! "src")
              ("Remove " +:+ to_key (photo_id ph) +:+ " upload") tl)
    as (o1 & e1 & Hr1 & Hd1 & Hc1 & Ho1).
  destruct o1 as [[]|m].
  - destruct (delete_if_local_runs (ph !! "thumb")
                ("Remove " +:+ to_key (photo_id ph) +:+ " thumbnail") (tl ++ e1))
      as (o2 & e2 & Hr2 & Hd2 & Hc2 & Ho2).
    exists o2, (e1 ++ e2). split_and!.
    + apply runs_assoc. eapply runs_bind_ret; [exact Hr1|exact Hr2].
    + by apply Forall_app.
    + rewrite calls_deleted_app, Hc1, Hc2. done.
    + intros _. by rewrite calls_deleted_app, Hc1, Hc2.
    + intros msg Hm. destruct (Ho2 msg Hm); auto.
  - exists (Throw m), e1. split_and!; [|done| |done|].
    + apply runs_assoc. by apply runs_bind_throw.
    + rewrite Hc1. by apply prefix_app_r.
    + intros msg Hm. destruct (Ho1 msg Hm); auto.
Qed.

Lemma deletion_phase_runs (l : list value) tl :
  ∃ o evs, runs (for_each l (delete_files server)) tl o evs
    ∧ Forall deletion_event evs
    ∧ calls_deleted evs `prefix_of` flat_map local_paths l
    ∧ (o = Ret tt → calls_deleted evs = flat_map local_paths l)
    ∧ (∀ msg, o = Throw msg →
         delete_rejected server msg
         ∨ ∃ ph, ph ∈ l ∧ (isLocal (ph !! "src") = Throw msg
                           ∨ isLocal (ph !! "thumb") = Throw msg)).
Proof.
  revert tl. induction l as [|ph l IH]; intros tl.
  - exists (Ret tt), []. split_and!; [apply runs_ret|done..].
  - destruct (delete_files_runs ph tl) as (o1 & e1 & Hr1 & Hd1 & Hp1 & Hc1 & Ho1).
    destruct o1 as [[]|m].
    + destruct (IH (tl ++ e1)) as (o2 & e2 & Hr2 & Hd2 & Hp2 & Hc2 & Ho2).
      exists o2, (e1 ++ e2). split_and!.
      * simpl. eapply runs_bind_ret; [exact Hr1|exact Hr2].
      * by apply Forall_app.
      * rewrite calls_deleted_app, Hc1 by done. simpl. by apply prefix_app.
      * intros Ho. rewrite calls_deleted_app, Hc1, Hc2 by done. done.
      * intros msg Hm. destruct (Ho2 msg Hm) as [?|(ph' & ? & ?)]; [by left|].
        right. exists ph'. split; [by right|done].
    + exists (Throw m), e1. split_and!; [|done| |done|].
      * simpl. by apply runs_bind_throw.
      * simpl. by apply prefix_app_r.
      * intros msg Hm. destruct (Ho1 msg Hm) as [?|?]; [by left|].
        right. exists ph. split; [by left|done].
Qed.

Lemma write_manifest_reread_fails w :
  failed (reread_response server (timeline w)) →
  write_manifest server w =
    (Throw (error_message (reread_response server (timeline w))),
     mkWorld (store w) (timeline w ++ reread_events)).
Proof.
  destruct w as [st tl].
  unfold reread_response, write_manifest, ghGetFile, ghPutFile, get_state, modify,
    log, fetch, mbind, M_bind, bind, ret, throw, reread_events.
  cbn [store timeline]. intros Hf.
  destruct (server (tl ++ [CallGetFile "photos.json"]) (ReqGet "photos.json"));
    cbn [store timeline error_message]; rewrite <- ?app_assoc; done.
Qed.

Lemma write_manifest_write_fails w doc s :
  reread_response server (timeline w) = OkJson doc s →
  failed (write_response server (timeline w) (json_of (merged (store w))) s) →
  write_manifest server w =
    (Throw (error_message (write_response server (timeline w) (json_of (merged (store w))) s)),
     mkWorld (store w) (timeline w ++ reread_events ++ write_events (json_of (merged (store w))) s)).
Proof.
  destruct w as [st tl].
  unfold reread_response, write_response, write_manifest, ghGetFile, ghPutFile,
    get_state, modify, log, fetch, mbind, M_bind, bind, ret, throw, reread_events,
    write_events, update_message.
  cbn [store timeline]. intros -> Hf. cbn [store timeline snd].
  rewrite <- !app_assoc in *. simpl in *.
  destruct (server _ (ReqPut _ _ _ _)); cbn [store timeline error_message];
    rewrite <- ?app_assoc; done.
Qed.

Lemma write_manifest_succeeds w doc s doc' s' :
  reread_response server (timeline w) = OkJson doc s →
  write_response server (timeline w) (json_of (merged (store w))) s = OkJson doc' s' →
  write_manifest server w =
    (Ret tt,
     mkWorld (committed (merged (store w)) s' (store w))
       (timeline w ++ reread_events ++ write_events (json_of (merged (store w))) s)).
Proof.
  destruct w as [st tl].
  unfold reread_response, write_response, write_manifest, ghGetFile, ghPutFile,
    get_state, modify, log, fetch, mbind, M_bind, bind, ret, throw, reread_events,
    write_events, update_message.
  cbn [store timeline]. intros -> Hw. cbn [store timeline snd].
  rewrite <- !app_assoc in *. simpl in *. rewrite Hw.
  cbn [store timeline]. rewrite <- ?app_assoc. done.
Qed.

Lemma has_changes_true st :
  0 < pendingChangeCount st →
  negb (bool_decide (0 < size (dirty st)))
    && negb (bool_decide (0 < length (pendingDeletes st))) = false
  ∧ bool_decide (0 < size (dirty st))
    || bool_decide (0 < length (pendingDeletes st)) = true.
Proof.
  unfold pendingChangeCount. intros H.
  destruct (decide (0 < size (dirty st))) as [Hd|Hd].
  - rewrite (bool_decide_eq_true_2 _ Hd). done.
  - rewrite (bool_decide_eq_false_2 _ Hd).
    assert (0 < length (pendingDeletes st)) as Hp by lia.
    rewrite (bool_decide_eq_true_2 _ Hp). done.
Qed.

Lemma publish_nothing w :
  pendingChangeCount (store w) = 0 →
  publishToGitHub server w = (Ret nothing_to_publish, w).
Proof.
  unfold pendingChangeCount. intros H.
  unfold publishToGitHub, get_state, mbind, M_bind, bind.
  rewrite !bool_decide_eq_false_2 by lia. done.
Qed.

Lemma publish_deletion_throws w msg evs :
  0 < pendingChangeCount (store w) →
  runs (for_each (pendingDeletes (store w)) (delete_files server)) (timeline w)
    (Throw msg) evs →
  publishToGitHub server w =
    (Ret (publish_failed msg), mkWorld (store w) (timeline w ++ evs)).
Proof.
  intros [Hn Hy]%has_changes_true Hd. destruct w as [st tl].
  unfold publishToGitHub, get_state, try_catch, mbind, M_bind, bind.
  cbn [store timeline] in *.
  rewrite Hn. unfold mbind, M_bind, bind in Hd |- *. by rewrite Hd.
Qed.

Lemma publish_reaches_write w evs :
  0 < pendingChangeCount (store w) →
  runs (for_each (pendingDeletes (store w)) (delete_files server)) (timeline w)
    (Ret tt) evs →
  publishToGitHub server w =
    match write_manifest server (mkWorld (store w) (timeline w ++ evs)) with
    | (Ret _, w2) => (Ret published, w2)
    | (Throw msg, w2) => (Ret (publish_failed msg), w2)
    end.
Proof.
  intros [Hn Hy]%has_changes_true Hd. destruct w as [st tl].
  unfold publishToGitHub, get_state, try_catch, mbind, M_bind, bind.
  cbn [store timeline] in *.
  rewrite Hn, Hy. unfold mbind, M_bind, bind in Hd |- *. rewrite Hd.
  unfold when_. by destruct (write_manifest server _) as [[[]|m] w2].
Qed.

End PublishFacts.

Section PublishRun.
Variable server : remote.

Lemma failed_dec (r : response) : failed r ∨ ∃ doc s, r = OkJson doc s.
Proof. destruct r; simpl; eauto. Qed.

Lemma publish_run_sound w t w' :
  publish_run server w t w' → publishToGitHub server w = (Ret t, w').
Proof.
  destruct 1 as [H0|msg evs Hp Hd|evs Hp Hd Hf|evs doc s Hp Hd Hr Hf
                 |evs doc s doc' s' Hp Hd Hr Hw].
  - by apply publish_nothing.
  - by apply publish_deletion_throws.
  - rewrite (publish_reaches_write server w evs Hp Hd).
    rewrite write_manifest_reread_fails by done.
    cbn [store timeline]. by rewrite <- app_assoc.
  - rewrite (publish_reaches_write server w evs Hp Hd).
    rewrite (write_manifest_write_fails server _ doc s) by done.
    cbn [store timeline]. by rewrite <- app_assoc.
  - rewrite (publish_reaches_write server w evs Hp Hd).
    rewrite (write_manifest_succeeds server _ doc s doc' s') by done.
    cbn [store timeline]. by rewrite <- app_assoc.
Qed.

Lemma publish_run_total w : ∃ t w', publish_run server w t w'.
Proof.
  destruct (decide (pendingChangeCount (store w) = 0)) as [H0|Hp].
  { eexists _, _. by apply PR_nothing. }
  assert (0 < pendingChangeCount (store w)) as Hp' by lia.
  destruct (deletion_phase_runs server (pendingDeletes (store w)) (timeline w))
    as (od & evs & Hd & _).
  destruct od as [[]|msg].
  2: { eexists _, _. by eapply PR_deletion_aborts. }
  destruct (failed_dec (reread_response server (timeline w ++ evs)))
    as [Hf|(doc & s & Hr)].
  { eexists _, _. by eapply PR_reread_fails. }
  destruct (failed_dec (write_response server (timeline w ++ evs) (json_of (merged (store w))) s))
    as [Hf|(doc' & s' & Hw)].
  { eexists _, _. by eapply PR_write_fails. }
  eexists _, _. by eapply PR_published.
Qed.

(** [publishToGitHub] never throws: whatever happens ends in a toast. *)
Lemma publish_inv w o w' :
  publishToGitHub server w = (o, w') → ∃ t, o = Ret t ∧ publish_run server w t w'.
Proof.
  intros H. destruct (publish_run_total w) as (t & w1 & Hr).
  rewrite (publish_run_sound _ _ _ Hr) in H. inversion H; subst. eauto.
Qed.

End PublishRun.
(** * The publish protocol *)

Section PublishClaims.
Variable server : remote.


(** C1: when the deletion phase is over and the re-read of [photos.json] or
    the write that follows it fails, [publishToGitHub] does not throw: it
    ends with the toast "Publish failed: ..." and the store (photos, dirty,
    pendingDeletes, sha, hence the effective list) is the one the attempt
    started from. *)
Theorem failed_publish_keeps_store w evs :
  0 < pendingChangeCount (store w) →
  runs (for_each (pendingDeletes (store w)) (delete_files server))
    (timeline w) (Ret tt) evs →
  (failed (reread_response server (timeline w ++ evs))
   ∨ ∃ doc s, reread_response server (timeline w ++ evs) = OkJson doc s
       ∧ failed (write_response server (timeline w ++ evs)
                   (json_of (merged (store w))) s)) →
  ∃ msg w',
    publishToGitHub server w = (Ret (publish_failed msg), w')
    ∧ store w' = store w
    ∧ photos (store w') = photos (store w)
    ∧ dirty (store w') = dirty (store w)
    ∧ pendingDeletes (store w') = pendingDeletes (store w)
    ∧ effectiveList (store w') = effectiveList (store w).
Proof.
  intros Hp Hd [Hf|(doc & s & Hr & Hf)].
  - eexists _, _. split.
    + apply publish_run_sound. by eapply PR_reread_fails.
    + done.
  - eexists _, _. split.
    + apply publish_run_sound. by eapply PR_write_fails.
    + done.
Qed.


(** What a successful attempt leaves behind (used below). *)
Lemma published_inv w w' :
  publishToGitHub server w = (Ret published, w') →
  0 < pendingChangeCount (store w) →
  ∃ evs doc s doc' s',
    runs (for_each (pendingDeletes (store w)) (delete_files server))
      (timeline w) (Ret tt) evs
    ∧ reread_response server (timeline w ++ evs) = OkJson doc s
    ∧ write_response server (timeline w ++ evs) (json_of (merged (store w))) s
      = OkJson doc' s'
    ∧ w' = mkWorld (committed (merged (store w)) s' (store w))
             (timeline w ++ evs ++ reread_events
                ++ write_events (json_of (merged (store w))) s).
Proof.
  intros H Hp. apply publish_inv in H as (t & [= <-] & Hr).
  inversion Hr as [H0|msg evs _ Hd Ht|evs _ Hd Hf Ht|evs doc s _ Hd Hg Hf Ht
                   |evs doc s doc' s' _ Hd Hg Hw Ht]; subst;
    try discriminate; try lia.
  by exists evs, doc, s, doc', s'.
Qed.

(** The requests of a publish attempt do not depend on [state.sha]. *)
Lemma publish_run_set_sha x w t w' :
  publish_run server w t w' →
  ∃ w'', publish_run server (mkWorld (set_sha x (store w)) (timeline w)) t w''
         ∧ timeline w'' = timeline w'.
Proof.
  destruct 1 as [H0|msg evs Hp Hd|evs Hp Hd Hf|evs doc s Hp Hd Hr Hf
                 |evs doc s doc' s' Hp Hd Hr Hw].
  - eexists. split; [by apply PR_nothing|done].
  - eexists. split;
      [exact (PR_deletion_aborts server (mkWorld (set_sha x (store w)) (timeline w))
                msg evs Hp Hd)|done].
  - eexists. split;
      [exact (PR_reread_fails server (mkWorld (set_sha x (store w)) (timeline w))
                evs Hp Hd Hf)|done].
  - eexists. split;
      [exact (PR_write_fails server (mkWorld (set_sha x (store w)) (timeline w))
                evs doc s Hp Hd Hr Hf)|done].
  - eexists. split;
      [exact (PR_published server (mkWorld (set_sha x (store w)) (timeline w))
                evs doc s doc' s' Hp Hd Hr Hw)|done].
Qed.

(** Case analysis on membership in an explicit list. *)
Ltac split_elem H :=
  cbn [reread_events write_events app] in H;
  repeat (apply elem_of_cons in H as [H|H]);
  [..|by apply elem_of_nil in H].

Lemma app_eq_self {A} (l evs : list A) : l = l ++ evs → evs = [].
Proof.
  intros H. apply (app_inv_head l). by rewrite app_nil_r.
Qed.

Lemma put_not_deletion_event path content s evs :
  Forall deletion_event evs → CallPutFile path content s ∉ evs.
Proof.
  intros H Hin. rewrite Forall_forall in H. by apply H in Hin.
Qed.

(** The only [ghPutFile] of a publish attempt closes it, straight after the
    re-read that gave its SHA. *)
Lemma put_follows_reread w o w' evs path content s :
  publishToGitHub server w = (o, w') →
  timeline w' = timeline w ++ evs →
  CallPutFile path content s ∈ evs →
  ∃ del doc,
    evs = del ++ reread_events ++ write_events (json_of (merged (store w))) s
    ∧ Forall deletion_event del
    ∧ reread_response server (timeline w ++ del) = OkJson doc s
    ∧ path = "photos.json"
    ∧ content = json_of (merged (store w)).
Proof.
  intros H Htl Hin. apply publish_inv in H as (t & -> & Hr).
  destruct (deletion_phase_runs server (pendingDeletes (store w)) (timeline w))
    as (od & del & Hd & Hdel & _).
  inversion Hr as [H0|msg evs' _ Hd' Ht|evs' _ Hd' Hf Ht|evs' doc s0 _ Hd' Hg Hf Ht
                   |evs' doc s0 doc' s' _ Hd' Hg Hw Ht]; subst;
    cbn [timeline] in Htl.
  - apply app_eq_self in Htl. subst. by apply elem_of_nil in Hin.
  - destruct (runs_det _ _ _ _ _ _ Hd Hd') as [_ <-].
    apply app_inv_head in Htl. subst.
    by apply put_not_deletion_event in Hin.
  - destruct (runs_det _ _ _ _ _ _ Hd Hd') as [_ <-].
    apply app_inv_head in Htl. subst.
    apply elem_of_app in Hin as [Hin|Hin].
    + by apply put_not_deletion_event in Hin.
    + by split_elem Hin.
  - destruct (runs_det _ _ _ _ _ _ Hd Hd') as [_ <-].
    apply app_inv_head in Htl. subst.
    apply elem_of_app in Hin as [Hin|Hin].
    { by apply put_not_deletion_event in Hin. }
    assert (path = "photos.json" ∧ content = json_of (merged (store w)) ∧ s = s0)
      as (-> & -> & ->).
    { split_elem Hin; by simplify_eq. }
    by exists del, doc.
  - destruct (runs_det _ _ _ _ _ _ Hd Hd') as [_ <-].
    apply app_inv_head in Htl. subst.
    apply elem_of_app in Hin as [Hin|Hin].
    { by apply put_not_deletion_event in Hin. }
    assert (path = "photos.json" ∧ content = json_of (merged (store w)) ∧ s = s0)
      as (-> & -> & ->).
    { split_elem Hin; by simplify_eq. }
    by exists del, doc.
Qed.

(** C5: if a publish attempt calls [ghPutFile] at all, the call is the last
    but one event of the attempt, it follows a [ghGetFile('photos.json')]
    made after all deletion events, and its SHA argument is the one that
    fresh read returned; the requests sent are the same whatever
    [state.sha] held. *)
Theorem write_uses_fresh_sha w o w' evs path content s :
  publishToGitHub server w = (o, w') →
  timeline w' = timeline w ++ evs →
  CallPutFile path content s ∈ evs →
  ∃ del doc,
    evs = del ++ reread_events ++ write_events (json_of (merged (store w))) s
    ∧ Forall deletion_event del
    ∧ reread_response server (timeline w ++ del) = OkJson doc s
    ∧ path = "photos.json"
    ∧ content = json_of (merged (store w))
    ∧ ∀ x, timeline (publishToGitHub server
                       (mkWorld (set_sha x (store w)) (timeline w))).2
           = timeline w'.
Proof.
  intros H Htl Hin.
  destruct (put_follows_reread w o w' evs path content s H Htl Hin)
    as (del & doc & Hevs & Hdel & Hr & Hp & Hc).
  exists del, doc. split_and!; try done.
  intros x. apply publish_inv in H as (t & -> & Hrun).
  destruct (publish_run_set_sha x _ _ _ Hrun) as (w'' & Hr' & <-).
  by rewrite (publish_run_sound _ _ _ _ Hr').
Qed.


(** Deletions whose DELETE request is answered at all, and a missing file,
    do not stop the deletion phase. *)
Lemma deletion_phase_completes (l : list value) tl :
  (∀ msg, ¬ delete_rejected server msg) →
  (∀ ph msg, ph ∈ l → isLocal (ph !! "src") ≠ Throw msg
                      ∧ isLocal (ph !! "thumb") ≠ Throw msg) →
  ∃ evs, runs (for_each l (delete_files server)) tl (Ret tt) evs.
Proof.
  intros Hnet Hstr.
  destruct (deletion_phase_runs server l tl) as (o & evs & Hr & _ & _ & _ & Ho).
  exists evs. destruct o as [[]|msg]; [done|].
  destruct (Ho msg eq_refl) as [Hrej|(ph & Hin & Hth)].
  - by destruct (Hnet msg).
  - destruct (Hstr ph msg Hin) as [Hs Ht]. by destruct Hth.
Qed.

End PublishClaims.

(** C1 on the sample session: photo [a] retitled, and a write refused. *)
Lemma failed_publish_keeps_store_witness :
  let w := mkWorld Scenario.edited [] in
  0 < pendingChangeCount (store w)
  ∧ ∃ msg w',
      publishToGitHub Scenario.contended w = (Ret (publish_failed msg), w')
      ∧ store w' = store w
      ∧ photos (store w') = photos (store w)
      ∧ dirty (store w') = dirty (store w)
      ∧ pendingDeletes (store w') = pendingDeletes (store w)
      ∧ effectiveList (store w') = effectiveList (store w).
Proof.
  intros w. split; [vm_compute; lia|].
  apply (failed_publish_keeps_store Scenario.contended w []).
  - vm_compute; lia.
  - intros st. reflexivity.
  - right. exists [Scenario.a_old; Scenario.b], "v2". split; [reflexivity|exact I].
Defined.


(** C5 on the sample session. *)
Lemma write_uses_fresh_sha_witness :
  let w := mkWorld Scenario.edited [] in
  let evs := reread_events ++ write_events (json_of (merged Scenario.edited)) "v1" in
  let w' := mkWorld (committed (merged Scenario.edited) "v2" Scenario.edited) evs in
  ∃ del doc,
    evs = del ++ reread_events ++ write_events (json_of (merged (store w))) "v1"
    ∧ Forall deletion_event del
    ∧ reread_response Scenario.steady (timeline w ++ del) = OkJson doc "v1"
    ∧ "photos.json" = "photos.json"
    ∧ json_of (merged Scenario.edited) = json_of (merged (store w))
    ∧ ∀ x, timeline (publishToGitHub Scenario.steady
                       (mkWorld (set_sha x (store w)) (timeline w))).2
           = timeline w'.
Proof.
  intros w evs w'.
  apply (write_uses_fresh_sha Scenario.steady w (Ret published) w' evs).
  - reflexivity.
  - reflexivity.
  - apply list_elem_of_In. simpl. right. right. left. reflexivity.
Defined.


(** C7, where the code departs from the specification: the DELETE request for a
    pending photo's file is rejected by the network; the attempt ends with
    "Publish failed", [photos.json] is neither re-read nor written, and the
    store keeps the pending deletion. *)
Example delete_transport_error_aborts_publish :
  publish Scenario.drops_delete Scenario.deleted =
    (Ret (publish_failed "Failed to fetch"),
     mkWorld Scenario.deleted
       [CallDeleteFile "photos/uploads/a.jpg";
        Fetch (ReqGet "photos/uploads/a.jpg");
        Fetch (ReqDelete "photos/uploads/a.jpg" "f1" "Remove a upload")]).
Proof. reflexivity. Qed.

(** C2, where the code departs from the specification: the manifest holds a
    photo whose id is [constructor] (the slug of [constructor.jpg]) and photo
    [b] is retitled.  [state.dirty['constructor']] is the function
    [Object.prototype.constructor], so the publish succeeds, writes [null] in
    the place of the first photo, and leaves that function in
    [state.photos]: neither the written manifest nor the new baseline is the
    baseline with [b] replaced by its overlay entry. *)
Example publish_loses_constructor_photo :
  photos Scenario.ctor_b_edited = [VRec Scenario.ctor; VRec Scenario.b]
  ∧ dirty Scenario.ctor_b_edited = {[ "b" := spread Scenario.b Scenario.retitle ]}
  ∧ publish Scenario.steady Scenario.ctor_b_edited =
      (Ret published,
       mkWorld
         (mkState [VFun "constructor"; VRec (spread Scenario.b Scenario.retitle)]
            ∅ None [] (Some "v2") (Some "b"))
         (reread_events ++
          write_events [JPrim JNull; JObject (spread Scenario.b Scenario.retitle)] "v1"))
  ∧ effectiveList (store (publish Scenario.steady Scenario.ctor_b_edited).2)
    = [VFun "constructor"; VRec (spread Scenario.b Scenario.retitle)].
Proof. split_and!; reflexivity. Qed.

(** C6, where the code departs from the specification: [a] and [b] are
    pending deletions with three local files between them; the DELETE
    request for the first file is rejected by the network, the attempt ends
    there, and [ghDeleteFile] is never called for the two files of [b]. *)
Example delete_rejection_skips_remaining_files :
  flat_map local_paths (pendingDeletes Scenario.both_deleted)
    = ["photos/uploads/a.jpg"; "photos/uploads/b.jpg"; "photos/thumbs/b.jpg"]
  ∧ publish Scenario.drops_delete Scenario.both_deleted =
      (Ret (publish_failed "Failed to fetch"),
       mkWorld Scenario.both_deleted
         [CallDeleteFile "photos/uploads/a.jpg";
          Fetch (ReqGet "photos/uploads/a.jpg");
          Fetch (ReqDelete "photos/uploads/a.jpg" "f1" "Remove a upload")])
  ∧ calls_deleted (timeline (publish Scenario.drops_delete Scenario.both_deleted).2)
    = ["photos/uploads/a.jpg"].
Proof. split_and!; reflexivity. Qed.

(** * The staged-edit store *)

Section IdFacts.
Context {T : Type} `{Lookup string jsval T}.
Implicit Types (p : T) (l : list T).

Lemma id_is_true s p : id_is (Some s) p = true ↔ photo_id p = Some (JStr s).
Proof.
  unfold id_is. destruct (photo_id p) as [[]|]; try (split; [done|congruence]).
  rewrite bool_decide_eq_true. split; congruence.
Qed.

Lemma has_ids_cons p l ids :
  has_ids (p :: l) ids →
  ∃ i ids', ids = i :: ids' ∧ photo_id p = Some (JStr i) ∧ has_ids l ids'.
Proof.
  unfold has_ids. destruct ids as [|i ids']; [done|].
  simpl. intros [= Hp Hl]. eauto.
Qed.

Lemma has_ids_app l1 l2 ids1 ids2 :
  has_ids l1 ids1 → has_ids l2 ids2 → has_ids (l1 ++ l2) (ids1 ++ ids2).
Proof. unfold has_ids. intros H1 H2. by rewrite !map_app, H1, H2. Qed.

Lemma has_ids_string_ids l ids : has_ids l ids → string_ids l = ids.
Proof.
  revert ids. induction l as [|p l IH]; intros ids.
  - by destruct ids.
  - intros (i & ids' & -> & Hp & Hl)%has_ids_cons.
    unfold string_ids. simpl. rewrite Hp. simpl. f_equal. by apply IH.
Qed.

Lemma has_ids_elem l ids p :
  has_ids l ids → p ∈ l → ∃ i, photo_id p = Some (JStr i) ∧ i ∈ ids.
Proof.
  revert ids. induction l as [|q l IH]; intros ids Hl Hp.
  - by apply elem_of_nil in Hp.
  - apply has_ids_cons in Hl as (i & ids' & -> & Hq & Hl).
    apply elem_of_cons in Hp as [->|Hp].
    + exists i. split; [done|by left].
    + destruct (IH _ Hl Hp) as (j & ? & ?). exists j. split; [done|by right].
Qed.

(** Filtering the photos by id is filtering their ids. *)
Lemma has_ids_filter id l ids :
  has_ids l ids →
  has_ids (filter (λ p, id_is (Some id) p = false) l) (filter (λ i, i ≠ id) ids).
Proof.
  revert ids. induction l as [|p l IH]; intros ids.
  - by destruct ids.
  - intros (i & ids' & -> & Hp & Hl)%has_ids_cons.
    rewrite !filter_cons.
    destruct (decide (i = id)) as [->|Hne].
    + rewrite decide_False; [|by rewrite (proj2 (id_is_true id p) Hp)].
      rewrite decide_False by (intros Hx; by apply Hx). by apply IH.
    + rewrite decide_True.
      2: { destruct (id_is (Some id) p) eqn:E; [|done].
           apply id_is_true in E. congruence. }
      rewrite decide_True by done.
      unfold has_ids. simpl. rewrite Hp. f_equal. by apply IH.
Qed.

End IdFacts.

(** The ids of photo objects, read as values. *)
Lemma photo_id_VRec (r : photo) : photo_id (VRec r) = photo_id r.
Proof. done. Qed.

Lemma has_ids_VRec (l : list photo) ids : has_ids (VRec <$> l) ids ↔ has_ids l ids.
Proof.
  unfold has_ids. change (map photo_id (VRec <$> l)) with (photo_id <$> (VRec <$> l)).
  by rewrite <- list_fmap_compose.
Qed.

Lemma find_photo_Some s st p :
  find_photo (Some s) st = Some p → p ∈ photos st ∧ photo_id p = Some (JStr s).
Proof.
  unfold find_photo. intros [Hin Hid]%find_some.
  split; [by apply list_elem_of_In|by apply id_is_true].
Qed.

Lemma find_photo_None s st p :
  find_photo (Some s) st = None → p ∈ photos st → photo_id p ≠ Some (JStr s).
Proof.
  unfold find_photo. intros Hn Hin%list_elem_of_In Hid%id_is_true.
  by rewrite (find_none _ _ Hn _ Hin) in Hid.
Qed.

(** A value with an [id] is a photo object. *)
Lemma photo_id_is_rec (v : value) j : photo_id v = Some j → ∃ r, v = VRec r.
Proof. destruct v; try done. eauto. Qed.

(** The three ways [markForDelete] ends. *)
Lemma markForDelete_confirmed id st ph :
  find_photo (Some id) st = Some ph →
  markForDelete id true st =
    mkState (filter (λ p, id_is (Some id) p = false) (photos st))
      (delete id (dirty st)) (dirtyProto st) (pendingDeletes st ++ [ph]) (sha st) None.
Proof. unfold markForDelete. by intros ->. Qed.

Lemma markForDelete_declined id st : markForDelete id false st = st.
Proof. unfold markForDelete. by destruct (find_photo (Some id) st). Qed.

Lemma markForDelete_missing id c st :
  find_photo (Some id) st = None → markForDelete id c st = st.
Proof. unfold markForDelete. by intros ->. Qed.

Lemma markForDelete_cases id c st :
  markForDelete id c st = st
  ∨ ∃ ph, find_photo (Some id) st = Some ph ∧ c = true.
Proof.
  destruct c; [|left; apply markForDelete_declined].
  destruct (find_photo (Some id) st) as [ph|] eqn:E; [right; eauto|].
  left. by apply markForDelete_missing.
Qed.

(** [applyDraft] leaves the photos, the pending deletions, the SHA and the
    selection alone. *)
Lemma dirty_set_frame k e st :
  photos (dirty_set k e st) = photos st
  ∧ pendingDeletes (dirty_set k e st) = pendingDeletes st
  ∧ sha (dirty_set k e st) = sha st
  ∧ selected (dirty_set k e st) = selected st.
Proof. unfold dirty_set. by destruct (reaches_setter k st). Qed.

Lemma stageEdit_photos id partial st : photos (stageEdit id partial st) = photos st.
Proof. unfold stageEdit, applyDraft. by rewrite (proj1 (dirty_set_frame _ _ _)). Qed.

(** The photos of the store only ever leave through [markForDelete]. *)
Lemma step_photos o st p : p ∈ photos (step o st) → p ∈ photos st.
Proof.
  destruct o as [id partial|id|id c]; simpl; try done.
  - by rewrite stageEdit_photos.
  - destruct (markForDelete_cases id c st) as [->|(ph & E & ->)]; [done|].
    rewrite (markForDelete_confirmed _ _ _ E). simpl.
    by intros [_ ?]%list_elem_of_filter.
Qed.

Lemma step_string_ids o st :
  string_photos st → string_photos (step o st).
Proof. intros Hs p Hp. apply Hs. by eapply step_photos. Qed.

Lemma run_photos ops st p : p ∈ photos (run ops st) → p ∈ photos st.
Proof.
  revert st. induction ops as [|o ops IH]; intros st; [done|].
  simpl. intros Hp. eapply step_photos, IH, Hp.
Qed.

(** ** The ids of overlay entries *)

(** The own properties of a string and of an array are indices. *)
Lemma imap_index_keys {A} (f : A → jsval) (l : list A) n k :
  (list_to_map (imap (λ i x, (pretty (n + i), f x)) l) : photo) !! k ≠ None →
  ∃ i, k = pretty (n + i).
Proof.
  revert n. induction l as [|x l IH]; intros n; simpl.
  { by rewrite lookup_empty. }
  destruct (decide (k = pretty (n + 0))) as [->|Hk]; [eauto|].
  rewrite lookup_insert_ne by done.
  intros Hl. destruct (IH (S n)) as [i Hi].
  - erewrite imap_ext; [exact Hl|]. intros i y _. simpl. do 2 f_equal. lia.
  - exists (S i). rewrite Hi. f_equal. lia.
Qed.

Lemma pretty_N_char_digit x : (48 ≤ nat_of_ascii (pretty_N_char x) ≤ 57)%nat.
Proof.
  unfold pretty_N_char. repeat case_match; split; apply Nat.leb_le; reflexivity.
Qed.

Lemma pretty_N_go_digit x s : starts_with_digit s → starts_with_digit (pretty_N_go x s).
Proof.
  revert s. induction (N.lt_wf_0 x) as [x _ IH]; intros s Hs.
  destruct (decide (x = 0%N)) as [->|Hx]; [by rewrite pretty_N_go_0|].
  rewrite pretty_N_go_step by lia. apply IH.
  - apply N.div_lt; lia.
  - apply pretty_N_char_digit.
Qed.

Lemma pretty_nat_digit (i : nat) : starts_with_digit (pretty i).
Proof.
  unfold pretty, pretty_nat, pretty, pretty_N.
  destruct (decide (N.of_nat i = 0%N)); [split; apply Nat.leb_le; reflexivity|].
  by apply pretty_N_go_digit.
Qed.

(** A field name made of letters is no index. *)
Lemma pretty_nat_not_name (i : nat) (c : ascii) (t : string) :
  ¬ (48 ≤ nat_of_ascii c ≤ 57)%nat → pretty i ≠ String c t.
Proof. intros Hc Hi. pose proof (pretty_nat_digit i) as Hd. by rewrite Hi in Hd. Qed.

Lemma props_index_only (v : value) k c t :
  k = String c t → ¬ (48 ≤ nat_of_ascii c ≤ 57)%nat →
  (∀ r, v ≠ VRec r) → props v !! k = None.
Proof.
  intros -> Hc Hv.
  destruct v as [r|n| |b|n|s|l]; simpl; try apply lookup_empty.
  - by destruct (Hv r).
  - destruct (list_to_map _ !! _) eqn:E; [|done].
    destruct (imap_index_keys (λ c, JStr (String c "")) (list_ascii_of_string s) 0
                (String c t)) as [i Hi].
    { simpl. by rewrite E. }
    symmetry in Hi. by apply pretty_nat_not_name in Hi.
  - destruct (list_to_map _ !! _) eqn:E; [|done].
    destruct (imap_index_keys JStr l 0 (String c t)) as [i Hi].
    { simpl. by rewrite E. }
    symmetry in Hi. by apply pretty_nat_not_name in Hi.
Qed.

Lemma props_no_id (v : value) : (∀ r, v ≠ VRec r) → props v !! "id" = None.
Proof.
  apply (props_index_only v "id" "i"%char "d"); [done|].
  intros [_ Hc]. apply Nat.leb_le in Hc. discriminate.
Qed.

(** What a lookup in [state.dirty] under key [k] returns has the id [k] or
    no id. *)
Lemma dirty_get_id k st v :
  overlay_ids st → dirty_get k st = Some v →
  photo_id v = Some (JStr k) ∨ photo_id v = None.
Proof.
  intros [Hown Hproto]. unfold dirty_get.
  destruct (dirty st !! k) as [e|] eqn:Ee.
  { intros [= <-]. by apply Hown. }
  assert (∀ pr, (∀ p, pr = Some p →
                   photo_id p = Some (JStr "__proto__") ∨ photo_id p = None) →
                inherited k pr = Some v →
                photo_id v = Some (JStr k) ∨ photo_id v = None) as Hinh.
  { intros pr Hpr. unfold inherited. repeat case_bool_decide; simplify_eq.
    - destruct pr as [p|]; intros [= <-]; [by apply Hpr|by right].
    - intros [= <-]. by right.
    - done. }
  destruct (dirtyProto st) as [p|] eqn:Ep.
  - destruct (p !! k) as [jv|] eqn:Ek.
    + destruct jv; simpl; intros [= <-]; by right.
    + apply Hinh. by intros ? [= <-]; apply Hproto.
  - by apply Hinh.
Qed.

Lemma getPhoto_id id st v :
  overlay_ids st → getPhoto (Some id) st = Some v →
  photo_id v = Some (JStr id) ∨ photo_id v = None.
Proof.
  intros Hov. unfold getPhoto. cbn [sel_key].
  destruct (dirty_get id st) as [d|] eqn:Ed.
  - destruct (truthy d).
    + intros [= <-]. by eapply dirty_get_id.
    + intros [_ ?]%find_photo_Some. by left.
  - intros [_ ?]%find_photo_Some. by left.
Qed.

(** The base of the spread in [applyDraft]. *)
Lemma base_id id st :
  overlay_ids st →
  let base := default ∅ (props <$> getPhoto (Some id) st) in
  base !! "id" = Some (JStr id) ∨ base !! "id" = None.
Proof.
  intros Hov. destruct (getPhoto (Some id) st) as [v|] eqn:Ev; simpl.
  - destruct v as [r| | | | | |]; try (right; by apply props_no_id).
    by apply (getPhoto_id id st (VRec r)).
  - right. apply lookup_empty.
Qed.

Lemma getPhoto_set_selected s id st :
  getPhoto id (set_selected s st) = getPhoto id st.
Proof. done. Qed.

Lemma stageEdit_overlay_ids id partial st :
  partial !! "id" = None → overlay_ids st → overlay_ids (stageEdit id partial st).
Proof.
  intros Hpart Hov.
  unfold stageEdit, applyDraft, draft_base, selectPhoto.
  cbn [selected set_selected sel_key]. rewrite getPhoto_set_selected.
  set (base := default ∅ (props <$> getPhoto (Some id) st)).
  assert (photo_id (spread base partial) = Some (JStr id)
          ∨ photo_id (spread base partial) = None) as Hnew.
  { unfold photo_id, spread. rewrite lookup_union_r by done. by apply base_id. }
  destruct Hov as [Hown Hproto]. unfold dirty_set.
  destruct (reaches_setter id (set_selected (Some id) st)) eqn:Er.
  - unfold reaches_setter in Er.
    apply andb_true_iff in Er as [[Hk%bool_decide_eq_true _]%andb_true_iff _].
    subst id. split; [exact Hown|].
    intros p. cbn [dirtyProto set_dirtyProto]. by intros [= <-].
  - split; [|exact Hproto].
    intros k e. cbn [dirty set_dirty set_selected].
    destruct (decide (k = id)) as [->|Hk].
    + rewrite lookup_insert_eq. by intros [= <-].
    + rewrite lookup_insert_ne by done. apply Hown.
Qed.

Lemma step_overlay_ids o st :
  keeps_id o → overlay_ids st → overlay_ids (step o st).
Proof.
  destruct o as [id partial|id|id c]; simpl.
  - apply stageEdit_overlay_ids.
  - intros _ [Hown Hproto]. split; [|exact Hproto].
    intros k e. unfold revert. cbn [dirty set_dirty].
    intros [_ He]%lookup_delete_Some. by apply Hown.
  - intros _ Hov.
    destruct (markForDelete_cases id c st) as [->|(ph & E & ->)]; [done|].
    rewrite (markForDelete_confirmed _ _ _ E). destruct Hov as [Hown Hproto].
    split; [|exact Hproto].
    intros k e. cbn [dirty]. intros [_ He]%lookup_delete_Some. by apply Hown.
Qed.

Lemma load_well_formed manifest ids s0 st0 :
  has_ids manifest ids → well_formed (load manifest s0 st0).
Proof.
  intros Hids. split.
  - intros p Hp. cbn in Hp. apply list_elem_of_fmap in Hp as (r & -> & Hr).
    destruct (has_ids_elem _ _ _ Hids Hr) as (i & Hi & _). eauto.
  - split.
    + intros k e. cbn. by rewrite lookup_empty.
    + by intros p.
Qed.

Lemma run_well_formed ops st :
  Forall keeps_id ops → well_formed st → well_formed (run ops st).
Proof.
  intros Hops. revert st.
  induction Hops as [|o ops Ho _ IH]; intros st [Hs Hov]; [done|].
  simpl. apply IH. split; [by apply step_string_ids|by apply step_overlay_ids].
Qed.

(** Each element of the merged list has the id of the photo in its place,
    or none. *)
Lemma merged_ids_weak st :
  well_formed st →
  Forall2 (λ p q, photo_id q = photo_id p ∨ photo_id q = None)
    (photos st) (merged st).
Proof.
  intros [Hs Hov]. unfold merged.
  apply Forall2_fmap_r, Forall_Forall2_diag, Forall_forall.
  intros p Hp. destruct (Hs p Hp) as (r & s & -> & Hid).
  assert (photo_id (VRec r) = Some (JStr s)) as Hid' by exact Hid.
  unfold compose. cbv beta. rewrite !Hid'. cbn [to_key].
  destruct (dirty_get s st) as [v|] eqn:Ev; cbn [default from_option].
  - exact (dirty_get_id s st v Hov Ev).
  - by left.
Qed.



(** C8, where the code departs from the specification: the loaded manifest
    holds a photo whose id is [constructor].  With nothing staged, the
    element of the effective list in its place is the function
    [Object.prototype.constructor], which has no id; [getPhoto] resolves the
    id to that function, and an edit staged on it stores the partial change
    alone, so the element becomes an object without id. *)
Example effective_list_loses_constructor :
  has_ids [Scenario.ctor; Scenario.b] ["constructor"; "b"]
  ∧ effectiveList Scenario.loaded_ctor = [VFun "constructor"; VRec Scenario.b]
  ∧ map photo_id (effectiveList Scenario.loaded_ctor) = [None; Some (JStr "b")]
  ∧ getPhoto (Some "constructor") Scenario.loaded_ctor = Some (VFun "constructor")
  ∧ effectiveList (run [OpEdit "constructor" Scenario.retitle] Scenario.loaded_ctor)
    = [VRec Scenario.retitle; VRec Scenario.b]
  ∧ map photo_id
      (effectiveList (run [OpEdit "constructor" Scenario.retitle] Scenario.loaded_ctor))
    = [None; Some (JStr "b")].
Proof. split_and!; reflexivity. Qed.




(** C4, against the specification's wording: [a] has an overlay entry, and
    what [markForDelete] queues is the photo of [state.photos], not that
    entry. *)
Lemma markForDelete_queues_baseline_record :
  getPhoto (Some "a") Scenario.edited = Some (VRec Scenario.a_new)
  ∧ pendingDeletes (markForDelete "a" true Scenario.edited) = [VRec Scenario.a_old]
  ∧ Scenario.a_old ≠ Scenario.a_new.
Proof.
  split_and!; [reflexivity|reflexivity|].
  intros H. apply (f_equal (λ p : photo, p !! "title")) in H.
  vm_compute in H. discriminate.
Qed.

(** C4, as the code has it: in a store reached from a loaded manifest with
    string ids by operations that leave [id] fields alone, a confirmed
    [markForDelete(id)] on an id found in [state.photos] appends that photo of
    [state.photos] to the pending deletions, removes the overlay entry of
    the id, and no effective list computed after further such operations
    has a photo with that id. *)
Theorem markForDelete_moves_baseline_photo manifest ids0 s0 st0 ops0 id ph ops :
  has_ids manifest ids0 →
  Forall keeps_id ops0 →
  Forall keeps_id ops →
  let st := run ops0 (load manifest s0 st0) in
  find_photo (Some id) st = Some ph →
  let st' := markForDelete id true st in
  ph ∈ photos st
  ∧ pendingDeletes st' = pendingDeletes st ++ [ph]
  ∧ dirty st' = delete id (dirty st)
  ∧ photos st' = filter (λ p, id_is (Some id) p = false) (photos st)
  ∧ Some (JStr id) ∉ map photo_id (effectiveList (run ops st')).
Proof.
  intros Hids Hops0 Hops st Hfind st'.
  assert (well_formed st) as Hwf.
  { apply run_well_formed; [done|]. by eapply load_well_formed. }
  assert (well_formed st') as Hwf'.
  { apply (run_well_formed [OpDelete id true]); [by repeat constructor|done]. }
  unfold st'. rewrite (markForDelete_confirmed _ _ _ Hfind).
  cbn [pendingDeletes dirty photos].
  split_and!; try done.
  - by apply find_photo_Some in Hfind as [? _].
  - rewrite <- (markForDelete_confirmed _ _ _ Hfind). fold st'.
    pose proof (merged_ids_weak _ (run_well_formed ops st' Hops Hwf')) as Hm.
    unfold effectiveList.
    change (map photo_id ?l) with (photo_id <$> l).
    intros (q & Hq & Hin)%list_elem_of_fmap.
    destruct (proj1 (list_elem_of_lookup _ _) Hin) as [i Hi].
    destruct (Forall2_lookup_r _ _ _ _ _ Hm Hi) as (p & Hp & Hpq).
    apply list_elem_of_lookup_2, run_photos in Hp. unfold st' in Hp.
    rewrite (markForDelete_confirmed _ _ _ Hfind) in Hp. cbn [photos] in Hp.
    apply list_elem_of_filter in Hp as [Hf _].
    destruct Hpq as [Hpq|Hpq]; [|congruence].
    rewrite Hpq in Hq. symmetry in Hq. apply id_is_true in Hq. congruence.
Qed.

(** C4 on the sample session: [a] is retitled, then deleted. *)
Lemma markForDelete_moves_baseline_photo_witness :
  let st := run [OpEdit "a" Scenario.retitle]
              (load [Scenario.a_old; Scenario.b] "v1" initial_state) in
  let st' := markForDelete "a" true st in
  find_photo (Some "a") st = Some (VRec Scenario.a_old)
  ∧ VRec Scenario.a_old ∈ photos st
  ∧ pendingDeletes st' = pendingDeletes st ++ [VRec Scenario.a_old]
  ∧ dirty st' = delete "a" (dirty st)
  ∧ photos st' = filter (λ p, id_is (Some "a") p = false) (photos st)
  ∧ Some (JStr "a") ∉ map photo_id
      (effectiveList (run [OpEdit "a" Scenario.retitle; OpRevert "b"] st')).
Proof.
  intros st st'. split; [reflexivity|].
  apply (markForDelete_moves_baseline_photo [Scenario.a_old; Scenario.b] ["a"; "b"]
           "v1" initial_state [OpEdit "a" Scenario.retitle] "a" (VRec Scenario.a_old)
           [OpEdit "a" Scenario.retitle; OpRevert "b"]).
  - reflexivity.
  - repeat constructor.
  - repeat constructor.
  - reflexivity.
Defined.

(** C10, where the code departs from the specification: the manifest holds
    a photo whose id is [constructor], and that photo is retitled.  The base
    of the spread in [applyDraft] is the function
    [Object.prototype.constructor], so the overlay entry is the partial
    change alone; the publish succeeds and writes, in the place of that
    photo, an object without [id]: the written manifest does not have the
    ids of [state.photos]. *)
Example publish_drops_constructor_id :
  map photo_id (photos Scenario.ctor_edited)
    = [Some (JStr "constructor"); Some (JStr "b")]
  ∧ dirty Scenario.ctor_edited = {[ "constructor" := Scenario.retitle ]}
  ∧ (publish Scenario.steady Scenario.ctor_edited).1 = Ret published
  ∧ timeline (publish Scenario.steady Scenario.ctor_edited).2
    = reread_events
      ++ write_events [JObject Scenario.retitle; JObject Scenario.b] "v1"
  ∧ photo_id Scenario.retitle = None
  ∧ map photo_id (photos (store (publish Scenario.steady Scenario.ctor_edited).2))
    = [None; Some (JStr "b")].
Proof. split_and!; reflexivity. Qed.

(** * The batch processor *)

Module ProcessorFacts.
Import Processor.

Lemma entry_id f id pr : photo_id (entry f id pr) = Some (JStr id).
Proof. unfold photo_id, entry. simpl. apply lookup_insert_eq. Qed.

Lemma string_ids_app (l1 l2 : list photo) :
  string_ids (l1 ++ l2) = string_ids l1 ++ string_ids l2.
Proof. apply omap_app. Qed.

Lemma string_ids_entry f id pr : string_ids [entry f id pr] = [id].
Proof. unfold string_ids. simpl. by rewrite entry_id. Qed.

Lemma has_ids_snoc_entry (l : list photo) ids f id pr :
  has_ids l ids → has_ids (l ++ [entry f id pr]) (ids ++ [id]).
Proof.
  unfold has_ids. intros H. rewrite !map_app, H. simpl. by rewrite entry_id.
Qed.

(** [if (knownIds.has(id)) { skipped++; continue; }]. *)
Lemma process_file_known img f ls :
  slugify f ∈ knownIds ls →
  process_file img f ls =
    mkLoop (knownIds ls) (newEntries ls) (processed ls) (S (skipped ls)).
Proof. intros H. unfold process_file. by rewrite (bool_decide_eq_true_2 _ H). Qed.

(** What the loop adds: entries with fresh, distinct string ids, recorded in
    [knownIds]; and every file ends up known unless its processing threw. *)
Lemma process_files_spec img files ls :
  ∃ ids added,
    newEntries (process_files img files ls) = newEntries ls ++ added
    ∧ has_ids added ids
    ∧ NoDup ids
    ∧ (∀ i, i ∈ ids → i ∉ knownIds ls)
    ∧ (∀ i, i ∈ ids → ∃ f, f ∈ files ∧ i = slugify f)
    ∧ knownIds (process_files img files ls) = list_to_set ids ∪ knownIds ls
    ∧ (∀ f, f ∈ files →
         slugify f ∈ knownIds (process_files img files ls) ∨ img f = None).
Proof.
  revert ls. induction files as [|f files IH]; intros ls.
  - exists [], []. simpl. rewrite app_nil_r.
    split_and!; try done.
    + constructor.
    + intros i Hi. by apply elem_of_nil in Hi.
    + intros i Hi. by apply elem_of_nil in Hi.
    + by rewrite (left_id_L ∅ (∪)).
    + intros g Hg. by apply elem_of_nil in Hg.
  - unfold process_files. simpl. fold (process_files img files (process_file img f ls)).
    destruct (IH (process_file img f ls))
      as (ids & added & Hnew & Hids & Hnd & Hfresh & Hsrc & Hknown & Hall).
    unfold process_file in *.
    destruct (decide (slugify f ∈ knownIds ls)) as [Hk|Hk].
    + rewrite (bool_decide_eq_true_2 _ Hk) in *. cbn [knownIds newEntries] in *.
      exists ids, added. split_and!; try done.
      * intros i Hi. destruct (Hsrc i Hi) as (g & ? & ?). exists g. split; [by right|done].
      * intros g [->|Hg]%elem_of_cons; [|by apply Hall].
        left. rewrite Hknown. apply elem_of_union. by right.
    + rewrite (bool_decide_eq_false_2 _ Hk) in *.
      destruct (img f) as [pr|] eqn:Ef; cbn [knownIds newEntries] in *.
      * exists (slugify f :: ids), (entry f (slugify f) pr :: added).
        split_and!.
        -- rewrite Hnew. by rewrite <- app_assoc.
        -- unfold has_ids in *. simpl. by rewrite entry_id, Hids.
        -- constructor; [|done]. intros Hi. apply (Hfresh _ Hi).
           apply elem_of_union. left. by apply elem_of_singleton.
        -- intros i [->|Hi]%elem_of_cons; [done|].
           intros Hin. apply (Hfresh _ Hi). apply elem_of_union. by right.
        -- intros i [->|Hi]%elem_of_cons.
           ++ exists f. split; [by left|done].
           ++ destruct (Hsrc i Hi) as (g & ? & ?). exists g. split; [by right|done].
        -- rewrite Hknown. rewrite list_to_set_cons.
           apply set_eq. intros i. rewrite !elem_of_union. tauto.
        -- intros g [->|Hg]%elem_of_cons; [|by apply Hall].
           left. rewrite Hknown. rewrite !elem_of_union, elem_of_singleton. tauto.
      * exists ids, added. split_and!; try done.
        -- intros i Hi. destruct (Hsrc i Hi) as (g & ? & ?). exists g. split; [by right|done].
        -- intros g [->|Hg]%elem_of_cons; [by right|by apply Hall].
Qed.

(** A file that is already known, or whose processing throws, adds nothing. *)
Lemma process_files_nothing_new img files ls :
  (∀ f, f ∈ files → slugify f ∈ knownIds ls ∨ img f = None) →
  newEntries (process_files img files ls) = newEntries ls
  ∧ knownIds (process_files img files ls) = knownIds ls.
Proof.
  revert ls. induction files as [|f files IH]; intros ls H; [done|].
  unfold process_files. simpl. fold (process_files img files (process_file img f ls)).
  assert (newEntries (process_file img f ls) = newEntries ls
          ∧ knownIds (process_file img f ls) = knownIds ls) as [Hn Hk].
  { unfold process_file. destruct (H f) as [Hin|Hnone]; [by left| |].
    - by rewrite (bool_decide_eq_true_2 _ Hin).
    - rewrite Hnone. by destruct (bool_decide _). }
  destruct (IH (process_file img f ls)) as [Hn' Hk'].
  { intros g Hg. rewrite Hk. apply H. by right. }
  split; congruence.
Qed.

(** On a manifest that is no top-level array, the run stores what it
    appends. *)
Lemma loaded_after img listing disk :
  loaded_photos (disk_after img listing (Document disk))
  = loaded_photos (Document disk) ++ run_entries img listing (Document disk).
Proof.
  unfold disk_after, written.
  destruct (run_entries img listing (Document disk)) as [|e l]; [|done].
  by rewrite app_nil_r.
Qed.

(** On a top-level array, it stores nothing. *)
Lemma top_array_after img listing items :
  disk_after img listing (TopArray items) = TopArray items.
Proof.
  unfold disk_after, written.
  by destruct (run_entries img listing (TopArray items)).
Qed.

Lemma run_entries_spec img listing disk :
  ∃ ids,
    has_ids (run_entries img listing disk) ids
    ∧ NoDup ids
    ∧ (∀ i, i ∈ ids → i ∉ string_ids (loaded_photos disk))
    ∧ (∀ f, f ∈ filter is_image listing →
         slugify f ∈ ids ∨ slugify f ∈ string_ids (loaded_photos disk)
         ∨ img f = None).
Proof.
  unfold run_entries.
  destruct (process_files_spec img (filter is_image listing)
              (mkLoop (list_to_set (string_ids (loaded_photos disk))) [] 0 0))
    as (ids & added & Hnew & Hids & Hnd & Hfresh & _ & Hknown & Hall).
  cbn [newEntries knownIds app] in *. rewrite Hnew.
  exists ids. split_and!; [done|done| |].
  - intros i Hi Hin. apply (Hfresh i Hi). by apply elem_of_list_to_set.
  - intros f Hf. destruct (Hall f Hf) as [Hk|Hn]; [|auto].
    rewrite Hknown in Hk. apply elem_of_union in Hk as [Hk|Hk].
    + left. by apply elem_of_list_to_set in Hk.
    + right. left. by apply elem_of_list_to_set in Hk.
Qed.

Lemma run_entries_nothing img listing disk :
  (∀ f, f ∈ filter is_image listing →
     slugify f ∈ string_ids (loaded_photos disk) ∨ img f = None) →
  run_entries img listing disk = [].
Proof.
  intros H. unfold run_entries.
  destruct (process_files_nothing_new img (filter is_image listing)
              (mkLoop (list_to_set (string_ids (loaded_photos disk))) [] 0 0))
    as [Hn _]; [|done].
  intros f Hf. cbn [knownIds]. destruct (H f Hf) as [Hin|?]; [|auto].
  left. by apply elem_of_list_to_set.
Qed.

End ProcessorFacts.



(** * The edit panel's handlers *)

Lemma lower_idem c : Processor.lower (Processor.lower c) = Processor.lower c.
Proof. by destruct c as [[] [] [] [] [] [] [] []]. Qed.

Lemma lower_not_space c : is_space (Processor.lower c) = is_space c.
Proof. by destruct c as [[] [] [] [] [] [] [] []]. Qed.

Lemma drop_spaces_clean l :
  Forall (λ c, is_space c = false) l → drop_spaces l = l.
Proof. destruct 1 as [|c l Hc _]; [done|]. simpl. by rewrite Hc. Qed.

Lemma trim_chars_clean l :
  Forall (λ c, is_space c = false) l → trim_chars l = l.
Proof.
  intros H. unfold trim_chars. rewrite (drop_spaces_clean l H).
  rewrite drop_spaces_clean; [apply rev_involutive|].
  by apply Forall_rev.
Qed.

Lemma drop_spaces_blank l :
  Forall (λ c, is_space c = true) l → drop_spaces l = [].
Proof. induction 1 as [|c l Hc _ IH]; [done|]. simpl. by rewrite Hc. Qed.

Lemma collapse_spaces_no_space b l :
  Forall (λ c, is_space c = false) (collapse_spaces b l).
Proof.
  revert b. induction l as [|c l IH]; intros b; simpl; [constructor|].
  destruct (is_space c) eqn:E.
  - destruct b; [apply IH|]. constructor; [done|apply IH].
  - constructor; [done|apply IH].
Qed.

Lemma collapse_spaces_lower b l :
  Forall (λ c, Processor.lower c = c) l →
  Forall (λ c, Processor.lower c = c) (collapse_spaces b l).
Proof.
  intros H. revert b. induction H as [|c l Hc _ IH]; intros b; simpl; [constructor|].
  destruct (is_space c).
  - destruct b; [apply IH|]. constructor; [done|apply IH].
  - constructor; [done|apply IH].
Qed.

Lemma collapse_spaces_clean l :
  Forall (λ c, is_space c = false) l → collapse_spaces false l = l.
Proof. induction 1 as [|c l Hc _ IH]; [done|]. simpl. by rewrite Hc, IH. Qed.

Lemma map_lower_fixed l :
  Forall (λ c, Processor.lower c = c) l → map Processor.lower l = l.
Proof. induction 1 as [|c l Hc _ IH]; [done|]. simpl. by rewrite Hc, IH. Qed.

Lemma normalize_chars_shape l :
  Forall (λ c, is_space c = false) (normalize_chars l)
  ∧ Forall (λ c, Processor.lower c = c) (normalize_chars l).
Proof.
  split; [apply collapse_spaces_no_space|].
  apply collapse_spaces_lower, Forall_forall.
  intros c Hc. apply list_elem_of_In, in_map_iff in Hc as (d & <- & _).
  apply lower_idem.
Qed.

(** X1: a normalised tag holds no whitespace and no upper-case ASCII letter,
    and normalising it again changes nothing. *)
Theorem normalize_tag_canonical raw :
  Forall (λ c, is_space c = false ∧ Processor.lower c = c)
    (list_ascii_of_string (normalize_tag raw))
  ∧ normalize_tag (normalize_tag raw) = normalize_tag raw.
Proof.
  unfold normalize_tag. rewrite list_ascii_of_string_of_list_ascii.
  destruct (normalize_chars_shape (list_ascii_of_string raw)) as [Hs Hl].
  split.
  - apply Forall_and. by split.
  - f_equal. unfold normalize_chars at 1.
    by rewrite trim_chars_clean, map_lower_fixed, collapse_spaces_clean.
Qed.

Lemma set_order_spec seen l :
  NoDup (set_order seen l)
  ∧ ∀ x, x ∈ set_order seen l ↔ x ∈ l ∧ x ∉ seen.
Proof.
  revert seen. induction l as [|y l IH]; intros seen; simpl.
  { split; [constructor|]. intros x. split; [by intros ?%elem_of_nil|].
    by intros [?%elem_of_nil _]. }
  destruct (decide (y ∈ seen)) as [Hy|Hy].
  - rewrite (bool_decide_eq_true_2 _ Hy). destruct (IH seen) as [Hnd Hin].
    split; [done|]. intros x. rewrite Hin, elem_of_cons.
    split; [tauto|]. intros [[->|?] ?]; tauto.
  - rewrite (bool_decide_eq_false_2 _ Hy). destruct (IH (y :: seen)) as [Hnd Hin].
    split.
    + constructor; [|done]. rewrite Hin, elem_of_cons. tauto.
    + intros x. rewrite elem_of_cons, Hin, !elem_of_cons.
      destruct (decide (x = y)) as [->|]; tauto.
Qed.

Lemma set_order_snoc seen l t :
  NoDup l → (∀ x, x ∈ l → x ∉ seen) →
  set_order seen (l ++ [t]) = if decide (t ∈ l ∨ t ∈ seen) then l else l ++ [t].
Proof.
  intros Hnd. revert seen. induction Hnd as [|x l Hx Hnd IH]; intros seen Hs; simpl.
  - destruct (decide (t ∈ seen)) as [Ht|Ht].
    + rewrite (bool_decide_eq_true_2 _ Ht). rewrite decide_True; [done|by right].
    + rewrite (bool_decide_eq_false_2 _ Ht). rewrite decide_False; [done|].
      by intros [?%elem_of_nil|?].
  - rewrite bool_decide_eq_false_2 by (apply Hs; by left).
    rewrite IH.
    2: { intros y Hy [->|Hin]%elem_of_cons; [done|].
         by apply (Hs y); [right|]. }
    destruct (decide (t ∈ l ∨ t ∈ x :: seen)) as [H|H].
    + rewrite decide_True; [done|]. rewrite !elem_of_cons in *. tauto.
    + rewrite decide_False; [done|]. rewrite !elem_of_cons in *. tauto.
Qed.


(** ** [applyDraft], step by step *)

Lemma applyDraft_unfold partial st :
  applyDraft partial st
  = dirty_set (sel_key (selected st)) (spread (draft_base st) partial) st.
Proof. done. Qed.

(** When the assignment of [applyDraft] ends in the setter of [__proto__],
    the selected id is [__proto__] and the base of the spread has no own
    property of that name. *)
Lemma setter_base st :
  reaches_setter (sel_key (selected st)) st = true →
  sel_key (selected st) = "__proto__" ∧ draft_base st !! "__proto__" = None.
Proof.
  unfold reaches_setter, draft_base, getPhoto, dirty_get.
  intros [[Hk%bool_decide_eq_true Ho%bool_decide_eq_true]%andb_true_iff
          Hp%bool_decide_eq_true]%andb_true_iff.
  split; [done|]. rewrite Hk in *. rewrite Ho.
  destruct (dirtyProto st) as [p|]; simpl in *.
  - by rewrite Hp.
  - apply lookup_empty.
Qed.

Lemma dirty_get_own k e st :
  dirty_get k (set_dirty (<[k := e]> (dirty st)) st) = Some (VRec e).
Proof. unfold dirty_get. cbn [dirty set_dirty]. by rewrite lookup_insert_eq. Qed.

Lemma dirty_get_setter k e st :
  reaches_setter k st = true → e !! "__proto__" = None →
  dirty_get k (set_dirtyProto (Some e) st) = Some (VRec e)
  ∧ reaches_setter k (set_dirtyProto (Some e) st) = true.
Proof.
  unfold reaches_setter, dirty_get.
  intros [[Hk%bool_decide_eq_true Ho%bool_decide_eq_true]%andb_true_iff
          _]%andb_true_iff He.
  subst k. cbn [dirty dirtyProto set_dirtyProto]. rewrite Ho. simpl. rewrite He.
  split; [done|]. by rewrite !bool_decide_eq_true_2.
Qed.

Lemma reaches_setter_own k e st :
  reaches_setter k (set_dirty (<[k := e]> (dirty st)) st) = false.
Proof.
  unfold reaches_setter. cbn [dirty set_dirty]. rewrite lookup_insert_eq.
  rewrite (bool_decide_eq_false_2 (Some e = None)) by done.
  by rewrite andb_false_r.
Qed.

(** After [applyDraft] with a partial change that has no own [__proto__]
    property, [getPhoto] returns the object [applyDraft] built. *)
Lemma getPhoto_applyDraft partial st :
  partial !! "__proto__" = None →
  getPhoto (selected st) (applyDraft partial st)
  = Some (VRec (spread (draft_base st) partial)).
Proof.
  intros Hp. rewrite applyDraft_unfold. unfold dirty_set, getPhoto.
  destruct (reaches_setter (sel_key (selected st)) st) eqn:Er.
  - destruct (setter_base st Er) as [Hk Hb].
    destruct (dirty_get_setter _ (spread (draft_base st) partial) st Er) as [-> _];
      [|done].
    unfold spread. by rewrite lookup_union_r.
  - by rewrite dirty_get_own.
Qed.

Lemma selected_applyDraft partial st : selected (applyDraft partial st) = selected st.
Proof. rewrite applyDraft_unfold. apply dirty_set_frame. Qed.

(** Two calls of [applyDraft] in a row amount to one, when the first
    partial change has no own [__proto__] property. *)
Lemma applyDraft_twice p1 p2 st :
  p1 !! "__proto__" = None →
  applyDraft p2 (applyDraft p1 st) = applyDraft (spread p1 p2) st.
Proof.
  intros Hp1.
  assert (draft_base (applyDraft p1 st) = spread (draft_base st) p1) as Hb.
  { unfold draft_base at 1. rewrite selected_applyDraft.
    by rewrite getPhoto_applyDraft. }
  rewrite (applyDraft_unfold p2), Hb, selected_applyDraft.
  rewrite !(applyDraft_unfold _ st). unfold dirty_set.
  assert (spread (spread (draft_base st) p1) p2
          = spread (draft_base st) (spread p1 p2)) as ->.
  { unfold spread. by rewrite (assoc_L (∪)). }
  destruct (reaches_setter (sel_key (selected st)) st) eqn:Er.
  - destruct (setter_base st Er) as [Hk Hbase].
    destruct (dirty_get_setter _ (spread (draft_base st) p1) st Er) as [_ ->].
    { unfold spread. by rewrite lookup_union_r. }
    by destruct st.
  - rewrite reaches_setter_own. cbn [dirty set_dirty].
    rewrite insert_insert_eq. by destruct st.
Qed.

Lemma tags_of_spread ph tags : tags_of (spread ph {[ "tags" := JArr tags ]}) = tags.
Proof.
  unfold tags_of, spread.
  by rewrite (lookup_union_Some_l _ _ _ (JArr tags)) by apply lookup_singleton_eq.
Qed.

Lemma spread_other ph tags k :
  k ≠ "tags" → spread ph {[ "tags" := JArr tags ]} !! k = ph !! k.
Proof.
  intros Hk. unfold spread. rewrite lookup_union_r; [done|].
  by apply lookup_singleton_ne.
Qed.

Lemma tags_no_proto tags : ({[ "tags" := JArr tags ]} : photo) !! "__proto__" = None.
Proof. by apply lookup_singleton_ne. Qed.

Lemma addTag_run raw st ph old :
  normalize_tag raw ≠ "" →
  getPhoto (selected st) st = Some ph →
  spread_tags (ph !! "tags") = Ret old →
  addTag raw st =
    Ret (applyDraft {[ "tags" := JArr (set_order [] (old ++ [normalize_tag raw])) ]} st).
Proof.
  intros Ht Hph Hold. unfold addTag, selected_photo.
  by rewrite (bool_decide_eq_false_2 _ Ht), Hph, Hold.
Qed.

(** X2: when [getPhoto] resolves the selected id to a photo object whose
    [tags] can be iterated (an array, a string or a falsy value) and the
    input normalises to a non-empty tag, [addTag] leaves a tag list without
    duplicates that holds the normalised tag and exactly the tags there were;
    when the list had no duplicates, it is kept as it is if it has the tag,
    and gets the tag at its end otherwise.  No other field of the effective
    record changes. *)
Theorem addTag_adds_once raw st ph old :
  normalize_tag raw ≠ "" →
  getPhoto (selected st) st = Some (VRec ph) →
  spread_tags (ph !! "tags") = Ret old →
  ∃ st' ph',
    addTag raw st = Ret st'
    ∧ getPhoto (selected st') st' = Some (VRec ph')
    ∧ NoDup (tags_of ph')
    ∧ normalize_tag raw ∈ tags_of ph'
    ∧ (∀ t, t ∈ tags_of ph' ↔ t ∈ old ∨ t = normalize_tag raw)
    ∧ (NoDup old →
         tags_of ph' = if decide (normalize_tag raw ∈ old) then old
                       else old ++ [normalize_tag raw])
    ∧ (∀ k, k ≠ "tags" → ph' !! k = ph !! k).
Proof.
  intros Ht Hph Hold. eexists _, _.
  split; [by apply (addTag_run raw st (VRec ph) old)|].
  rewrite selected_applyDraft, getPhoto_applyDraft by apply tags_no_proto.
  unfold draft_base. rewrite Hph. cbn [fmap option_fmap option_map default props].
  split; [done|]. rewrite tags_of_spread.
  destruct (set_order_spec [] (old ++ [normalize_tag raw])) as [Hnd Hin].
  split_and!.
  - done.
  - apply Hin. split; [|apply not_elem_of_nil].
    apply elem_of_app. right. by left.
  - intros t. rewrite Hin, elem_of_app, list_elem_of_singleton.
    split; [tauto|]. intros H. split; [done|apply not_elem_of_nil].
  - intros Hnd'. rewrite set_order_snoc; [|done|intros ? _; apply not_elem_of_nil].
    destruct (decide (normalize_tag raw ∈ old)) as [H|H].
    + rewrite decide_True; [done|by left].
    + rewrite decide_False; [done|]. by intros [?|?%elem_of_nil].
  - intros k Hk. by apply spread_other.
Qed.

Lemma addTag_adds_once_witness :
  let st := selectPhoto "b" Scenario.loaded in
  ∃ st' ph',
    addTag "  Long Exposure " st = Ret st'
    ∧ getPhoto (selected st') st' = Some (VRec ph')
    ∧ NoDup (tags_of ph')
    ∧ normalize_tag "  Long Exposure " ∈ tags_of ph'
    ∧ (∀ t, t ∈ tags_of ph' ↔ t ∈ (@nil string) ∨ t = normalize_tag "  Long Exposure ")
    ∧ (NoDup (@nil string) →
         tags_of ph' = if decide (normalize_tag "  Long Exposure " ∈ (@nil string)) then []
                       else [] ++ [normalize_tag "  Long Exposure "])
    ∧ (∀ k, k ≠ "tags" → ph' !! k = Scenario.b !! k).
Proof.
  intros st.
  apply (addTag_adds_once "  Long Exposure " st Scenario.b []).
  - vm_compute. discriminate.
  - reflexivity.
  - reflexivity.
Defined.

(** X3: adding the same tag a second time leaves the store as the first
    [addTag] left it. *)
Theorem addTag_idempotent raw st st1 :
  addTag raw st = Ret st1 → addTag raw st1 = Ret st1.
Proof.
  unfold addTag at 1, selected_photo.
  destruct (decide (normalize_tag raw = "")) as [Ht|Ht].
  { rewrite (bool_decide_eq_true_2 _ Ht). intros [= <-].
    unfold addTag. by rewrite (bool_decide_eq_true_2 _ Ht). }
  rewrite (bool_decide_eq_false_2 _ Ht).
  destruct (getPhoto (selected st) st) as [ph|] eqn:Hph; [|done].
  destruct (spread_tags (ph !! "tags")) as [old|] eqn:Hold; [|done].
  intros [= <-].
  set (T := set_order [] (old ++ [normalize_tag raw])).
  set (e := spread (draft_base st) {[ "tags" := JArr T ]}).
  assert (getPhoto (selected (applyDraft {[ "tags" := JArr T ]} st))
            (applyDraft {[ "tags" := JArr T ]} st) = Some (VRec e)) as He.
  { rewrite selected_applyDraft. apply getPhoto_applyDraft, tags_no_proto. }
  rewrite (addTag_run raw _ (VRec e) T Ht He).
  2: { unfold e, spread. change (VRec ?r !! "tags") with (r !! "tags").
       by rewrite (lookup_union_Some_l _ _ _ (JArr T)) by apply lookup_singleton_eq. }
  f_equal.
  assert (set_order [] (T ++ [normalize_tag raw]) = T) as ->.
  { destruct (set_order_spec [] (old ++ [normalize_tag raw])) as [Hnd Hin].
    rewrite set_order_snoc; [|done|intros ? _; apply not_elem_of_nil].
    rewrite decide_True; [done|]. left. apply Hin.
    split; [|apply not_elem_of_nil]. apply elem_of_app. right. by left. }
  rewrite applyDraft_twice by apply tags_no_proto.
  assert (spread {["tags" := JArr T]} {["tags" := JArr T]}
          = ({["tags" := JArr T]} : photo)) as ->; [|done].
  unfold spread. by rewrite (idemp_L (∪)).
Qed.

Lemma addTag_idempotent_witness :
  let st := selectPhoto "b" Scenario.loaded in
  let st1 := applyDraft {[ "tags" := JArr ["sea"] ]} st in
  addTag "Sea" st = Ret st1 ∧ addTag "Sea" st1 = Ret st1.
Proof.
  intros st st1.
  assert (addTag "Sea" st = Ret st1) as H by reflexivity.
  split; [exact H|]. exact (addTag_idempotent "Sea" st st1 H).
Defined.

(** X4: [addTag] with an empty or all-whitespace input returns before it
    touches the store, even when no photo is selected. *)
Theorem addTag_blank_is_noop raw st :
  Forall (λ c, is_space c = true) (list_ascii_of_string raw) →
  addTag raw st = Ret st.
Proof.
  intros H. unfold addTag.
  assert (normalize_tag raw = "") as ->; [|done].
  unfold normalize_tag, normalize_chars, trim_chars.
  by rewrite (drop_spaces_blank _ H).
Qed.

Lemma addTag_blank_is_noop_witness :
  Forall (λ c, is_space c = true) (list_ascii_of_string "   ")
  ∧ addTag "   " initial_state = Ret initial_state.
Proof.
  split; [by repeat constructor|].
  apply (addTag_blank_is_noop "   " initial_state). by repeat constructor.
Defined.

Lemma removeTag_run tag st ph old :
  getPhoto (selected st) st = Some ph →
  tags_array (ph !! "tags") = Ret old →
  removeTag tag st =
    Ret (applyDraft {[ "tags" := JArr (filter (λ t, t ≠ tag) old) ]} st).
Proof. intros Hph Hold. unfold removeTag, selected_photo. by rewrite Hph, Hold. Qed.

(** X5: when [getPhoto] resolves the selected id to a photo object whose
    [tags] is an array or a falsy value, [removeTag] removes every occurrence
    of the tag and keeps the other tags in their order; a tag that is not
    there leaves the list as it is.  No other field of the effective record
    changes. *)
Theorem removeTag_removes_all tag st ph old :
  getPhoto (selected st) st = Some (VRec ph) →
  tags_array (ph !! "tags") = Ret old →
  ∃ st' ph',
    removeTag tag st = Ret st'
    ∧ getPhoto (selected st') st' = Some (VRec ph')
    ∧ tags_of ph' = filter (λ t, t ≠ tag) old
    ∧ (tag ∉ tags_of ph')
    ∧ (∀ t, t ≠ tag → (t ∈ tags_of ph' ↔ t ∈ old))
    ∧ (tag ∉ old → tags_of ph' = old)
    ∧ (∀ k, k ≠ "tags" → ph' !! k = ph !! k).
Proof.
  intros Hph Hold. eexists _, _.
  split; [by apply (removeTag_run tag st (VRec ph) old)|].
  rewrite selected_applyDraft, getPhoto_applyDraft by apply tags_no_proto.
  unfold draft_base. rewrite Hph. cbn [fmap option_fmap option_map default props].
  split; [done|]. rewrite tags_of_spread. split_and!.
  - done.
  - rewrite list_elem_of_filter. tauto.
  - intros t Ht. rewrite list_elem_of_filter. tauto.
  - intros Hn. clear Hold. induction old as [|x old IH]; [done|].
    rewrite filter_cons_True; [f_equal; apply IH|].
    + intros H. apply Hn. by right.
    + intros ->. apply Hn. by left.
  - intros k Hk. by apply spread_other.
Qed.

Lemma removeTag_removes_all_witness :
  let st := applyDraft {[ "tags" := JArr ["sea"; "fog"; "sea"] ]}
              (selectPhoto "b" Scenario.loaded) in
  ∃ st' ph',
    removeTag "sea" st = Ret st'
    ∧ getPhoto (selected st') st' = Some (VRec ph')
    ∧ tags_of ph' = filter (λ t, t ≠ "sea") ["sea"; "fog"; "sea"]
    ∧ ("sea" ∉ tags_of ph')
    ∧ (∀ t, t ≠ "sea" → (t ∈ tags_of ph' ↔ t ∈ ["sea"; "fog"; "sea"]))
    ∧ ("sea" ∉ ["sea"; "fog"; "sea"] → tags_of ph' = ["sea"; "fog"; "sea"])
    ∧ (∀ k, k ≠ "tags" →
         ph' !! k = spread Scenario.b {[ "tags" := JArr ["sea"; "fog"; "sea"] ]} !! k).
Proof.
  intros st.
  apply (removeTag_removes_all "sea" st
           (spread Scenario.b {[ "tags" := JArr ["sea"; "fog"; "sea"] ]})
           ["sea"; "fog"; "sea"]).
  - reflexivity.
  - reflexivity.
Defined.

(** * [esc] *)

Lemma string_app_cons a (s1 s2 : string) :
  String a s1 +:+ s2 = String a (s1 +:+ s2).
Proof. reflexivity. Qed.

Lemma string_app_assoc (s1 s2 s3 : string) :
  (s1 +:+ s2) +:+ s3 = s1 +:+ (s2 +:+ s3).
Proof.
  induction s1 as [|a s1 IH]; [done|]. rewrite !string_app_cons. by f_equal.
Qed.

Lemma replace_char_app c r s1 s2 :
  replace_char c r (s1 +:+ s2) = replace_char c r s1 +:+ replace_char c r s2.
Proof.
  induction s1 as [|a s1 IH]; [done|].
  rewrite string_app_cons. cbn [replace_char]. rewrite IH.
  destruct (bool_decide (a = c)); [|done].
  by rewrite string_app_assoc.
Qed.

Lemma esc_one_pass s : esc s = esc_chars s.
Proof.
  unfold esc. induction s as [|a s IH]; [done|].
  cbn [replace_char esc_chars]. unfold esc_char.
  destruct (decide (a = "&"%char)) as [->|H1].
  { rewrite !bool_decide_eq_true_2 by done.
    rewrite !replace_char_app, IH. done. }
  rewrite (bool_decide_eq_false_2 _ H1). cbn [replace_char].
  destruct (decide (a = "<"%char)) as [->|H2].
  { rewrite !bool_decide_eq_true_2 by done.
    rewrite !replace_char_app, IH. done. }
  rewrite (bool_decide_eq_false_2 _ H2). cbn [replace_char].
  destruct (decide (a = ">"%char)) as [->|H3].
  { rewrite !bool_decide_eq_true_2 by done.
    rewrite !replace_char_app, IH. done. }
  rewrite (bool_decide_eq_false_2 _ H3). cbn [replace_char].
  destruct (decide (a = dquote)) as [->|H4].
  { rewrite !bool_decide_eq_true_2 by done. by rewrite IH. }
  rewrite (bool_decide_eq_false_2 _ H4). by rewrite IH.
Qed.

Lemma esc_char_cases a :
  (a = "&"%char ∧ esc_char a = "&amp;")
  ∨ (a = "<"%char ∧ esc_char a = "&lt;")
  ∨ (a = ">"%char ∧ esc_char a = "&gt;")
  ∨ (a = dquote ∧ esc_char a = "&quot;")
  ∨ (a ≠ "&"%char ∧ a ≠ "<"%char ∧ a ≠ ">"%char ∧ a ≠ dquote
     ∧ esc_char a = String a "").
Proof.
  unfold esc_char.
  destruct (decide (a = "&"%char)) as [->|H1]; [by left|].
  rewrite (bool_decide_eq_false_2 _ H1).
  destruct (decide (a = "<"%char)) as [->|H2]; [by right; left|].
  rewrite (bool_decide_eq_false_2 _ H2).
  destruct (decide (a = ">"%char)) as [->|H3]; [by right; right; left|].
  rewrite (bool_decide_eq_false_2 _ H3).
  destruct (decide (a = dquote)) as [->|H4]; [by right; right; right; left|].
  rewrite (bool_decide_eq_false_2 _ H4). by repeat right.
Qed.

(** X8: the result of [esc] holds no ["<"], no [">"] and no double quote,
    whatever the input. *)
Theorem esc_leaves_no_markup s c :
  c ∈ list_ascii_of_string (esc s) →
  c ≠ "<"%char ∧ c ≠ ">"%char ∧ c ≠ dquote.
Proof.
  rewrite esc_one_pass. induction s as [|a s IH]; simpl.
  { by intros ?%elem_of_nil. }
  destruct (esc_char_cases a) as [[_ ->]|[[_ ->]|[[_ ->]|[[_ ->]|(?&?&?&?& ->)]]]];
    simpl; intros Hc;
    repeat (apply elem_of_cons in Hc as [->|Hc]; [done|]); by apply IH.
Qed.

Lemma esc_leaves_no_markup_witness :
  "&"%char ∈ list_ascii_of_string (esc (String dquote "<b>"))
  ∧ "&"%char ≠ "<"%char ∧ "&"%char ≠ ">"%char ∧ "&"%char ≠ dquote.
Proof.
  assert ("&"%char ∈ list_ascii_of_string (esc (String dquote "<b>"))) as H.
  { apply list_elem_of_In. vm_compute. left. reflexivity. }
  split; [exact H|]. exact (esc_leaves_no_markup _ _ H).
Defined.

(** X9: [esc] loses nothing: two strings with the same escaped form are the
    same string. *)
Theorem esc_injective s1 s2 : esc s1 = esc s2 → s1 = s2.
Proof.
  rewrite !esc_one_pass. revert s2. induction s1 as [|a s1 IH]; intros [|b s2]; simpl.
  - done.
  - by destruct (esc_char_cases b) as [[_ ->]|[[_ ->]|[[_ ->]|[[_ ->]|(?&?&?&?& ->)]]]].
  - by destruct (esc_char_cases a) as [[_ ->]|[[_ ->]|[[_ ->]|[[_ ->]|(?&?&?&?& ->)]]]].
  - destruct (esc_char_cases a) as [[-> ->]|[[-> ->]|[[-> ->]|[[-> ->]|(?&?&?&?& ->)]]]];
    destruct (esc_char_cases b) as [[-> ->]|[[-> ->]|[[-> ->]|[[-> ->]|(?&?&?&?& ->)]]]];
      cbn; intros Heq; simplify_eq; try done; f_equal; by apply IH.
Qed.

Lemma esc_injective_witness :
  esc "a&b" = esc (String "a" (String "&" "b")) ∧ "a&b" = String "a" (String "&" "b").
Proof.
  split; [reflexivity|]. apply (esc_injective "a&b" (String "a" (String "&" "b"))).
  reflexivity.
Defined.

(** * The publish button *)

Section Button.
Variable server : remote.

(** X10: [updatePublishBtn] disables the button exactly in the stores for
    which [publishToGitHub] shows "No changes to publish." and sends
    nothing; the badge is then hidden, and otherwise shows the count. *)
Theorem button_matches_publish st tl :
  (btn_disabled (updatePublishBtn st) = true
   ↔ publishToGitHub server (mkWorld st tl) = (Ret nothing_to_publish, mkWorld st tl))
  ∧ (btn_disabled (updatePublishBtn st) = true
     ↔ badge_display (updatePublishBtn st) = "none")
  ∧ (btn_disabled (updatePublishBtn st) = false
     → badge_text (updatePublishBtn st) = pretty (pendingChangeCount st) +:+ " unsaved").
Proof.
  unfold updatePublishBtn. cbn [btn_disabled badge_display badge_text].
  fold (pendingChangeCount st). split_and!.
  - rewrite bool_decide_eq_true. split.
    + intros H. by apply publish_nothing.
    + intros H. apply publish_inv in H as (t & [= <-] & Hr).
      inversion Hr; subst; try done; discriminate.
  - rewrite bool_decide_eq_true. destruct (decide (pendingChangeCount st = 0)) as [->|H].
    + done.
    + rewrite bool_decide_eq_true_2 by lia. done.
  - intros H%bool_decide_eq_false. by rewrite bool_decide_eq_true_2 by lia.
Qed.
End Button.

(** * How the store operations compose *)

Lemma selectPhoto_selected id st : selected st = Some id → selectPhoto id st = st.
Proof. destruct st. cbn. by intros ->. Qed.

(** With [__proto__] selected, a first partial change that has an own
    [__proto__] property becomes the prototype of [state.dirty] and answers
    the next lookup of [__proto__] with that property's value: the second
    edit is then stored as an own property, over the characters of that
    value, where the single edit replaces the prototype. *)
Example stageEdit_twice_own_proto :
  let p1 : photo := {[ "__proto__" := JStr "x" ]} in
  let p2 : photo := {[ "title" := JStr "T" ]} in
  let two := stageEdit "__proto__" p2 (stageEdit "__proto__" p1 Scenario.loaded) in
  let one := stageEdit "__proto__" (spread p1 p2) Scenario.loaded in
  dirty two = {[ "__proto__" := spread {[ "0" := JStr "x" ]} p2 ]}
  ∧ dirtyProto two = Some p1
  ∧ dirty one = ∅
  ∧ dirtyProto one = Some (spread p1 p2).
Proof. cbv zeta. split_and!; reflexivity. Qed.

(** X11: two edits staged in a row on the same photo amount to one edit
    with the second partial change spread over the first, when the first
    has no own [__proto__] property (no object the handlers build has
    one). *)
Theorem stageEdit_twice pid p1 p2 st :
  p1 !! "__proto__" = None →
  stageEdit pid p2 (stageEdit pid p1 st) = stageEdit pid (spread p1 p2) st.
Proof.
  intros Hp1. unfold stageEdit.
  rewrite (selectPhoto_selected pid (applyDraft p1 (selectPhoto pid st))).
  - by apply applyDraft_twice.
  - by rewrite selected_applyDraft.
Qed.

Lemma stageEdit_twice_witness :
  Scenario.retitle !! "__proto__" = None
  ∧ stageEdit "a" {[ "featured" := JBool true ]} (stageEdit "a" Scenario.retitle Scenario.loaded)
    = stageEdit "a" (spread Scenario.retitle {[ "featured" := JBool true ]}) Scenario.loaded.
Proof.
  split; [reflexivity|].
  apply (stageEdit_twice "a" Scenario.retitle {[ "featured" := JBool true ]}
           Scenario.loaded).
  reflexivity.
Defined.

(** A lookup in a [state.dirty] whose prototype is [Object.prototype], under
    a name [Object.prototype] does not answer to, finds own properties
    only. *)
Lemma dirty_get_plain k st :
  dirtyProto st = None → k ∉ prototype_keys →
  dirty_get k st = VRec <$> dirty st !! k.
Proof.
  intros Hp Hk. unfold dirty_get. rewrite Hp.
  destruct (dirty st !! k); [done|]. simpl. unfold inherited.
  rewrite bool_decide_eq_false_2.
  2: { intros ->. apply Hk. by left. }
  rewrite bool_decide_eq_false_2; [done|].
  intros Hin. apply Hk. by right.
Qed.

(** X12: [revert] removes the own overlay entry whatever was staged in it.
    For an id that is no name of [Object.prototype], in a [state.dirty] whose
    prototype is [Object.prototype], the effective record is again the photo
    of [state.photos]; on an id other than [__proto__] that had no entry, an
    edit followed by [revert] gives back the store, with the photo selected;
    and reverting twice is reverting once. *)
Theorem revert_discards_edits id st :
  dirty (revert id st) !! id = None
  ∧ (dirtyProto st = None → id ∉ prototype_keys →
       getPhoto (Some id) (revert id st) = find_photo (Some id) st)
  ∧ (dirty st !! id = None → id ≠ "__proto__" →
       ∀ p, revert id (stageEdit id p st) = selectPhoto id st)
  ∧ revert id (revert id st) = revert id st.
Proof.
  split_and!.
  - unfold revert. cbn [dirty set_dirty]. apply lookup_delete_eq.
  - intros Hp Hk. unfold getPhoto. cbn [sel_key].
    rewrite dirty_get_plain by done.
    unfold revert. cbn [dirty set_dirty]. by rewrite lookup_delete_eq.
  - intros Hn Hk p. unfold stageEdit. rewrite applyDraft_unfold. unfold dirty_set.
    assert (reaches_setter (sel_key (selected (selectPhoto id st))) (selectPhoto id st)
            = false) as ->.
    { unfold reaches_setter. cbn [selectPhoto set_selected selected sel_key].
      by rewrite (bool_decide_eq_false_2 _ Hk). }
    unfold revert, selectPhoto.
    cbn [selected set_selected dirty set_dirty sel_key].
    rewrite delete_insert_eq, (delete_id _ _ Hn). by destruct st.
  - unfold revert. cbn [dirty set_dirty]. by rewrite delete_delete_eq.
Qed.

Lemma find_photo_unique st ids p i :
  has_ids (photos st) ids → NoDup ids →
  p ∈ photos st → photo_id p = Some (JStr i) →
  find_photo (Some i) st = Some p.
Proof.
  unfold find_photo. generalize (photos st). clear st.
  intros l. revert ids. induction l as [|q l IH]; intros ids Hids Hnd Hp Hi.
  { by apply elem_of_nil in Hp. }
  apply has_ids_cons in Hids as (j & ids' & -> & Hq & Hl).
  apply NoDup_cons in Hnd as [Hj Hnd]. cbn [find].
  apply elem_of_cons in Hp as [->|Hp].
  - by rewrite (proj2 (id_is_true i q) Hi).
  - destruct (id_is (Some i) q) eqn:E; [|by eapply IH].
    apply id_is_true in E. assert (j = i) as -> by congruence.
    destruct (has_ids_elem _ _ _ Hl Hp) as (i' & Hi' & Hin). congruence.
Qed.

(** After an edit staged while [__proto__] was selected, [state.dirty]
    inherits the fields of that edit: a photo whose id is the name of a field
    holding the empty string is published as that string ([??] keeps it)
    while the panel shows the photo ([||] skips it). *)
Example panel_differs_on_falsy_lookup :
  let st := stageEdit "__proto__" {[ "a" := JStr "" ]} Scenario.loaded in
  has_ids (photos st) ["a"; "b"]
  ∧ dirty_get "a" st = Some (VStr "")
  ∧ getPhoto (Some "a") st = Some (VRec Scenario.a_old)
  ∧ merged st = [VStr ""; VRec Scenario.b].
Proof. cbv zeta. split_and!; reflexivity. Qed.

(** X13: when the photos have distinct string ids and no lookup of an id
    in [state.dirty] gives a falsy value (none does unless an edit was staged
    while [__proto__] was selected), the element written for each id by a
    publish is the value [getPhoto] returns for that id: the panel shows what
    will be published. *)
Theorem panel_shows_what_is_published st ids :
  has_ids (photos st) ids →
  NoDup ids →
  (∀ i v, i ∈ ids → dirty_get i st = Some v → truthy v = true) →
  Forall2 (λ i q, getPhoto (Some i) st = Some q) ids (merged st).
Proof.
  intros Hids Hnd Htr.
  assert (∀ p, p ∈ photos st → ∃ i, photo_id p = Some (JStr i)
            ∧ getPhoto (Some i) st
              = Some (default p (dirty_get (to_key (photo_id p)) st))) as Hget.
  { intros p Hp. destruct (has_ids_elem _ _ _ Hids Hp) as (i & Hi & Hin).
    exists i. split; [done|]. unfold getPhoto. rewrite Hi. cbn [to_key sel_key].
    destruct (dirty_get i st) as [v|] eqn:Ev; simpl.
    - by rewrite (Htr i v Hin Ev).
    - by eapply find_photo_unique. }
  unfold merged. unfold has_ids in Hids. clear Hnd Htr.
  revert ids Hids Hget. induction (photos st) as [|p l IH]; intros ids Hids Hget.
  { destruct ids; [constructor|done]. }
  destruct ids as [|i ids]; [done|]. simpl in Hids. injection Hids as Hp Hl.
  simpl. constructor.
  - destruct (Hget p) as (j & Hj & Hg); [by left|]. congruence.
  - apply IH; [done|]. intros q Hq. apply Hget. by right.
Qed.

Lemma panel_shows_what_is_published_witness :
  has_ids (photos Scenario.edited) ["a"; "b"]
  ∧ Forall2 (λ i q, getPhoto (Some i) Scenario.edited = Some q) ["a"; "b"]
      (merged Scenario.edited).
Proof.
  split; [reflexivity|].
  apply (panel_shows_what_is_published Scenario.edited ["a"; "b"]).
  - reflexivity.
  - apply (bool_decide_unpack _). vm_compute. exact I.
  - intros i v Hi. repeat (apply elem_of_cons in Hi as [->|Hi]).
    + vm_compute. by intros [= <-].
    + vm_compute. discriminate.
    + by apply elem_of_nil in Hi.
Defined.

Section PublishComposition.
Variables server server2 : remote.

(** X14: after a publish that ended with "Published!", a second publish,
    against any server, shows "No changes to publish." and sends nothing. *)
Theorem publish_again_sends_nothing w w' :
  publishToGitHub server w = (Ret published, w') →
  publishToGitHub server2 w' = (Ret nothing_to_publish, w').
Proof.
  intros H. apply publish_inv in H as (t & [= <-] & Hr).
  inversion Hr; subst; try discriminate.
  by apply publish_nothing.
Qed.

(** What an attempt that called [ghGetFile] has done before. *)
Lemma reached_reread w o w' evs :
  publishToGitHub server w = (o, w') →
  timeline w' = timeline w ++ evs →
  CallGetFile "photos.json" ∈ evs →
  calls_deleted evs = flat_map local_paths (pendingDeletes (store w))
  ∧ (o ≠ Ret published → store w' = store w).
Proof.
  intros H Htl Hin. apply publish_inv in H as (t & -> & Hr).
  assert (∀ del, Forall deletion_event del → CallGetFile "photos.json" ∉ del) as Hno.
  { intros del Hdel Hd. rewrite Forall_forall in Hdel. by apply Hdel in Hd. }
  destruct (deletion_phase_runs server (pendingDeletes (store w)) (timeline w))
    as (od & del & Hd & Hdel & _ & Hall & _).
  inversion Hr as [H0|msg evs' _ Hd' Ht|evs' _ Hd' Hf Ht|evs' doc s0 _ Hd' Hg Hf Ht
                   |evs' doc s0 doc' s' _ Hd' Hg Hw Ht]; subst;
    cbn [timeline store] in *.
  - apply app_eq_self in Htl. subst. by apply elem_of_nil in Hin.
  - destruct (runs_det _ _ _ _ _ _ Hd Hd') as [_ <-].
    apply app_inv_head in Htl. subst. by apply Hno in Hin.
  - destruct (runs_det _ _ _ _ _ _ Hd Hd') as [-> <-].
    apply app_inv_head in Htl. subst.
    rewrite calls_deleted_app, Hall by done. by rewrite app_nil_r.
  - destruct (runs_det _ _ _ _ _ _ Hd Hd') as [-> <-].
    apply app_inv_head in Htl. subst.
    rewrite calls_deleted_app, Hall by done. by rewrite app_nil_r.
  - destruct (runs_det _ _ _ _ _ _ Hd Hd') as [-> <-].
    apply app_inv_head in Htl. subst.
    rewrite calls_deleted_app, Hall by done. by rewrite app_nil_r.
Qed.

End PublishComposition.

Lemma publish_again_sends_nothing_witness :
  let w := mkWorld Scenario.edited [] in
  let w' := (publishToGitHub Scenario.steady w).2 in
  publishToGitHub Scenario.steady w = (Ret published, w')
  ∧ publishToGitHub Scenario.contended w' = (Ret nothing_to_publish, w').
Proof.
  intros w w'.
  assert (publishToGitHub Scenario.steady w = (Ret published, w')) as H
    by reflexivity.
  split; [exact H|].
  exact (publish_again_sends_nothing Scenario.steady Scenario.contended w w' H).
Defined.

(** X15: a publish attempt that got as far as the re-read and failed leaves
    the pending deletions in place, so the next attempt that gets as far
    calls [ghDeleteFile] again for the same paths, in the same order. *)
Theorem retry_repeats_delete_calls server server2 w msg w1 evs1 o w2 evs2 :
  publishToGitHub server w = (Ret (publish_failed msg), w1) →
  timeline w1 = timeline w ++ evs1 →
  CallGetFile "photos.json" ∈ evs1 →
  publishToGitHub server2 w1 = (o, w2) →
  timeline w2 = timeline w1 ++ evs2 →
  CallGetFile "photos.json" ∈ evs2 →
  calls_deleted evs2 = calls_deleted evs1
  ∧ calls_deleted evs1 = flat_map local_paths (pendingDeletes (store w)).
Proof.
  intros H1 Ht1 Hin1 H2 Ht2 Hin2.
  destruct (reached_reread server w _ w1 evs1 H1 Ht1 Hin1) as [Hc1 Hs1].
  destruct (reached_reread server2 w1 _ w2 evs2 H2 Ht2 Hin2) as [Hc2 _].
  rewrite Hs1 in Hc2 by discriminate. split; congruence.
Qed.

Lemma retry_repeats_delete_calls_witness :
  let w := mkWorld Samples.b_deleted [] in
  let w1 := (publishToGitHub Scenario.contended w).2 in
  let w2 := (publishToGitHub Scenario.steady w1).2 in
  let evs1 := timeline w1 in
  let evs2 := drop (length evs1) (timeline w2) in
  calls_deleted evs1 = ["photos/uploads/b.jpg"; "photos/thumbs/b.jpg"]
  ∧ calls_deleted evs2 = calls_deleted evs1
  ∧ calls_deleted evs1 = flat_map local_paths (pendingDeletes (store w)).
Proof.
  intros w w1 w2 evs1 evs2. split; [reflexivity|].
  apply (retry_repeats_delete_calls Scenario.contended Scenario.steady w
           "GitHub: photos.json does not match" w1 evs1 (Ret published) w2 evs2).
  - reflexivity.
  - reflexivity.
  - apply list_elem_of_In. vm_compute. do 6 right. left. reflexivity.
  - reflexivity.
  - reflexivity.
  - apply list_elem_of_In. vm_compute. do 6 right. left. reflexivity.
Defined.

Section DeletionPhase.
Variable server : remote.

(** X16: when no DELETE request is rejected by the network and the [src]
    and [thumb] of the pending photos are strings or falsy, a publish attempt
    with something staged always gets to the re-read of [photos.json]:
    missing files, refused lookups and refused deletions do not stop it. *)
Theorem publish_survives_refused_deletions w o w' :
  0 < pendingChangeCount (store w) →
  (∀ msg, ¬ delete_rejected server msg) →
  (∀ ph msg, ph ∈ pendingDeletes (store w) →
     isLocal (ph !! "src") ≠ Throw msg ∧ isLocal (ph !! "thumb") ≠ Throw msg) →
  publishToGitHub server w = (o, w') →
  ∃ del rest,
    timeline w' = timeline w ++ del ++ reread_events ++ rest
    ∧ Forall deletion_event del
    ∧ calls_deleted del = flat_map local_paths (pendingDeletes (store w)).
Proof.
  intros Hp Hnet Hstr H. apply publish_inv in H as (t & -> & Hr).
  destruct (deletion_phase_completes server (pendingDeletes (store w)) (timeline w)
              Hnet Hstr) as (del & Hd).
  destruct (deletion_phase_runs server (pendingDeletes (store w)) (timeline w))
    as (od & del' & Hd' & Hdel & _ & Hall & _).
  destruct (runs_det _ _ _ _ _ _ Hd Hd') as [<- <-].
  inversion Hr as [H0|msg evs' _ Hd2 Ht|evs' _ Hd2 Hf Ht|evs' doc s0 _ Hd2 Hg Hf Ht
                   |evs' doc s0 doc' s' _ Hd2 Hg Hw Ht]; subst; cbn [timeline].
  - lia.
  - by destruct (runs_det _ _ _ _ _ _ Hd Hd2) as [? _].
  - destruct (runs_det _ _ _ _ _ _ Hd Hd2) as [_ <-].
    exists del, []. rewrite app_nil_r. auto.
  - destruct (runs_det _ _ _ _ _ _ Hd Hd2) as [_ <-].
    exists del, (write_events (json_of (merged (store w))) s0). auto.
  - destruct (runs_det _ _ _ _ _ _ Hd Hd2) as [_ <-].
    exists del, (write_events (json_of (merged (store w))) s0). auto.
Qed.

(** X17: [ghDeleteFile] sends the DELETE request only when the SHA lookup
    of the same path was answered with a SHA, and puts that SHA in it; a
    lookup answered otherwise ends the call after that one request, without
    an error; the call throws only when the DELETE request is rejected. *)
Theorem ghDeleteFile_deletes_what_it_looked_up path message tl :
  let lookup := server (tl ++ [CallDeleteFile path]) (ReqGet path) in
  ∃ o evs,
    runs (ghDeleteFile server path message) tl o evs
    ∧ ((failed lookup ∧ o = Ret tt
        ∧ evs = [CallDeleteFile path; Fetch (ReqGet path)])
       ∨ ∃ doc s,
           lookup = OkJson doc s
           ∧ evs = [CallDeleteFile path; Fetch (ReqGet path);
                    Fetch (ReqDelete path s message)]
           ∧ (o = Ret tt
              ∨ ∃ msg, o = Throw msg
                  ∧ server (tl ++ [CallDeleteFile path; Fetch (ReqGet path)])
                      (ReqDelete path s message) = FetchReject msg)).
Proof.
  intros lookup. unfold lookup.
  unfold runs, ghDeleteFile, log, try_catch, fetch, mbind, M_bind, bind, ret, throw.
  cbn [store timeline].
  destruct (server (tl ++ [CallDeleteFile path]) (ReqGet path)) as [m|m|m|doc s] eqn:E1;
    cbn [store timeline].
  1-3: (exists (Ret tt), [CallDeleteFile path; Fetch (ReqGet path)];
        split; [intros st; by rewrite <- ?app_assoc|by left]).
  destruct (server ((tl ++ [CallDeleteFile path]) ++ [Fetch (ReqGet path)])
              (ReqDelete path s message)) as [m| | |] eqn:E2;
    rewrite <- app_assoc in E2; cbn [app] in E2.
  2-4: (eexists (Ret tt), _; split;
        [intros st; by rewrite <- !app_assoc|right; eauto 10]).
  eexists (Throw m), _. split; [intros st; by rewrite <- !app_assoc|].
  right. eauto 10.
Qed.

End DeletionPhase.

Lemma publish_survives_refused_deletions_witness :
  let w := mkWorld Samples.b_deleted [] in
  let w' := (publishToGitHub Samples.files_gone w).2 in
  timeline w' =
    [CallDeleteFile "photos/uploads/b.jpg"; Fetch (ReqGet "photos/uploads/b.jpg");
     CallDeleteFile "photos/thumbs/b.jpg"; Fetch (ReqGet "photos/thumbs/b.jpg")]
    ++ reread_events ++ write_events [JObject Scenario.a_old] "v1"
  ∧ ∃ del rest,
      timeline w' = timeline w ++ del ++ reread_events ++ rest
      ∧ Forall deletion_event del
      ∧ calls_deleted del = flat_map local_paths (pendingDeletes (store w)).
Proof.
  intros w w'. split; [reflexivity|].
  apply (publish_survives_refused_deletions Samples.files_gone w (Ret published) w').
  - vm_compute; lia.
  - intros msg (tl & p & s & m & H). discriminate.
  - intros ph msg Hin. apply list_elem_of_In in Hin. simpl in Hin.
    destruct Hin as [<-|[]]. split; discriminate.
  - reflexivity.
Defined.


(** * More on the batch processor *)

Module SlugFacts.
Import Processor.

Lemma is_alnum_not_hyphen c : is_alnum c = true → c ≠ "-"%char.
Proof. by destruct c as [[] [] [] [] [] [] [] []]. Qed.

Lemma is_alnum_not_dot c : is_alnum c = true → is_dot c = false.
Proof. by destruct c as [[] [] [] [] [] [] [] []]. Qed.

Lemma is_alnum_lower c : is_alnum c = true → lower c = c.
Proof. by destruct c as [[] [] [] [] [] [] [] []]. Qed.

Lemma is_hyphen_true c : is_hyphen c = true ↔ c = "-"%char.
Proof. unfold is_hyphen. apply bool_decide_eq_true. Qed.

(** The shape of [hyphenate]'s result: letters, digits and single hyphens;
    in a run, no hyphen comes first. *)
Lemma hyphenate_shape b l :
  Forall (λ c, is_alnum c = true ∨ c = "-"%char) (hyphenate b l)
  ∧ (∀ l1 l2, hyphenate b l ≠ l1 ++ "-"%char :: "-"%char :: l2)
  ∧ (b = true → ∀ r, hyphenate b l ≠ "-"%char :: r).
Proof.
  revert b. induction l as [|c l IH]; intros b; simpl.
  { split_and!; [constructor|by intros [|? ?] ?|done]. }
  destruct (is_alnum c) eqn:Ec.
  - destruct (IH false) as (Hf & Hd & _). split_and!.
    + constructor; [by left|done].
    + intros [|x l1] l2 Heq; simplify_eq/=;
        first [done|by apply (Hd l1 l2)].
    + intros _ r [= H1 _]. by apply is_alnum_not_hyphen in Ec.
  - destruct (IH true) as (Hf & Hd & Hl). destruct b.
    + done.
    + split_and!; [constructor; [by right|done]| |done].
      intros [|x l1] l2 Heq; simplify_eq/=;
        first [done|by apply (Hl eq_refl l2)|by apply (Hd l1 l2)].
Qed.

Lemma drop_hyphens_suffix l : ∃ k, l = k ++ drop_hyphens l.
Proof.
  induction l as [|c l [k IH]]; [by exists []|]. simpl.
  destruct (is_hyphen c); [|by exists []].
  exists (c :: k). simpl. by f_equal.
Qed.

Lemma drop_hyphens_head l r : drop_hyphens l ≠ "-"%char :: r.
Proof.
  induction l as [|c l IH]; [done|]. simpl.
  destruct (is_hyphen c) eqn:E; [done|].
  intros [= -> _]. by rewrite (proj2 (is_hyphen_true _) eq_refl) in E.
Qed.

Lemma drop_hyphens_clean l : (∀ r, l ≠ "-"%char :: r) → drop_hyphens l = l.
Proof.
  destruct l as [|c l]; [done|]. intros H. simpl.
  destruct (is_hyphen c) eqn:E; [|done].
  apply is_hyphen_true in E as ->. by destruct (H l).
Qed.

(** [trim_hyphens l] is a stretch of [l] with no hyphen at either end. *)
Lemma trim_hyphens_spec l :
  ∃ k1 k2,
    l = k1 ++ trim_hyphens l ++ k2
    ∧ (∀ r, trim_hyphens l ≠ "-"%char :: r)
    ∧ (∀ r, trim_hyphens l ≠ r ++ ["-"%char]).
Proof.
  unfold trim_hyphens.
  destruct (drop_hyphens_suffix l) as [k1 H1].
  destruct (drop_hyphens_suffix (rev (drop_hyphens l))) as [k2 H2].
  set (m := drop_hyphens (rev (drop_hyphens l))) in *.
  assert (drop_hyphens l = rev m ++ rev k2) as H3.
  { rewrite <- rev_app_distr, <- H2. by rewrite rev_involutive. }
  exists k1, (rev k2). split_and!.
  - by rewrite <- H3.
  - intros r Hr. rewrite Hr in H3. simpl in H3.
    by apply (drop_hyphens_head l (r ++ rev k2)).
  - intros r Hr. apply (f_equal (@rev ascii)) in Hr.
    rewrite rev_involutive, rev_app_distr in Hr. simpl in Hr.
    by apply (drop_hyphens_head (rev (drop_hyphens l)) (rev r)).
Qed.

Lemma slug_chars name :
  list_ascii_of_string (slugify name)
  = trim_hyphens (hyphenate false (strip_ext (map lower (list_ascii_of_string name)))).
Proof. unfold slugify. apply list_ascii_of_string_of_list_ascii. Qed.

Lemma strip_ext_clean l : Forall (λ c, is_dot c = false) l → strip_ext l = l.
Proof. induction 1 as [|c l Hc _ IH]; [done|]. simpl. by rewrite Hc, IH. Qed.

Lemma hyphenate_clean b l :
  Forall (λ c, is_alnum c = true ∨ c = "-"%char) l →
  (∀ l1 l2, l ≠ l1 ++ "-"%char :: "-"%char :: l2) →
  (b = true → ∀ r, l ≠ "-"%char :: r) →
  hyphenate b l = l.
Proof.
  intros H. revert b. induction H as [|c l Hc _ IH]; intros b Hd Hl; [done|].
  simpl. destruct Hc as [Hc| ->].
  - rewrite Hc. f_equal. apply IH; [|done].
    intros l1 l2 ->. by apply (Hd (c :: l1) l2).
  - replace (is_alnum "-") with false by done.
    destruct b; [by destruct (Hl eq_refl l)|].
    f_equal. apply IH.
    + intros l1 l2 ->. by apply (Hd ("-"%char :: l1) l2).
    + intros _ r ->. by apply (Hd [] r).
Qed.

End SlugFacts.

Lemma slugify_shape_aux name :
  let slug := list_ascii_of_string (Processor.slugify name) in
  Forall (λ c, Processor.is_alnum c = true ∨ c = "-"%char) slug
  ∧ (∀ r, slug ≠ "-"%char :: r)
  ∧ (∀ r, slug ≠ r ++ ["-"%char])
  ∧ (∀ l1 l2, slug ≠ l1 ++ "-"%char :: "-"%char :: l2).
Proof.
  intros slug. unfold slug. rewrite SlugFacts.slug_chars.
  set (h := Processor.hyphenate false _).
  destruct (SlugFacts.hyphenate_shape false
              (Processor.strip_ext (map Processor.lower (list_ascii_of_string name))))
    as (Hf & Hd & _). fold h in Hf, Hd.
  destruct (SlugFacts.trim_hyphens_spec h) as (k1 & k2 & Hh & Hlead & Htrail).
  split_and!; [|done|done|].
  - rewrite Hh in Hf. apply Forall_app in Hf as [_ Hf].
    by apply Forall_app in Hf as [Hf _].
  - intros l1 l2 Heq. apply (Hd (k1 ++ l1) (l2 ++ k2)).
    rewrite Hh at 1. rewrite Heq. by rewrite <- !app_assoc.
Qed.

(** X18: a slug is made of lower-case ASCII letters, digits and hyphens,
    neither starts nor ends with a hyphen, and has no two hyphens in a
    row. *)
Theorem slugify_shape name :
  let slug := list_ascii_of_string (Processor.slugify name) in
  Forall (λ c, Processor.is_alnum c = true ∨ c = "-"%char) slug
  ∧ (∀ r, slug ≠ "-"%char :: r)
  ∧ (∀ r, slug ≠ r ++ ["-"%char])
  ∧ (∀ l1 l2, slug ≠ l1 ++ "-"%char :: "-"%char :: l2).
Proof. apply slugify_shape_aux. Qed.

(** X19: the slug of a slug is that slug. *)
Theorem slugify_idempotent name :
  Processor.slugify (Processor.slugify name) = Processor.slugify name.
Proof.
  destruct (slugify_shape_aux name) as (Hf & Hlead & Htrail & Hd).
  unfold Processor.slugify at 1. set (s := list_ascii_of_string (Processor.slugify name)) in *.
  assert (map Processor.lower s = s) as ->.
  { clear -Hf. induction Hf as [|c l [Hc| ->] _ IH]; [done| |]; simpl.
    - by rewrite (SlugFacts.is_alnum_lower _ Hc), IH.
    - by rewrite IH. }
  rewrite SlugFacts.strip_ext_clean.
  2: { eapply Forall_impl; [exact Hf|]. intros c [Hc| ->]; [|done].
       by apply SlugFacts.is_alnum_not_dot. }
  rewrite (SlugFacts.hyphenate_clean false s Hf Hd) by done.
  unfold Processor.trim_hyphens. rewrite (SlugFacts.drop_hyphens_clean s Hlead).
  rewrite SlugFacts.drop_hyphens_clean.
  - rewrite rev_involutive. unfold s. apply string_of_list_ascii_of_string.
  - intros r Hr. apply (Htrail (rev r)).
    rewrite <- (rev_involutive s), Hr. done.
Qed.

Module LoopFacts.
Import Processor.

Lemma process_files_cons img f files ls :
  process_files img (f :: files) ls = process_files img files (process_file img f ls).
Proof. done. Qed.

(** Where the entries of the loop come from. *)
Lemma process_files_origin img files ls e :
  e ∈ newEntries (process_files img files ls) →
  e ∈ newEntries ls
  ∨ ∃ f pr, f ∈ files ∧ img f = Some pr ∧ e = entry f (slugify f) pr.
Proof.
  revert ls. induction files as [|f files IH]; intros ls; [by left|].
  rewrite process_files_cons. intros [He|(g & pr & Hg & Hi & ->)]%IH.
  - unfold process_file in He. destruct (bool_decide _); [by left|].
    destruct (img f) as [pr|] eqn:Ef; [|by left].
    cbn [newEntries] in He. apply elem_of_app in He as [He|He]; [by left|].
    apply list_elem_of_singleton in He as ->.
    right. exists f, pr. split_and!; [by left|done|done].
  - right. exists g, pr. split_and!; [by right|done|done].
Qed.

(** The two counters of the summary line. *)
Lemma process_files_counters img files ls :
  (processed (process_files img files ls) + length (newEntries ls)
   = processed ls + length (newEntries (process_files img files ls)))%nat
  ∧ (processed (process_files img files ls) + skipped (process_files img files ls)
     ≤ processed ls + skipped ls + length files)%nat
  ∧ ((∀ f, f ∈ files → img f ≠ None) →
     (processed (process_files img files ls) + skipped (process_files img files ls)
      = processed ls + skipped ls + length files)%nat).
Proof.
  revert ls. induction files as [|f files IH]; intros ls.
  { simpl. split_and!; [done|lia|intros _; lia]. }
  rewrite process_files_cons.
  destruct (IH (process_file img f ls)) as (H1 & H2 & H3).
  unfold process_file in *. destruct (bool_decide _).
  - cbn [processed skipped newEntries] in *. simpl.
    split_and!; [done|lia|]. intros Hall. rewrite H3; [lia|].
    intros g Hg. apply Hall. by right.
  - destruct (img f) as [pr|] eqn:Ef.
    + cbn [processed skipped newEntries] in *. rewrite length_app in H1.
      simpl in *. split_and!; [lia|lia|]. intros Hall. rewrite H3; [lia|].
      intros g Hg. apply Hall. by right.
    + simpl. split_and!; [done|lia|]. intros Hall.
      destruct (Hall f); [by left|done].
Qed.

End LoopFacts.

(** X20: every entry a run appends is the stub built from an image file of
    the listing whose processing went through, under the slug of its name,
    and that slug was not an id of the manifest. *)
Theorem appended_entries_come_from_images img listing disk e :
  e ∈ Processor.run_entries img listing disk →
  ∃ f pr,
    f ∈ listing
    ∧ Processor.is_image f = true
    ∧ img f = Some pr
    ∧ e = Processor.entry f (Processor.slugify f) pr
    ∧ Processor.slugify f ∉ string_ids (Processor.loaded_photos disk).
Proof.
  intros He. pose proof He as Hin.
  destruct (ProcessorFacts.run_entries_spec img listing disk)
    as (ids & Hids & _ & Hfresh & _).
  unfold Processor.run_entries in He.
  apply LoopFacts.process_files_origin in He as [He|(f & pr & Hf & Hi & ->)].
  { by apply elem_of_nil in He. }
  apply list_elem_of_filter in Hf as [Him Hf].
  exists f, pr. split_and!; try done.
  - by apply Is_true_true.
  - apply Hfresh.
    destruct (has_ids_elem _ _ _ Hids Hin) as (i & Hi' & Hin').
    rewrite ProcessorFacts.entry_id in Hi'. by simplify_eq.
Qed.

Lemma appended_entries_come_from_images_witness :
  let img : Processor.imaging :=
    λ _, Some (Processor.mkProbe (Some 6000%Z) (Some 4000%Z) "" "" None) in
  let listing := ["b.jpg"; "Sea View.JPG"; "notes.txt"] in
  let e := Processor.entry "Sea View.JPG" "sea-view"
             (Processor.mkProbe (Some 6000%Z) (Some 4000%Z) "" "" None) in
  e ∈ Processor.run_entries img listing (Processor.Document (Some [Scenario.b]))
  ∧ ∃ f pr,
      f ∈ listing
      ∧ Processor.is_image f = true
      ∧ img f = Some pr
      ∧ e = Processor.entry f (Processor.slugify f) pr
      ∧ Processor.slugify f ∉ string_ids
          (Processor.loaded_photos (Processor.Document (Some [Scenario.b]))).
Proof.
  intros img listing e.
  assert (e ∈ Processor.run_entries img listing (Processor.Document (Some [Scenario.b]))) as H.
  { apply list_elem_of_In. left. reflexivity. }
  split; [exact H|].
  exact (appended_entries_come_from_images img listing
           (Processor.Document (Some [Scenario.b])) e H).
Defined.

(** X21: when the photos of [photos.json] have distinct string ids, so have
    the photos of the file a run writes, and the photos there were come
    first, unchanged and in their order. *)
Theorem written_manifest_keeps_ids_distinct img listing old ids l :
  has_ids old ids →
  NoDup ids →
  Processor.written img listing (Processor.Document (Some old))
    = Some (Processor.Document (Some l)) →
  ∃ new ids',
    l = old ++ new
    ∧ new = Processor.run_entries img listing (Processor.Document (Some old))
    ∧ new ≠ []
    ∧ has_ids l (ids ++ ids')
    ∧ NoDup (ids ++ ids').
Proof.
  intros Hids Hnd Hw.
  destruct (ProcessorFacts.run_entries_spec img listing
              (Processor.Document (Some old)))
    as (ids' & Hids' & Hnd' & Hfresh & _).
  unfold Processor.written in Hw. cbn [Processor.loaded_photos] in *.
  destruct (Processor.run_entries img listing (Processor.Document (Some old)))
    as [|e new] eqn:E; [done|].
  injection Hw as <-. exists (e :: new), ids'. split_and!; try done.
  - by apply has_ids_app.
  - apply NoDup_app. split_and!; [done| |done].
    intros i Hi Hi'. apply (Hfresh i Hi'). by rewrite (has_ids_string_ids _ _ Hids).
Qed.

Lemma written_manifest_keeps_ids_distinct_witness :
  let img : Processor.imaging :=
    λ _, Some (Processor.mkProbe (Some 6000%Z) (Some 4000%Z) "" "" None) in
  let listing := ["b.jpg"; "Sea View.JPG"; "sea-view.png"] in
  let l := Scenario.b :: Processor.run_entries img listing (Processor.Document (Some [Scenario.b])) in
  Processor.written img listing (Processor.Document (Some [Scenario.b]))
    = Some (Processor.Document (Some l))
  ∧ ∃ new ids',
      l = [Scenario.b] ++ new
      ∧ new = Processor.run_entries img listing (Processor.Document (Some [Scenario.b]))
      ∧ new ≠ []
      ∧ has_ids l (["b"] ++ ids')
      ∧ NoDup (["b"] ++ ids').
Proof.
  intros img listing l.
  assert (Processor.written img listing (Processor.Document (Some [Scenario.b]))
          = Some (Processor.Document (Some l))) as H
    by reflexivity.
  split; [exact H|].
  apply (written_manifest_keeps_ids_distinct img listing [Scenario.b] ["b"] l).
  - reflexivity.
  - apply (bool_decide_unpack _). vm_compute. exact I.
  - exact H.
Defined.

(** X22: the counts of the summary line: [processed] is the number of
    entries appended; [processed + skipped] never exceeds the number of image
    files, and equals it when no file's processing throws. *)
Theorem summary_counts img listing disk :
  let files := filter Processor.is_image listing in
  let known := list_to_set (string_ids (Processor.loaded_photos disk)) in
  let ls := Processor.process_files img files (Processor.mkLoop known [] 0 0) in
  Processor.processed ls = length (Processor.run_entries img listing disk)
  ∧ (Processor.processed ls + Processor.skipped ls ≤ length files)%nat
  ∧ ((∀ f, f ∈ files → img f ≠ None) →
     (Processor.processed ls + Processor.skipped ls = length files)%nat).
Proof.
  intros files known ls.
  destruct (LoopFacts.process_files_counters img files
              (Processor.mkLoop known [] 0 0)) as (H1 & H2 & H3).
  fold ls in H1, H2, H3. cbn [Processor.processed Processor.skipped
                              Processor.newEntries length] in *.
  split_and!.
  - unfold Processor.run_entries. fold known files ls. lia.
  - lia.
  - intros Hall. rewrite H3; [lia|done].
Qed.

Section ProcessorAndAdmin.
Variable server : remote.

Lemma entry_local_paths f i pr :
  local_paths (VRec (Processor.entry f i pr))
  = ["photos/uploads/" +:+ f; "photos/thumbs/" +:+ i +:+ ".jpg"].
Proof.
  unfold local_paths, Processor.entry.
  change (VRec ?r !! ?k) with (r !! k).
  cbn [list_to_map foldr fst snd uncurry].
  rewrite lookup_insert_ne, lookup_insert_eq by done.
  rewrite lookup_insert_ne, lookup_insert_ne, lookup_insert_eq by done.
  reflexivity.
Qed.

(** X23: both files of an entry written by the processor are local paths
    for the admin console: when such a photo is the pending deletion, a
    publish attempt that gets to the re-read has called [ghDeleteFile] for
    the original and for the thumbnail, in that order. *)
Theorem processor_entries_are_deletable w o w' evs f i pr :
  pendingDeletes (store w) = [VRec (Processor.entry f i pr)] →
  publishToGitHub server w = (o, w') →
  timeline w' = timeline w ++ evs →
  CallGetFile "photos.json" ∈ evs →
  calls_deleted evs = ["photos/uploads/" +:+ f; "photos/thumbs/" +:+ i +:+ ".jpg"].
Proof.
  intros Hpd H Htl Hin.
  destruct (reached_reread server w o w' evs H Htl Hin) as [-> _].
  rewrite Hpd. simpl. by rewrite entry_local_paths, app_nil_r.
Qed.

End ProcessorAndAdmin.

Lemma processor_entries_are_deletable_witness :
  let w := mkWorld Samples.shot_deleted [] in
  let w' := (publishToGitHub Scenario.steady w).2 in
  pendingDeletes (store w) = [VRec Samples.shot]
  ∧ calls_deleted (timeline w')
    = ["photos/uploads/" +:+ "Sea View.JPG"; "photos/thumbs/" +:+ "sea-view" +:+ ".jpg"].
Proof.
  intros w w'. split; [reflexivity|].
  apply (processor_entries_are_deletable Scenario.steady w (Ret published) w'
           (timeline w') "Sea View.JPG" "sea-view"
           (Processor.mkProbe (Some 6000%Z) (Some 4000%Z) "" "" None)).
  - reflexivity.
  - reflexivity.
  - reflexivity.
  - apply list_elem_of_In. vm_compute. do 6 right. left. reflexivity.
Defined.

(** X24: for a four-digit year, a month index from 0 to 11 and a day from 1
    to 31, [formatDate] gives ten characters with hyphens in the fifth and
    the eighth place: the form YYYY-MM-DD. *)
Theorem formatDate_iso_shape (y m d : Z) :
  (1000 ≤ y ≤ 9999)%Z → (0 ≤ m ≤ 11)%Z → (1 ≤ d ≤ 31)%Z →
  let s := Processor.formatDate (Some (y, m, d)) in
  String.length s = 10
  ∧ String.get 4 s = Some "-"%char
  ∧ String.get 7 s = Some "-"%char.
Proof.
  intros Hy Hm Hd.
  assert (Forall (λ y', String.length (pretty y') = 4) (seqZ 1000 9000)) as Hys.
  { apply (bool_decide_unpack _). vm_compute. exact I. }
  assert (Forall (λ n, String.length (Processor.padded n) = 2) (seqZ 1 31)) as Hps.
  { apply (bool_decide_unpack _). vm_compute. exact I. }
  rewrite Forall_forall in Hys, Hps.
  assert (String.length (pretty y) = 4) as Hly.
  { apply Hys, elem_of_seqZ. lia. }
  assert (String.length (Processor.padded (m + 1)) = 2) as Hlm.
  { apply Hps, elem_of_seqZ. lia. }
  assert (String.length (Processor.padded d) = 2) as Hld.
  { apply Hps, elem_of_seqZ. lia. }
  cbn [Processor.formatDate].
  destruct (pretty y) as [|y1 [|y2 [|y3 [|y4 [|? ?]]]]]; try done.
  destruct (Processor.padded (m + 1)) as [|m1 [|m2 [|? ?]]]; try done.
  destruct (Processor.padded d) as [|d1 [|d2 [|? ?]]]; try done.
Qed.

Lemma formatDate_iso_shape_witness :
  Processor.formatDate (Some (2024, 0, 5)%Z) = "2024-01-05"
  ∧ (let s := Processor.formatDate (Some (2024, 0, 5)%Z) in
     String.length s = 10
     ∧ String.get 4 s = Some "-"%char
     ∧ String.get 7 s = Some "-"%char).
Proof.
  split; [reflexivity|].
  apply (formatDate_iso_shape 2024 0 5); lia.
Defined.

(** * The settings form *)

Lemma drop_spaces_suffix l : ∃ k, l = k ++ drop_spaces l.
Proof.
  induction l as [|c l [k IH]]; [by exists []|]. simpl.
  destruct (is_space c); [|by exists []].
  exists (c :: k). simpl. by f_equal.
Qed.

Lemma drop_spaces_head l c r : drop_spaces l = c :: r → is_space c = false.
Proof.
  induction l as [|x l IH]; [done|]. simpl.
  destruct (is_space x) eqn:E; [done|]. by intros [= <- _].
Qed.

(** [trim_chars l] is a stretch of [l] with no whitespace at either end. *)
Lemma trim_chars_spec l :
  ∃ k1 k2,
    l = k1 ++ trim_chars l ++ k2
    ∧ (∀ c r, trim_chars l = c :: r → is_space c = false)
    ∧ (∀ c r, trim_chars l = r ++ [c] → is_space c = false).
Proof.
  unfold trim_chars.
  destruct (drop_spaces_suffix l) as [k1 H1].
  destruct (drop_spaces_suffix (rev (drop_spaces l))) as [k2 H2].
  set (m := drop_spaces (rev (drop_spaces l))) in *.
  assert (drop_spaces l = rev m ++ rev k2) as H3.
  { rewrite <- rev_app_distr, <- H2. by rewrite rev_involutive. }
  exists k1, (rev k2). split_and!.
  - by rewrite <- H3.
  - intros c r Hr. rewrite Hr in H3. simpl in H3.
    by apply (drop_spaces_head l c (r ++ rev k2)).
  - intros c r Hr. apply (f_equal (@rev ascii)) in Hr.
    rewrite rev_involutive, rev_app_distr in Hr. simpl in Hr.
    by apply (drop_spaces_head (rev (drop_spaces l)) c (rev r)).
Qed.

Lemma trim_chars_fixed l :
  (∀ c r, l = c :: r → is_space c = false) →
  (∀ c r, l = r ++ [c] → is_space c = false) →
  trim_chars l = l.
Proof.
  intros Hh Ht. unfold trim_chars.
  assert (∀ k, (∀ c r, k = c :: r → is_space c = false) → drop_spaces k = k) as Hd.
  { intros [|c k] H; [done|]. simpl. by rewrite (H c k). }
  rewrite (Hd l Hh). rewrite Hd; [apply rev_involutive|].
  intros c r Hr. apply (Ht c (rev r)).
  rewrite <- (rev_involutive l), Hr. done.
Qed.

Lemma trim_chars_idem l : trim_chars (trim_chars l) = trim_chars l.
Proof.
  destruct (trim_chars_spec l) as (k1 & k2 & _ & Hh & Ht).
  by apply trim_chars_fixed.
Qed.

Lemma split_lines_no_newline l :
  Forall (λ piece, newline ∉ piece) (split_lines l).
Proof.
  induction l as [|c l IH]; simpl.
  { constructor; [apply not_elem_of_nil|constructor]. }
  destruct (decide (c = newline)) as [->|Hc].
  - rewrite bool_decide_eq_true_2 by done.
    constructor; [apply not_elem_of_nil|done].
  - rewrite bool_decide_eq_false_2 by done.
    destruct (split_lines l) as [|h t].
    { constructor; [|constructor].
      intros [?|?%elem_of_nil]%elem_of_cons; [by subst|done]. }
    apply Forall_cons in IH as [Hh Ht]. constructor; [|done].
    intros [?|?]%elem_of_cons; [by subst|done].
Qed.

Lemma string_of_list_ascii_nonempty l : l ≠ [] → string_of_list_ascii l ≠ "".
Proof. by destruct l. Qed.

Lemma trimmed_or_nonempty fallback x : fallback ≠ "" → trimmed_or fallback x ≠ "".
Proof.
  intros Hf. unfold trimmed_or.
  destruct (decide (trim x = "")) as [H|H].
  - by rewrite (bool_decide_eq_true_2 _ H).
  - by rewrite (bool_decide_eq_false_2 _ H).
Qed.

(** X25: the configuration [saveSettings] builds has a non-empty site name
    and eyebrow, and tagline items that are non-empty, have no whitespace at
    either end and hold no line feed, whatever the form contains. *)
Theorem newConfig_is_normalised f :
  siteName (newConfig f) ≠ ""
  ∧ heroEyebrow (newConfig f) ≠ ""
  ∧ ∀ t, t ∈ heroTagline (newConfig f) →
      t ≠ "" ∧ trim t = t ∧ newline ∉ list_ascii_of_string t.
Proof.
  split_and!; [by apply trimmed_or_nonempty..|].
  intros t Ht. cbn [newConfig heroTagline] in Ht. unfold heroTagline_of in Ht.
  apply list_elem_of_fmap in Ht as (l & -> & Hl).
  unfold tagline_chars in Hl. apply list_elem_of_filter in Hl as [Hne Hl].
  apply list_elem_of_fmap in Hl as (piece & -> & Hp).
  split_and!.
  - by apply string_of_list_ascii_nonempty.
  - unfold trim. by rewrite list_ascii_of_string_of_list_ascii, trim_chars_idem.
  - rewrite list_ascii_of_string_of_list_ascii.
    pose proof (split_lines_no_newline (list_ascii_of_string (cfg_tagline f))) as Hs.
    rewrite Forall_forall in Hs. specialize (Hs _ Hp).
    destruct (trim_chars_spec piece) as (k1 & k2 & Heq & _).
    intros Hin. apply Hs. rewrite Heq. rewrite !elem_of_app. tauto.
Qed.

Lemma split_lines_line x rest :
  newline ∉ x → split_lines (x ++ newline :: rest) = x :: split_lines rest.
Proof.
  induction x as [|c x IH]; intros Hx.
  - done.
  - cbn [app split_lines].
    rewrite bool_decide_eq_false_2 by (intros ->; apply Hx; by left).
    rewrite IH; [done|]. intros H. apply Hx. by right.
Qed.

Lemma split_lines_last x : newline ∉ x → split_lines x = [x].
Proof.
  induction x as [|c x IH]; intros Hx; [done|]. cbn [split_lines].
  rewrite bool_decide_eq_false_2 by (intros ->; apply Hx; by left).
  rewrite IH; [done|]. intros H. apply Hx. by right.
Qed.

Lemma split_join_lines ls :
  ls ≠ [] → Forall (λ x, newline ∉ x) ls → split_lines (join_lines ls) = ls.
Proof.
  intros Hne H. induction H as [|x ls Hx Hls IH]; [done|].
  destruct ls as [|y ls].
  - simpl. by apply split_lines_last.
  - change (join_lines (x :: y :: ls)) with (x ++ newline :: join_lines (y :: ls)).
    rewrite split_lines_line by done. f_equal. by apply IH.
Qed.

(** X26: ASCII tagline items that are non-empty, have no whitespace at
    either end and hold no line feed come back unchanged when the text of
    the tagline box is their [join] by line feeds, the text
    [showSettingsPanel] builds for it. *)
Theorem tagline_round_trip lines :
  Forall (λ t, t ≠ "" ∧ trim t = t ∧ (newline ∉ list_ascii_of_string t)
               ∧ Forall (λ c, (nat_of_ascii c < 128)%nat) (list_ascii_of_string t))
    lines →
  heroTagline_of (tagline_text lines) = lines.
Proof.
  intros H. unfold heroTagline_of, tagline_text, tagline_chars.
  rewrite list_ascii_of_string_of_list_ascii.
  destruct (decide (lines = [])) as [->|Hne]; [done|].
  rewrite split_join_lines.
  - assert (map trim_chars (map list_ascii_of_string lines)
            = map list_ascii_of_string lines) as ->.
    { clear Hne. induction H as [|t ts (_ & Ht & _ & _) _ IH]; [done|].
      simpl. rewrite IH. f_equal.
      unfold trim in Ht. rewrite <- Ht at 2.
      by rewrite list_ascii_of_string_of_list_ascii. }
    clear Hne. induction H as [|t ts (Hne & _ & _ & _) _ IH]; [done|]. simpl.
    rewrite filter_cons_True.
    + simpl. by rewrite string_of_list_ascii_of_string, IH.
    + intros Hnil. apply Hne. rewrite <- (string_of_list_ascii_of_string t).
      by rewrite Hnil.
  - by destruct lines.
  - apply Forall_fmap. eapply Forall_impl; [exact H|]. by intros t (_ & _ & ? & _).
Qed.

Lemma tagline_round_trip_witness :
  Forall (λ t, t ≠ "" ∧ trim t = t ∧ (newline ∉ list_ascii_of_string t)
               ∧ Forall (λ c, (nat_of_ascii c < 128)%nat) (list_ascii_of_string t))
    ["Architecture"; "Long exposure"]
  ∧ heroTagline_of (tagline_text ["Architecture"; "Long exposure"])
    = ["Architecture"; "Long exposure"].
Proof.
  assert (Forall (λ t, t ≠ "" ∧ trim t = t ∧ (newline ∉ list_ascii_of_string t)
                       ∧ Forall (λ c, (nat_of_ascii c < 128)%nat)
                           (list_ascii_of_string t))
            ["Architecture"; "Long exposure"]) as H.
  { repeat constructor; try done;
      apply (bool_decide_unpack _); vm_compute; exact I. }
  split; [exact H|]. exact (tagline_round_trip _ H).
Defined.

(** * The binary string of an upload *)

Lemma binary_loop_spec fuel i bytes binary :
  (length bytes - i ≤ fuel)%nat →
  binary_loop fuel i bytes binary = binary ++ drop i bytes.
Proof.
  assert (0 < chunk)%nat as Hc by (unfold chunk; lia).
  revert i binary. induction fuel as [|fuel IH]; intros i binary Hf; simpl.
  - rewrite drop_ge by lia. by rewrite app_nil_r.
  - destruct (Nat.ltb_spec i (length bytes)) as [Hi|Hi].
    + rewrite IH by lia. rewrite <- app_assoc. f_equal.
      rewrite <- drop_drop. apply take_drop.
    + rewrite drop_ge by lia. by rewrite app_nil_r.
Qed.

(** X27: the chunked loop of [ghUploadBinary] builds a string that has the
    bytes of the file, all of them, once each and in order, whatever the
    size of the file; any number of turns from [bytes.length] on gives the
    same. *)
Theorem binary_string_has_all_bytes bytes :
  binary_of bytes = bytes
  ∧ ∀ fuel, (length bytes ≤ fuel)%nat → binary_loop fuel 0 bytes [] = bytes.
Proof.
  split; [unfold binary_of|intros fuel Hf]; by rewrite binary_loop_spec by lia.
Qed.

(** * The lightbox *)

Module GalleryFacts.
Import Gallery.

Lemma findIndex_Some hash l idx :
  findIndex hash l = Some idx →
  ∃ p, l !! idx = Some p ∧ photo_id p = Some (JStr hash)
       ∧ ∀ j q, (j < idx)%nat → l !! j = Some q → photo_id q ≠ Some (JStr hash).
Proof.
  revert idx. induction l as [|p l IH]; intros idx; [done|]. cbn [findIndex].
  destruct (id_is (Some hash) p) eqn:E.
  - intros [= Hidx]. subst idx. exists p.
    split_and!; [reflexivity|by apply id_is_true|intros; lia].
  - destruct (findIndex hash l) as [k|]; [|done]. cbn. intros [= Hidx]. subst idx.
    destruct (IH k eq_refl) as (q & Hq & Hid & Hfirst). exists q.
    split_and!; [exact Hq|done|]. intros [|j] r Hj.
    + cbn. intros [= Hr] Hr'%id_is_true. subst r. congruence.
    + cbn. apply Hfirst. lia.
Qed.

Lemma findIndex_None hash l p :
  findIndex hash l = None → p ∈ l → photo_id p ≠ Some (JStr hash).
Proof.
  induction l as [|q l IH]; [by intros _ ?%elem_of_nil|]. cbn [findIndex].
  destruct (id_is (Some hash) q) eqn:E; [done|].
  destruct (findIndex hash l) as [k|] eqn:Ek; [done|]. intros _.
  intros [->|Hp]%elem_of_cons; [|by apply IH].
  intros Hid%id_is_true. congruence.
Qed.

Lemma findIndex_unique l ids i s p :
  has_ids l ids → NoDup ids → l !! i = Some p → photo_id p = Some (JStr s) →
  findIndex s l = Some i.
Proof.
  revert ids i. induction l as [|q l IH]; intros ids i Hids Hnd Hi Hp; [done|].
  apply has_ids_cons in Hids as (j & ids' & -> & Hq & Hl).
  apply NoDup_cons in Hnd as [Hj Hnd]. cbn [findIndex].
  destruct i as [|i]; cbn in Hi.
  - injection Hi as ->. by rewrite (proj2 (id_is_true s p) Hp).
  - destruct (id_is (Some s) q) eqn:E.
    + apply id_is_true in E. assert (j = s) as -> by congruence.
      apply list_elem_of_lookup_2 in Hi.
      destruct (has_ids_elem _ _ _ Hl Hi) as (s' & Hs' & Hin). congruence.
    + by rewrite (IH ids' i Hl Hnd Hi Hp).
Qed.

End GalleryFacts.

Lemma navigate_cases dir filtered lb :
  (Gallery.navigate dir filtered lb = lb
   ∧ (Gallery.lb_index lb + dir < 0
      ∨ Z.of_nat (length filtered) ≤ Gallery.lb_index lb + dir))%Z
  ∨ (Gallery.navigate dir filtered lb
       = Gallery.mkLightbox (Gallery.lb_open lb) (Gallery.lb_index lb + dir)
     ∧ 0 ≤ Gallery.lb_index lb + dir < Z.of_nat (length filtered))%Z.
Proof.
  unfold Gallery.navigate.
  destruct (Z.ltb_spec (Gallery.lb_index lb + dir) 0) as [H1|H1].
  { left. split; [done|lia]. }
  destruct (Z.leb_spec (Z.of_nat (length filtered)) (Gallery.lb_index lb + dir))
    as [H2|H2].
  { left. split; [done|lia]. }
  right. split; [done|lia].
Qed.

(** X28: [navigate] never takes the index out of the filtered list; a step
    past either end changes nothing, and a step forward followed by a step
    back (or back, then forward) returns to the photo shown. *)
Theorem navigate_stays_in_range dir filtered lb :
  (0 ≤ Gallery.lb_index lb < Z.of_nat (length filtered))%Z →
  let lb' := Gallery.navigate dir filtered lb in
  (0 ≤ Gallery.lb_index lb' < Z.of_nat (length filtered))%Z
  ∧ Gallery.lb_open lb' = Gallery.lb_open lb
  ∧ (Gallery.lb_index lb = Z.of_nat (length filtered) - 1 →
       Gallery.navigate 1 filtered lb = lb)%Z
  ∧ (Gallery.lb_index lb = 0 → Gallery.navigate (-1) filtered lb = lb)%Z
  ∧ (Gallery.lb_index lb + 1 < Z.of_nat (length filtered) →
       Gallery.navigate (-1) filtered (Gallery.navigate 1 filtered lb) = lb)%Z
  ∧ (0 < Gallery.lb_index lb →
       Gallery.navigate 1 filtered (Gallery.navigate (-1) filtered lb) = lb)%Z.
Proof.
  intros Hin lb'. unfold lb'.
  refine (conj _ (conj _ (conj _ (conj _ (conj _ _))))).
  - destruct (navigate_cases dir filtered lb) as [[Hn _]|[Hn ?]]; rewrite Hn.
    + exact Hin.
    + cbn [Gallery.lb_index]. lia.
  - by destruct (navigate_cases dir filtered lb) as [[Hn _]|[Hn ?]]; rewrite Hn.
  - intros H. destruct (navigate_cases 1 filtered lb) as [[Hn _]|[_ ?]]; [exact Hn|lia].
  - intros H. destruct (navigate_cases (-1) filtered lb) as [[Hn _]|[_ ?]]; [exact Hn|lia].
  - intros H. destruct (navigate_cases 1 filtered lb) as [[_ ?]|[Hn _]]; [lia|].
    rewrite Hn.
    destruct (navigate_cases (-1) filtered
                (Gallery.mkLightbox (Gallery.lb_open lb) (Gallery.lb_index lb + 1)))
      as [[_ Hout]|[Hn' _]]; cbn [Gallery.lb_index Gallery.lb_open] in *; [lia|].
    rewrite Hn'. destruct lb as [o i]. cbn [Gallery.lb_index Gallery.lb_open].
    f_equal. lia.
  - intros H. destruct (navigate_cases (-1) filtered lb) as [[_ ?]|[Hn _]]; [lia|].
    rewrite Hn.
    destruct (navigate_cases 1 filtered
                (Gallery.mkLightbox (Gallery.lb_open lb) (Gallery.lb_index lb + -1)))
      as [[_ Hout]|[Hn' _]]; cbn [Gallery.lb_index Gallery.lb_open] in *; [lia|].
    rewrite Hn'. destruct lb as [o i]. cbn [Gallery.lb_index Gallery.lb_open].
    f_equal. lia.
Qed.

Lemma navigate_stays_in_range_witness :
  let filtered := [Scenario.a_old; Scenario.b] in
  let lb := Gallery.mkLightbox true 1 in
  let lb' := Gallery.navigate 1 filtered lb in
  lb' = lb
  ∧ (0 ≤ Gallery.lb_index lb' < Z.of_nat (length filtered))%Z
  ∧ Gallery.lb_open lb' = Gallery.lb_open lb
  ∧ (Gallery.lb_index lb = Z.of_nat (length filtered) - 1 →
       Gallery.navigate 1 filtered lb = lb)%Z
  ∧ (Gallery.lb_index lb = 0 → Gallery.navigate (-1) filtered lb = lb)%Z
  ∧ (Gallery.lb_index lb + 1 < Z.of_nat (length filtered) →
       Gallery.navigate (-1) filtered (Gallery.navigate 1 filtered lb) = lb)%Z
  ∧ (0 < Gallery.lb_index lb →
       Gallery.navigate 1 filtered (Gallery.navigate (-1) filtered lb) = lb)%Z.
Proof.
  intros filtered lb lb'. split; [reflexivity|].
  apply (navigate_stays_in_range 1 filtered lb). simpl. lia.
Defined.

(** X29: when the photos shown have distinct string ids, the hash
    [#id] of the photo at an index opens the lightbox at that index; a hash
    that is the id of no photo, and an empty hash, leave the lightbox as it
    is. *)
Theorem hash_opens_its_photo filtered ids i p s lb :
  has_ids filtered ids →
  NoDup ids →
  filtered !! i = Some p →
  photo_id p = Some (JStr s) →
  s ≠ "" →
  Gallery.handleHashOpen ("#" +:+ s) filtered lb = Gallery.mkLightbox true (Z.of_nat i)
  ∧ (∀ h, h ≠ "" → h ∉ ids →
       Gallery.handleHashOpen ("#" +:+ h) filtered lb = lb)
  ∧ Gallery.handleHashOpen "" filtered lb = lb
  ∧ Gallery.handleHashOpen "#" filtered lb = lb.
Proof.
  intros Hids Hnd Hi Hp Hs. split_and!; [| |done|done].
  - unfold Gallery.handleHashOpen.
    change ("#" +:+ s) with (String "#"%char s). cbv beta iota zeta.
    rewrite (bool_decide_eq_false_2 _ Hs).
    by rewrite (GalleryFacts.findIndex_unique filtered ids i s p).
  - intros h Hh Hnot. unfold Gallery.handleHashOpen.
    change ("#" +:+ h) with (String "#"%char h). cbv beta iota zeta.
    rewrite (bool_decide_eq_false_2 _ Hh).
    destruct (Gallery.findIndex h filtered) as [k|] eqn:E; [|done].
    apply GalleryFacts.findIndex_Some in E as (q & Hq & Hid & _).
    apply list_elem_of_lookup_2 in Hq.
    destruct (has_ids_elem _ _ _ Hids Hq) as (h' & Hh' & Hin). congruence.
Qed.

Lemma hash_opens_its_photo_witness :
  let filtered := [Scenario.a_old; Scenario.b] in
  let lb := Gallery.mkLightbox false 0 in
  has_ids filtered ["a"; "b"]
  ∧ Gallery.handleHashOpen ("#" +:+ "b") filtered lb = Gallery.mkLightbox true (Z.of_nat 1)
  ∧ (∀ h, h ≠ "" → h ∉ ["a"; "b"] →
       Gallery.handleHashOpen ("#" +:+ h) filtered lb = lb)
  ∧ Gallery.handleHashOpen "" filtered lb = lb
  ∧ Gallery.handleHashOpen "#" filtered lb = lb.
Proof.
  intros filtered lb. split; [reflexivity|].
  apply (hash_opens_its_photo filtered ["a"; "b"] 1 Scenario.b "b" lb).
  - reflexivity.
  - apply (bool_decide_unpack _). vm_compute. exact I.
  - reflexivity.
  - reflexivity.
  - discriminate.
Defined.


(** * The store when no id is a name of [Object.prototype] *)

Lemma filter_not_in_snoc (del : list string) id (ids0 : list string) :
  filter (λ i, i ≠ id) (filter (λ i, i ∉ del) ids0)
  = filter (λ i, i ∉ del ++ [id]) ids0.
Proof.
  rewrite list_filter_filter. apply list_filter_iff. intros i.
  rewrite elem_of_app, list_elem_of_singleton. tauto.
Qed.

Lemma settled_load manifest ids0 s0 st0 :
  has_ids manifest ids0 → settled ids0 [] (load manifest s0 st0).
Proof.
  intros Hids. unfold settled, tracks.
  assert (filter (λ i : string, i ∉ []) ids0 = ids0) as ->.
  { clear Hids. induction ids0 as [|i l IH]; [done|].
    rewrite filter_cons_True by apply not_elem_of_nil.
    by f_equal. }
  split; [done|]. split; [split_and!|split].
  - by apply has_ids_VRec.
  - done.
  - cbn. apply empty_subseteq.
  - intros k e. cbn. by rewrite lookup_empty.
  - intros p. cbn. intros (r & -> & _)%list_elem_of_fmap. eauto.
Qed.

(** In a settled store, an id that [getPhoto] resolves to a photo object is
    the id of a photo of [state.photos], and of the object. *)
Lemma settled_resolves ids0 del st id r :
  Forall (λ i, i ∉ prototype_keys) ids0 →
  settled ids0 del st →
  getPhoto (Some id) st = Some (VRec r) →
  id ∈ filter (λ i, i ∉ del) ids0 ∧ photo_id r = Some (JStr id).
Proof.
  intros Hkeys (Hproto & (Hph & Hpd & Hdom) & Hkey & Hrec).
  unfold getPhoto, dirty_get. cbn [sel_key]. rewrite Hproto.
  destruct (dirty st !! id) as [e|] eqn:Ee.
  - simpl. intros [= <-]. split; [|by apply Hkey].
    assert (id ∈ dom (dirty st)) as Hin by (apply elem_of_dom; eauto).
    apply Hdom in Hin. by apply elem_of_list_to_set in Hin.
  - assert (find_photo (Some id) st = Some (VRec r) →
            id ∈ filter (λ i, i ∉ del) ids0 ∧ photo_id r = Some (JStr id)) as Hfind.
    { intros [Hin Hid]%find_photo_Some. split; [|done].
      destruct (has_ids_elem _ _ _ Hph Hin) as (i & Hi & ?). congruence. }
    unfold inherited. repeat case_bool_decide; simpl; try done.
Qed.

Lemma settled_step ids0 del o st :
  Forall (λ i, i ∉ prototype_keys) ids0 →
  op_pre o st → settled ids0 del st → ∃ del', settled ids0 del' (step o st).
Proof.
  intros Hkeys Hpre Hst.
  pose proof Hst as (Hproto & (Hph & Hpd & Hdom) & Hkey & Hrec).
  destruct o as [id partial|id|id c]; simpl.
  - destruct Hpre as [[r Hr] Hpart].
    destruct (settled_resolves ids0 del st id r Hkeys Hst Hr) as [Hlive Hid].
    assert (id ≠ "__proto__") as Hne.
    { intros ->. apply list_elem_of_filter in Hlive as [_ Hin].
      rewrite Forall_forall in Hkeys. apply (Hkeys _ Hin). by left. }
    assert (stageEdit id partial st
            = mkState (photos st) (<[id := spread r partial]> (dirty st)) None
                (pendingDeletes st) (sha st) (Some id)) as ->.
    { unfold stageEdit. rewrite applyDraft_unfold. unfold dirty_set, draft_base.
      change (selected (selectPhoto id st)) with (Some id).
      change (getPhoto (Some id) (selectPhoto id st)) with (getPhoto (Some id) st).
      rewrite Hr. cbn [sel_key]. unfold reaches_setter.
      rewrite (bool_decide_eq_false_2 _ Hne). cbn.
      unfold set_dirty, selectPhoto, set_selected. cbn. by rewrite Hproto. }
    exists del. unfold settled, tracks, keyed_by_id.
    cbn [photos dirty dirtyProto pendingDeletes].
    split; [done|]. split; [split_and!|split].
    + done.
    + done.
    + rewrite dom_insert_L. apply union_least; [|done].
      apply singleton_subseteq_l. by apply elem_of_list_to_set.
    + intros k e. destruct (decide (k = id)) as [->|Hk].
      * rewrite lookup_insert_eq. intros [= <-].
        unfold photo_id, spread. by rewrite lookup_union_r.
      * rewrite lookup_insert_ne by done. apply Hkey.
    + done.
  - exists del. unfold settled, tracks, keyed_by_id, revert.
    cbn [photos dirty dirtyProto set_dirty pendingDeletes].
    split; [done|]. split; [split_and!|split].
    + done.
    + done.
    + rewrite dom_delete_L. etrans; [apply subseteq_difference_l|]; done.
    + intros k e [_ He]%lookup_delete_Some. by apply Hkey.
    + done.
  - destruct (markForDelete_cases id c st) as [->|(ph & E & ->)].
    { by exists del. }
    exists (del ++ [id]). rewrite (markForDelete_confirmed _ _ _ E).
    unfold settled, tracks, keyed_by_id. cbn [photos pendingDeletes dirty dirtyProto].
    rewrite <- filter_not_in_snoc.
    split; [done|]. split; [split_and!|split].
    + by apply has_ids_filter.
    + apply has_ids_app; [done|]. apply find_photo_Some in E as [_ E].
      unfold has_ids. simpl. by rewrite E.
    + rewrite dom_delete_L. intros i [Hi Hne]%elem_of_difference.
      apply elem_of_list_to_set, list_elem_of_filter. split.
      * intros ->. apply Hne. by apply elem_of_singleton.
      * apply Hdom in Hi. by apply elem_of_list_to_set in Hi.
    + intros k e [_ He]%lookup_delete_Some. by apply Hkey.
    + intros p [_ Hp]%list_elem_of_filter. by apply Hrec.
Qed.

Lemma settled_run ids0 ops st del :
  Forall (λ i, i ∉ prototype_keys) ids0 →
  ops_pre ops st → settled ids0 del st → ∃ del', settled ids0 del' (run ops st).
Proof.
  intros Hkeys. revert st del.
  induction ops as [|o ops IH]; intros st del Hpre Hst; [by exists del|].
  destruct Hpre as [Ho Hops]. simpl.
  destruct (settled_step _ _ _ _ Hkeys Ho Hst) as (del' & Hst').
  by apply (IH _ del').
Qed.

(** In a settled store the merged list is the photos list with each photo
    replaced by the overlay entry stored under its id, if there is one, and
    it has the ids of the photos. *)
Lemma settled_merged ids0 del st :
  Forall (λ i, i ∉ prototype_keys) ids0 →
  settled ids0 del st →
  ∃ written : list photo,
    merged st = VRec <$> written
    ∧ Forall2 (λ p q, ∃ r i, p = VRec r ∧ photo_id r = Some (JStr i)
                             ∧ q = default r (dirty st !! i))
        (photos st) written
    ∧ map photo_id written = map photo_id (photos st).
Proof.
  intros Hkeys (Hproto & (Hph & _ & _) & Hkey & Hrec).
  assert (Forall (λ i, i ∉ prototype_keys) (filter (λ i, i ∉ del) ids0)) as Hlive.
  { rewrite Forall_forall in *. intros i [_ Hi]%list_elem_of_filter. by apply Hkeys. }
  unfold merged. revert Hph Hrec Hlive.
  generalize (filter (λ i, i ∉ del) ids0). induction (photos st) as [|p l IH];
    intros ids Hph Hrec Hlive.
  { exists []. by split_and!; [|constructor|]. }
  apply has_ids_cons in Hph as (i & ids' & -> & Hi & Hl).
  apply Forall_cons in Hlive as [Hik Hlive].
  destruct (Hrec p) as [r ->]; [by left|].
  destruct (IH ids' Hl) as (written & Hm & Hf & Hids); [|done|].
  { intros q Hq. apply Hrec. by right. }
  exists (default r (dirty st !! i) :: written).
  assert (photo_id (VRec r) = Some (JStr i)) as Hi' by exact Hi.
  split_and!.
  - simpl. rewrite Hm, Hi'. cbn [to_key]. rewrite dirty_get_plain by done.
    by destruct (dirty st !! i).
  - constructor; [|done]. by exists r, i.
  - simpl. rewrite Hids. f_equal.
    destruct (dirty st !! i) as [e|] eqn:Ee; [|done].
    simpl. rewrite (Hkey _ _ Ee). by rewrite Hi'.
Qed.

(** X30: after any sequence of edits, reverts and deletions applied to a
    loaded manifest whose ids are distinct strings, none of them a name of
    [Object.prototype], each edit naming an id that [getPhoto] resolves to a
    photo object and leaving the [id] field alone, the effective list has
    exactly the ids (loaded ids ∪ overlay keys) minus the ids of the pending
    deletions, each once, in the loaded order. *)
Theorem effective_ids_without_prototype_names manifest ids0 s0 st0 ops :
  has_ids manifest ids0 →
  NoDup ids0 →
  Forall (λ i, i ∉ prototype_keys) ids0 →
  ops_pre ops (load manifest s0 st0) →
  let st := run ops (load manifest s0 st0) in
  ∃ ids,
    has_ids (effectiveList st) ids
    ∧ has_ids (pendingDeletes st) (string_ids (pendingDeletes st))
    ∧ list_to_set ids =@{gset string}
        (list_to_set ids0 ∪ dom (dirty st))
          ∖ list_to_set (string_ids (pendingDeletes st))
    ∧ NoDup ids
    ∧ sublist ids ids0.
Proof.
  intros Hids Hnd Hkeys Hpre st.
  destruct (settled_run ids0 ops (load manifest s0 st0) [] Hkeys Hpre
              (settled_load _ _ _ _ Hids)) as (del & Hst).
  fold st in Hst.
  destruct (settled_merged ids0 del st Hkeys Hst) as (written & Hm & _ & Hw).
  destruct Hst as (_ & (Hph & Hpd & Hdom) & _ & _).
  exists (filter (λ i, i ∉ del) ids0).
  rewrite (has_ids_string_ids _ _ Hpd). split_and!.
  - unfold has_ids, effectiveList. rewrite Hm.
    change (map photo_id (VRec <$> written)) with (photo_id <$> (VRec <$> written)).
    rewrite <- list_fmap_compose.
    change (photo_id ∘ VRec <$> written) with (map photo_id written).
    by rewrite Hw.
  - done.
  - apply set_eq. intros i.
    rewrite elem_of_difference, elem_of_union, !elem_of_list_to_set,
      list_elem_of_filter.
    split; [tauto|]. intros [[Hi|Hi] Hnd']; [done|].
    apply Hdom in Hi. apply elem_of_list_to_set, list_elem_of_filter in Hi. tauto.
  - by apply NoDup_filter.
  - apply sublist_filter.
Qed.

(** X30 on a sample session: [a] is retitled, reverted, retitled again, and
    [b] is deleted. *)
Lemma effective_ids_without_prototype_names_witness :
  let ops := [OpEdit "a" Scenario.retitle; OpRevert "a";
              OpEdit "a" Scenario.retitle; OpDelete "b" true] in
  let st := run ops (load [Scenario.a_old; Scenario.b] "v1" initial_state) in
  has_ids [Scenario.a_old; Scenario.b] ["a"; "b"]
  ∧ ∃ ids,
      has_ids (effectiveList st) ids
      ∧ has_ids (pendingDeletes st) (string_ids (pendingDeletes st))
      ∧ list_to_set ids =@{gset string}
          (list_to_set ["a"; "b"] ∪ dom (dirty st))
            ∖ list_to_set (string_ids (pendingDeletes st))
      ∧ NoDup ids
      ∧ sublist ids ["a"; "b"].
Proof.
  intros ops st. split; [reflexivity|].
  apply (effective_ids_without_prototype_names [Scenario.a_old; Scenario.b]
           ["a"; "b"] "v1" initial_state ops).
  - reflexivity.
  - apply (bool_decide_unpack _). vm_compute. exact I.
  - apply (bool_decide_unpack _). vm_compute. exact I.
  - simpl. split_and!; try exact I; try reflexivity.
    + exists Scenario.a_old. reflexivity.
    + exists Scenario.a_old. reflexivity.
Defined.

Lemma merged_of_plain st :
  dirtyProto st = None → dirty st = ∅ →
  (∀ p, p ∈ photos st → ∃ i, photo_id p = Some (JStr i) ∧ i ∉ prototype_keys) →
  merged st = photos st.
Proof.
  intros Hp Hd Hids. unfold merged.
  rewrite <- (map_id (photos st)) at 2. apply map_ext_in.
  intros p Hin%list_elem_of_In. destruct (Hids p Hin) as (i & Hi & Hk).
  rewrite Hi. cbn [to_key]. rewrite dirty_get_plain by done.
  by rewrite Hd, lookup_empty.
Qed.

Section PublishSettled.
Variable server : remote.

(** X31: in a store reached from a loaded manifest whose ids are strings,
    none of them a name of [Object.prototype], by edits staged on ids that
    resolve to photo objects (and by reverts and deletions), a publish
    attempt that ends with "Published!" has written the photos list with each
    photo replaced by the overlay entry stored under its id, if there is
    one; the written records have, position by position, the ids of
    [state.photos]; afterwards [state.photos] is the written list, the
    overlay and the pending deletions are empty, nothing is pending, the
    effective list is the written list, and [state.sha] is the SHA the write
    returned. *)
Theorem publish_commits_overlay manifest ids0 s0 st0 ops tl w' :
  has_ids manifest ids0 →
  Forall (λ i, i ∉ prototype_keys) ids0 →
  ops_pre ops (load manifest s0 st0) →
  let st := run ops (load manifest s0 st0) in
  publishToGitHub server (mkWorld st tl) = (Ret published, w') →
  ∃ (written : list photo) del doc s doc' s',
    Forall2 (λ p q, ∃ r i, p = VRec r ∧ photo_id r = Some (JStr i)
                           ∧ q = default r (dirty st !! i))
      (photos st) written
    ∧ map photo_id written = map photo_id (photos st)
    ∧ timeline w'
      = tl ++ del ++ reread_events ++ write_events (JObject <$> written) s
    ∧ Forall deletion_event del
    ∧ reread_response server (tl ++ del) = OkJson doc s
    ∧ write_response server (tl ++ del) (JObject <$> written) s = OkJson doc' s'
    ∧ photos (store w') = VRec <$> written
    ∧ dirty (store w') = ∅
    ∧ dirtyProto (store w') = None
    ∧ pendingDeletes (store w') = []
    ∧ pendingChangeCount (store w') = 0
    ∧ effectiveList (store w') = VRec <$> written
    ∧ sha (store w') = Some s'.
Proof.
  intros Hids Hkeys Hpre st Hpub.
  destruct (settled_run ids0 ops (load manifest s0 st0) [] Hkeys Hpre
              (settled_load _ _ _ _ Hids)) as (dl & Hst).
  fold st in Hst.
  destruct (settled_merged ids0 dl st Hkeys Hst) as (written & Hm & Hf & Hw).
  assert (json_of (merged st) = JObject <$> written) as Hj.
  { rewrite Hm. unfold json_of.
    change (map to_json (VRec <$> written)) with (to_json <$> (VRec <$> written)).
    by rewrite <- list_fmap_compose. }
  apply publish_inv in Hpub as (t & [= <-] & Hr).
  destruct (deletion_phase_runs server (pendingDeletes st) tl)
    as (od & del & Hd & Hdel & _).
  inversion Hr as [H0|msg evs _ Hd' Ht|evs _ Hd' Hf' Ht|evs doc s _ Hd' Hg Hf' Ht
                   |evs doc s doc' s' _ Hd' Hg Hw' Ht]; subst;
    try discriminate.
  cbn [store timeline] in *.
  destruct (runs_det _ _ _ _ _ _ Hd Hd') as [_ <-].
  rewrite Hj in *. fold st.
  exists written, del, doc, s, doc', s'. split_and!; try done.
  unfold effectiveList. rewrite <- Hm. apply merged_of_plain; [done|done|].
  cbn [photos committed set_pendingDeletes reset_dirty set_dirtyProto set_dirty
       set_photos]. rewrite Hm.
  intros p (q & -> & Hq)%list_elem_of_fmap.
  destruct (proj1 (list_elem_of_lookup _ _) Hq) as [n Hn].
  destruct (Forall2_lookup_r _ _ _ _ _ Hf Hn) as (p0 & Hp0 & r & i & -> & Hi & _).
  assert (photo_id q = Some (JStr i)) as Hqi.
  { apply (f_equal (λ l, l !! n)) in Hw. rewrite !list_lookup_fmap, Hn, Hp0 in Hw.
    simpl in Hw. injection Hw as ->. exact Hi. }
  exists i. split; [done|].
  destruct Hst as (_ & (Hph & _ & _) & _ & _).
  destruct (has_ids_elem _ _ _ Hph (list_elem_of_lookup_2 _ _ _ Hp0)) as (j & Hj' & Hin).
  assert (j = i) as -> by (rewrite photo_id_VRec in Hj'; congruence).
  apply list_elem_of_filter in Hin as [_ Hin].
  rewrite Forall_forall in Hkeys. by apply Hkeys.
Qed.

End PublishSettled.

(** X31 on the scenario of the specification: [a] is retitled, an edit is
    staged on [b] and reverted, and the remote SHA is unchanged. *)
Lemma publish_commits_overlay_witness :
  let ops := [OpEdit "a" Scenario.retitle; OpEdit "b" Scenario.retitle;
              OpRevert "b"] in
  let st := run ops (load [Scenario.a_old; Scenario.b] "v1" initial_state) in
  let w' := (publishToGitHub Scenario.steady (mkWorld st [])).2 in
  publishToGitHub Scenario.steady (mkWorld st []) = (Ret published, w')
  ∧ ∃ (written : list photo) del doc s doc' s',
      Forall2 (λ p q, ∃ r i, p = VRec r ∧ photo_id r = Some (JStr i)
                             ∧ q = default r (dirty st !! i))
        (photos st) written
      ∧ map photo_id written = map photo_id (photos st)
      ∧ timeline w'
        = [] ++ del ++ reread_events ++ write_events (JObject <$> written) s
      ∧ Forall deletion_event del
      ∧ reread_response Scenario.steady ([] ++ del) = OkJson doc s
      ∧ write_response Scenario.steady ([] ++ del) (JObject <$> written) s
        = OkJson doc' s'
      ∧ photos (store w') = VRec <$> written
      ∧ dirty (store w') = ∅
      ∧ dirtyProto (store w') = None
      ∧ pendingDeletes (store w') = []
      ∧ pendingChangeCount (store w') = 0
      ∧ effectiveList (store w') = VRec <$> written
      ∧ sha (store w') = Some s'.
Proof.
  intros ops st w'.
  assert (publishToGitHub Scenario.steady (mkWorld st []) = (Ret published, w'))
    as H by reflexivity.
  split; [exact H|].
  apply (publish_commits_overlay Scenario.steady [Scenario.a_old; Scenario.b]
           ["a"; "b"] "v1" initial_state ops [] w').
  - reflexivity.
  - apply (bool_decide_unpack _). vm_compute. exact I.
  - simpl. split_and!; try exact I; try reflexivity.
    + exists Scenario.a_old. reflexivity.
    + exists Scenario.b. reflexivity.
  - exact H.
Defined.

(** X32: when [photos.json] is missing, unreadable or holds an object (so
    not when it holds a top-level array), a run appends no entry whose id is
    already an id of the manifest, so a file whose slug is in the manifest is
    skipped; over two runs on the same listing, whatever the imaging
    libraries answer, the entries appended have distinct ids, none of them in
    the manifest the first run started from; and if the libraries answer the
    second time as the first, the second run appends nothing and does not
    write [photos.json]. *)
Theorem reprocessing_document_appends_once (img1 img2 : Processor.imaging)
    (listing : list string) (disk : option (list photo)) :
  let file := Processor.Document disk in
  let new1 := Processor.run_entries img1 listing file in
  let file1 := Processor.disk_after img1 listing file in
  let new2 := Processor.run_entries img2 listing file1 in
  (∀ f e, f ∈ listing →
      Processor.slugify f ∈ string_ids (Processor.loaded_photos file) →
      e ∈ new1 → photo_id e ≠ Some (JStr (Processor.slugify f)))
  ∧ (∃ ids, has_ids (new1 ++ new2) ids ∧ NoDup ids
       ∧ ∀ i, i ∈ ids → i ∉ string_ids (Processor.loaded_photos file))
  ∧ (img1 = img2 →
       new2 = [] ∧ Processor.written img2 listing file1 = None
       ∧ Processor.disk_after img2 listing file1 = file1).
Proof.
  intros file new1 file1 new2.
  destruct (ProcessorFacts.run_entries_spec img1 listing file)
    as (ids1 & Hids1 & Hnd1 & Hfresh1 & Hall1).
  destruct (ProcessorFacts.run_entries_spec img2 listing file1)
    as (ids2 & Hids2 & Hnd2 & Hfresh2 & _).
  fold new1 in Hids1. fold new2 in Hids2.
  assert (string_ids (Processor.loaded_photos file1)
          = string_ids (Processor.loaded_photos file) ++ ids1) as Hk2.
  { unfold file1, file. rewrite ProcessorFacts.loaded_after. fold file new1.
    by rewrite ProcessorFacts.string_ids_app, (has_ids_string_ids _ _ Hids1). }
  rewrite Hk2 in Hfresh2.
  split_and!.
  - intros f e _ Hf He Hid.
    destruct (has_ids_elem _ _ _ Hids1 He) as (i & Hi & Hin).
    apply (Hfresh1 i Hin). congruence.
  - exists (ids1 ++ ids2). split_and!.
    + by apply has_ids_app.
    + apply NoDup_app. split_and!; [done| |done].
      intros i Hi1 Hi2. apply (Hfresh2 i Hi2), elem_of_app. by right.
    + intros i [Hi|Hi]%elem_of_app Hin.
      * by apply (Hfresh1 i Hi).
      * apply (Hfresh2 i Hi), elem_of_app. by left.
  - intros <-.
    assert (new2 = []) as Hnil.
    { apply ProcessorFacts.run_entries_nothing. intros f Hf. rewrite Hk2.
      rewrite elem_of_app. destruct (Hall1 f Hf) as [?|[?|?]]; auto. }
    split_and!; [done| |].
    + unfold Processor.written. fold new2. by rewrite Hnil.
    + unfold Processor.disk_after, Processor.written. fold new2. by rewrite Hnil.
Qed.
